(** * Column generation with soft fixing: a shallow embedding of [ColGenSF.py],
      [Instance.py] and the driver [main.py]

    Python floats are modelled as exact rationals [Q]; the two infinities
    [np.inf] and [-np.inf] that initialise the bounds are explicit
    constructors of [enum].  The optimiser (Gurobi) is not part of the
    repository: inside the section [WithSolver] its answers are section
    variables, and every value the program reads from it ([.X], [.Pi],
    [getValue()]) is computed from those answers the way the program does.
    Only the schedule of [alpha], whose length could depend on rounding, is
    also run in binary64 ([decrements_binary64]). *)

From Stdlib Require Import PrimFloat.
From Stdlib Require Import QArith Qround Qminmax ZArith List Bool Lia.
Import ListNotations.
Open Scope Q_scope.
Set Warnings "-inexact-float".

(** ** Numbers *)

(** [a > b] and [a < b] on Python floats, as booleans. *)
Definition Qltb (a b : Q) : bool := negb (Qle_bool b a).
Definition Qgtb (a b : Q) : bool := Qltb b a.

(** A float that may be [-np.inf] or [np.inf]. *)
Inductive enum : Type :=
| NegInf
| Fin (q : Q)
| PosInf.

(** [a < b] on extended numbers. *)
Definition eltb (a b : enum) : bool :=
  match a, b with
  | NegInf, NegInf => false
  | NegInf, _ => true
  | Fin _, NegInf => false
  | Fin p, Fin q => Qltb p q
  | Fin _, PosInf => true
  | PosInf, _ => false
  end.

(** The order [a <= b] on extended numbers, as a proposition. *)
Definition ele (a b : enum) : Prop :=
  match a, b with
  | NegInf, _ => True
  | Fin _, NegInf => False
  | Fin p, Fin q => p <= q
  | Fin _, PosInf => True
  | PosInf, PosInf => True
  | PosInf, _ => False
  end.

Definition emax (a b : enum) : enum := if eltb a b then b else a.
Definition emin (a b : enum) : enum := if eltb b a then b else a.

(** ** Outcomes of a call

    A Python call returns, raises, or (in this model) runs out of the fuel
    that bounds its [while True] loops. *)
Inductive outcome (A : Type) : Type :=
| Done (a : A)
| Raised
| OutOfFuel.
Arguments Done {A} a.
Arguments Raised {A}.
Arguments OutOfFuel {A}.

Definition bind {A B} (c : outcome A) (k : A -> outcome B) : outcome B :=
  match c with
  | Done a => k a
  | Raised => Raised
  | OutOfFuel => OutOfFuel
  end.

Notation "x <- c ;; k" := (bind c (fun x => k))
  (at level 61, c at next level, right associativity).
Notation "' pat <- c ;; k" := (bind c (fun x => match x with pat => k end))
  (at level 61, pat pattern, c at next level, right associativity).

(** [l[i]]: an [IndexError] outside the list. *)
Definition index {A} (l : list A) (i : nat) : outcome A :=
  match nth_error l i with
  | Some a => Done a
  | None => Raised
  end.

(** [for i in range(n): s = body(i, s)], stopping at the first exception. *)
Fixpoint for_from {S} (start n : nat) (body : nat -> S -> outcome S) (s : S)
  : outcome S :=
  match n with
  | O => Done s
  | Datatypes.S n' => s' <- body start s ;; for_from (Datatypes.S start) n' body s'
  end.

Definition for_range {S} (n : nat) (body : nat -> S -> outcome S) (s : S)
  : outcome S :=
  for_from 0 n body s.

(** ** [Instance.py] *)

Record Instance : Type := mkInstance {
  W : Q;            (* capacity, first line of the file *)
  w : list Q;       (* item sizes *)
  d : list Q        (* item demands *)
}.

(** [self.I = len(self.w)]. *)
Definition I (ins : Instance) : nat := length (w ins).

(** [Instance.__init__] after the file has been split into numbers:
    [data[0][0]] is the capacity and each later line gives a size and a
    demand. *)
Fixpoint parse_rows (ls : list (list Q)) : outcome (list (Q * Q)) :=
  match ls with
  | [] => Done []
  | l :: ls' =>
      a <- index l 0 ;;
      b <- index l 1 ;;
      rest <- parse_rows ls' ;;
      Done ((a, b) :: rest)
  end.

Definition Instance_init (data : list (list Q)) : outcome Instance :=
  first <- index data 0 ;;
  cap <- index first 0 ;;
  rows <- parse_rows (tl data) ;;
  Done {| W := cap; w := map fst rows; d := map snd rows |}.

(** ** The optimiser's model, as the program uses it

    A variable handle is its index in the model and a constraint handle is
    the identifier it got when it was created.  [addConstr] and [remove] are
    lazy, as in Gurobi: a new constraint is pending until the next [update]
    (or [optimize]), and [getConstrs] lists only what is committed.
    Variables are created eagerly here: the program never reads the model's
    own variable list, only its handle list [x].  The solution attributes
    keep the values of the last [optimize]. *)

Inductive vtype : Type := CONTINUOUS | INTEGER.

(** The [name] argument of [addConstr], with the f-string's index kept as a
    number. *)
Inductive cname : Type :=
| Demand_ (i : nat)
| Soft_Fixing
| Soft_Fixing_piece_ (i : nat)
| Soft_fixing_ (i : nat)
| soft_fixing_ (n : nat)
| unnamed.

(** A [LinExpr]: terms [(coefficient, variable)] in the order of [addTerms]. *)
Definition LinExpr : Type := list (Q * nat).

Record Var : Type := mkVar {
  v_vtype : vtype;
  v_lb : Q;
  v_obj : Q
}.

(** Every constraint of the master problem is [lhs >= rhs]. *)
Record Constr : Type := mkConstr {
  c_id : nat;
  c_lhs : LinExpr;
  c_rhs : Q;
  c_name : cname
}.

Record Model : Type := mkModel {
  vars : list Var;            (* variables, in creation order *)
  constrs : list Constr;      (* [getConstrs()]: committed, in creation order *)
  pending : list Constr;      (* added since the last [update] *)
  removing : list nat;        (* handles passed to [remove] since then *)
  next_id : nat;              (* identifier of the next constraint *)
  removed : list Constr;      (* trace of [remove]: every constraint taken
                                 out by an [update], oldest first *)
  sol_X : list Q;             (* [.X] of each variable, last [optimize] *)
  sol_Pi : list (nat * Q)     (* [.Pi] of each constraint, by handle *)
}.

Definition empty_model : Model :=
  {| vars := []; constrs := []; pending := []; removing := []; next_id := 0;
     removed := []; sol_X := []; sol_Pi := [] |}.

Definition set_vars (v : list Var) (g : Model) : Model :=
  {| vars := v; constrs := constrs g; pending := pending g;
     removing := removing g; next_id := next_id g; removed := removed g;
     sol_X := sol_X g; sol_Pi := sol_Pi g |}.

Definition set_constrs (c : list Constr) (g : Model) : Model :=
  {| vars := vars g; constrs := c; pending := pending g;
     removing := removing g; next_id := next_id g; removed := removed g;
     sol_X := sol_X g; sol_Pi := sol_Pi g |}.

Definition set_solution (xs : list Q) (pis : list (nat * Q)) (g : Model)
  : Model :=
  {| vars := vars g; constrs := constrs g; pending := pending g;
     removing := removing g; next_id := next_id g; removed := removed g;
     sol_X := xs; sol_Pi := pis |}.

(** [addVar(vtype, lb, obj, column)]: the new variable's index is returned;
    [column] lists [(coefficient, constraint handle)] and puts the variable
    into those constraints. *)
Definition add_to_constr (column : list (Q * nat)) (j : nat) (c : Constr)
  : Constr :=
  {| c_id := c_id c;
     c_lhs := c_lhs c ++
              map (fun t => (fst t, j))
                  (filter (fun t => Nat.eqb (snd t) (c_id c)) column);
     c_rhs := c_rhs c; c_name := c_name c |}.

Definition addVar (vt : vtype) (lb obj : Q) (column : list (Q * nat))
  (g : Model) : nat * Model :=
  let j := length (vars g) in
  (j,
   {| vars := vars g ++ [mkVar vt lb obj];
      constrs := map (add_to_constr column j) (constrs g);
      pending := map (add_to_constr column j) (pending g);
      removing := removing g; next_id := next_id g; removed := removed g;
      sol_X := sol_X g; sol_Pi := sol_Pi g |}).

(** [setObjective(expr)]: the objective coefficient of each variable becomes
    the sum of its coefficients in [expr]. *)
Definition coef_of (e : LinExpr) (j : nat) : Q :=
  fold_left Qplus
    (map fst (filter (fun t => Nat.eqb (snd t) j) e)) 0.

Definition setObjective (e : LinExpr) (g : Model) : Model :=
  set_vars
    (map (fun jv => mkVar (v_vtype (snd jv)) (v_lb (snd jv)) (coef_of e (fst jv)))
         (combine (seq 0 (length (vars g))) (vars g)))
    g.

(** [addConstr(lhs >= rhs, name)]: the handle of the new constraint is
    returned; the constraint is pending. *)
Definition addConstr (lhs : LinExpr) (rhs : Q) (nm : cname) (g : Model)
  : nat * Model :=
  (next_id g,
   {| vars := vars g; constrs := constrs g;
      pending := pending g ++ [mkConstr (next_id g) lhs rhs nm];
      removing := removing g; next_id := Datatypes.S (next_id g);
      removed := removed g; sol_X := sol_X g; sol_Pi := sol_Pi g |}).

(** [remove(c)] for a constraint handle. *)
Definition remove (c : Constr) (g : Model) : Model :=
  {| vars := vars g; constrs := constrs g; pending := pending g;
     removing := removing g ++ [c_id c]; next_id := next_id g;
     removed := removed g; sol_X := sol_X g; sol_Pi := sol_Pi g |}.

Definition is_removing (g : Model) (c : Constr) : bool :=
  existsb (Nat.eqb (c_id c)) (removing g).

(** [update()]: pending additions are committed after the existing
    constraints, then the constraints passed to [remove] are taken out. *)
Definition update (g : Model) : Model :=
  let all := constrs g ++ pending g in
  {| vars := vars g;
     constrs := filter (fun c => negb (is_removing g c)) all;
     pending := [];
     removing := [];
     next_id := next_id g;
     removed := removed g ++ filter (is_removing g) all;
     sol_X := sol_X g; sol_Pi := sol_Pi g |}.

(** [v.vtype = vt] for the variable of index [j]. *)
Definition set_vtype (j : nat) (vt : vtype) (g : Model) : Model :=
  set_vars
    (map (fun iv => if Nat.eqb (fst iv) j
                    then mkVar vt (v_lb (snd iv)) (v_obj (snd iv))
                    else snd iv)
         (combine (seq 0 (length (vars g))) (vars g)))
    g.

(** [getObjective().getValue()]: the objective expression evaluated at the
    current [.X] values. *)
Definition dot (a b : list Q) : Q :=
  fold_left Qplus (map (fun p => fst p * snd p) (combine a b)) 0.

Definition objective_value (g : Model) : Q :=
  dot (map v_obj (vars g)) (sol_X g).

(** [x[j].X] for a variable handle. *)
Definition X_of (g : Model) (j : nat) : outcome Q := index (sol_X g) j.

(** [c.Pi] for a constraint handle. *)
Definition Pi_of (g : Model) (h : nat) : outcome Q :=
  match find (fun p => Nat.eqb (fst p) h) (sol_Pi g) with
  | Some p => Done (snd p)
  | None => Raised
  end.

(** ** The master problem object [MP]

    Attributes that Python creates later than [__init__] ([M], [pattern], [P],
    [set_cover], [x], [cons], [cont], [sol_rel], [last_rel]) start here with
    an empty value.  The report file and the console are not modelled;
    [psb_flag] is [False] in every run, so the branch it guards is left out. *)

Record MP : Type := mkMP {
  ins : Instance;                 (* problem data *)
  alpha : Q;                      (* soft fixing parameter *)
  Z_IP : enum;                    (* objective of the last integer solve *)
  best_IP : enum;                 (* best integer objective recorded *)
  column_flag : bool;             (* set by [add_column], cleared by [update_alpha] *)
  x_rel : list Q;                 (* relaxed solution of the last finished column generation *)
  x_IP : list Q;                  (* solution of the last integer solve *)
  total_column : nat;             (* [len(pattern[0])] after the last [add_column] *)
  columns_added : nat;            (* columns added since the last report *)
  rounded : Z;                    (* rolls used by the rounded relaxed solution *)
  best_lb : enum;                 (* best relaxation objective recorded *)
  lb : enum;                      (* objective of the last relaxation solved in column generation *)
  column_found : bool;            (* result of [column_generation_2] *)
  beta : Z;                       (* secondary parameter (only [update_beta] uses it) *)
  M : list Q;                     (* single-item fills computed by [initial] *)
  pattern : list (list Q);        (* [pattern[i][j]]: pieces of item [i] in column [j] *)
  P : nat;                        (* [len(pattern)] at [build_model] *)
  set_cover : Model;              (* the master problem *)
  x : list nat;                   (* variable handles, one per column *)
  cons : list nat;                (* handles of the demand constraints *)
  cont : nat;                     (* constraints added by the last [soft_fixing_type5] *)
  sol_rel : Q;                    (* relaxation objective at the end of [column_generation] *)
  last_rel : Q                    (* relaxation objective computed by [bounds_return] *)
}.

Definition set_ins (v : Instance) (m : MP) : MP :=
  {| ins := v; alpha := alpha m; Z_IP := Z_IP m; best_IP := best_IP m;
     column_flag := column_flag m; x_rel := x_rel m; x_IP := x_IP m;
     total_column := total_column m; columns_added := columns_added m;
     rounded := rounded m; best_lb := best_lb m; lb := lb m;
     column_found := column_found m; beta := beta m; M := M m;
     pattern := pattern m; P := P m; set_cover := set_cover m; x := x m;
     cons := cons m; cont := cont m; sol_rel := sol_rel m;
     last_rel := last_rel m |}.

Definition set_alpha (v : Q) (m : MP) : MP :=
  {| ins := ins m; alpha := v; Z_IP := Z_IP m; best_IP := best_IP m;
     column_flag := column_flag m; x_rel := x_rel m; x_IP := x_IP m;
     total_column := total_column m; columns_added := columns_added m;
     rounded := rounded m; best_lb := best_lb m; lb := lb m;
     column_found := column_found m; beta := beta m; M := M m;
     pattern := pattern m; P := P m; set_cover := set_cover m; x := x m;
     cons := cons m; cont := cont m; sol_rel := sol_rel m;
     last_rel := last_rel m |}.

Definition set_Z_IP (v : enum) (m : MP) : MP :=
  {| ins := ins m; alpha := alpha m; Z_IP := v; best_IP := best_IP m;
     column_flag := column_flag m; x_rel := x_rel m; x_IP := x_IP m;
     total_column := total_column m; columns_added := columns_added m;
     rounded := rounded m; best_lb := best_lb m; lb := lb m;
     column_found := column_found m; beta := beta m; M := M m;
     pattern := pattern m; P := P m; set_cover := set_cover m; x := x m;
     cons := cons m; cont := cont m; sol_rel := sol_rel m;
     last_rel := last_rel m |}.

Definition set_best_IP (v : enum) (m : MP) : MP :=
  {| ins := ins m; alpha := alpha m; Z_IP := Z_IP m; best_IP := v;
     column_flag := column_flag m; x_rel := x_rel m; x_IP := x_IP m;
     total_column := total_column m; columns_added := columns_added m;
     rounded := rounded m; best_lb := best_lb m; lb := lb m;
     column_found := column_found m; beta := beta m; M := M m;
     pattern := pattern m; P := P m; set_cover := set_cover m; x := x m;
     cons := cons m; cont := cont m; sol_rel := sol_rel m;
     last_rel := last_rel m |}.

Definition set_column_flag (v : bool) (m : MP) : MP :=
  {| ins := ins m; alpha := alpha m; Z_IP := Z_IP m; best_IP := best_IP m;
     column_flag := v; x_rel := x_rel m; x_IP := x_IP m;
     total_column := total_column m; columns_added := columns_added m;
     rounded := rounded m; best_lb := best_lb m; lb := lb m;
     column_found := column_found m; beta := beta m; M := M m;
     pattern := pattern m; P := P m; set_cover := set_cover m; x := x m;
     cons := cons m; cont := cont m; sol_rel := sol_rel m;
     last_rel := last_rel m |}.

Definition set_x_rel (v : list Q) (m : MP) : MP :=
  {| ins := ins m; alpha := alpha m; Z_IP := Z_IP m; best_IP := best_IP m;
     column_flag := column_flag m; x_rel := v; x_IP := x_IP m;
     total_column := total_column m; columns_added := columns_added m;
     rounded := rounded m; best_lb := best_lb m; lb := lb m;
     column_found := column_found m; beta := beta m; M := M m;
     pattern := pattern m; P := P m; set_cover := set_cover m; x := x m;
     cons := cons m; cont := cont m; sol_rel := sol_rel m;
     last_rel := last_rel m |}.

Definition set_x_IP (v : list Q) (m : MP) : MP :=
  {| ins := ins m; alpha := alpha m; Z_IP := Z_IP m; best_IP := best_IP m;
     column_flag := column_flag m; x_rel := x_rel m; x_IP := v;
     total_column := total_column m; columns_added := columns_added m;
     rounded := rounded m; best_lb := best_lb m; lb := lb m;
     column_found := column_found m; beta := beta m; M := M m;
     pattern := pattern m; P := P m; set_cover := set_cover m; x := x m;
     cons := cons m; cont := cont m; sol_rel := sol_rel m;
     last_rel := last_rel m |}.

Definition set_total_column (v : nat) (m : MP) : MP :=
  {| ins := ins m; alpha := alpha m; Z_IP := Z_IP m; best_IP := best_IP m;
     column_flag := column_flag m; x_rel := x_rel m; x_IP := x_IP m;
     total_column := v; columns_added := columns_added m;
     rounded := rounded m; best_lb := best_lb m; lb := lb m;
     column_found := column_found m; beta := beta m; M := M m;
     pattern := pattern m; P := P m; set_cover := set_cover m; x := x m;
     cons := cons m; cont := cont m; sol_rel := sol_rel m;
     last_rel := last_rel m |}.

Definition set_columns_added (v : nat) (m : MP) : MP :=
  {| ins := ins m; alpha := alpha m; Z_IP := Z_IP m; best_IP := best_IP m;
     column_flag := column_flag m; x_rel := x_rel m; x_IP := x_IP m;
     total_column := total_column m; columns_added := v;
     rounded := rounded m; best_lb := best_lb m; lb := lb m;
     column_found := column_found m; beta := beta m; M := M m;
     pattern := pattern m; P := P m; set_cover := set_cover m; x := x m;
     cons := cons m; cont := cont m; sol_rel := sol_rel m;
     last_rel := last_rel m |}.

Definition set_rounded (v : Z) (m : MP) : MP :=
  {| ins := ins m; alpha := alpha m; Z_IP := Z_IP m; best_IP := best_IP m;
     column_flag := column_flag m; x_rel := x_rel m; x_IP := x_IP m;
     total_column := total_column m; columns_added := columns_added m;
     rounded := v; best_lb := best_lb m; lb := lb m;
     column_found := column_found m; beta := beta m; M := M m;
     pattern := pattern m; P := P m; set_cover := set_cover m; x := x m;
     cons := cons m; cont := cont m; sol_rel := sol_rel m;
     last_rel := last_rel m |}.

Definition set_best_lb (v : enum) (m : MP) : MP :=
  {| ins := ins m; alpha := alpha m; Z_IP := Z_IP m; best_IP := best_IP m;
     column_flag := column_flag m; x_rel := x_rel m; x_IP := x_IP m;
     total_column := total_column m; columns_added := columns_added m;
     rounded := rounded m; best_lb := v; lb := lb m;
     column_found := column_found m; beta := beta m; M := M m;
     pattern := pattern m; P := P m; set_cover := set_cover m; x := x m;
     cons := cons m; cont := cont m; sol_rel := sol_rel m;
     last_rel := last_rel m |}.

Definition set_lb (v : enum) (m : MP) : MP :=
  {| ins := ins m; alpha := alpha m; Z_IP := Z_IP m; best_IP := best_IP m;
     column_flag := column_flag m; x_rel := x_rel m; x_IP := x_IP m;
     total_column := total_column m; columns_added := columns_added m;
     rounded := rounded m; best_lb := best_lb m; lb := v;
     column_found := column_found m; beta := beta m; M := M m;
     pattern := pattern m; P := P m; set_cover := set_cover m; x := x m;
     cons := cons m; cont := cont m; sol_rel := sol_rel m;
     last_rel := last_rel m |}.

Definition set_column_found (v : bool) (m : MP) : MP :=
  {| ins := ins m; alpha := alpha m; Z_IP := Z_IP m; best_IP := best_IP m;
     column_flag := column_flag m; x_rel := x_rel m; x_IP := x_IP m;
     total_column := total_column m; columns_added := columns_added m;
     rounded := rounded m; best_lb := best_lb m; lb := lb m;
     column_found := v; beta := beta m; M := M m; pattern := pattern m;
     P := P m; set_cover := set_cover m; x := x m; cons := cons m;
     cont := cont m; sol_rel := sol_rel m; last_rel := last_rel m |}.

Definition set_beta (v : Z) (m : MP) : MP :=
  {| ins := ins m; alpha := alpha m; Z_IP := Z_IP m; best_IP := best_IP m;
     column_flag := column_flag m; x_rel := x_rel m; x_IP := x_IP m;
     total_column := total_column m; columns_added := columns_added m;
     rounded := rounded m; best_lb := best_lb m; lb := lb m;
     column_found := column_found m; beta := v; M := M m;
     pattern := pattern m; P := P m; set_cover := set_cover m; x := x m;
     cons := cons m; cont := cont m; sol_rel := sol_rel m;
     last_rel := last_rel m |}.

Definition set_M (v : list Q) (m : MP) : MP :=
  {| ins := ins m; alpha := alpha m; Z_IP := Z_IP m; best_IP := best_IP m;
     column_flag := column_flag m; x_rel := x_rel m; x_IP := x_IP m;
     total_column := total_column m; columns_added := columns_added m;
     rounded := rounded m; best_lb := best_lb m; lb := lb m;
     column_found := column_found m; beta := beta m; M := v;
     pattern := pattern m; P := P m; set_cover := set_cover m; x := x m;
     cons := cons m; cont := cont m; sol_rel := sol_rel m;
     last_rel := last_rel m |}.

Definition set_pattern (v : list (list Q)) (m : MP) : MP :=
  {| ins := ins m; alpha := alpha m; Z_IP := Z_IP m; best_IP := best_IP m;
     column_flag := column_flag m; x_rel := x_rel m; x_IP := x_IP m;
     total_column := total_column m; columns_added := columns_added m;
     rounded := rounded m; best_lb := best_lb m; lb := lb m;
     column_found := column_found m; beta := beta m; M := M m; pattern := v;
     P := P m; set_cover := set_cover m; x := x m; cons := cons m;
     cont := cont m; sol_rel := sol_rel m; last_rel := last_rel m |}.

Definition set_P (v : nat) (m : MP) : MP :=
  {| ins := ins m; alpha := alpha m; Z_IP := Z_IP m; best_IP := best_IP m;
     column_flag := column_flag m; x_rel := x_rel m; x_IP := x_IP m;
     total_column := total_column m; columns_added := columns_added m;
     rounded := rounded m; best_lb := best_lb m; lb := lb m;
     column_found := column_found m; beta := beta m; M := M m;
     pattern := pattern m; P := v; set_cover := set_cover m; x := x m;
     cons := cons m; cont := cont m; sol_rel := sol_rel m;
     last_rel := last_rel m |}.

Definition set_set_cover (v : Model) (m : MP) : MP :=
  {| ins := ins m; alpha := alpha m; Z_IP := Z_IP m; best_IP := best_IP m;
     column_flag := column_flag m; x_rel := x_rel m; x_IP := x_IP m;
     total_column := total_column m; columns_added := columns_added m;
     rounded := rounded m; best_lb := best_lb m; lb := lb m;
     column_found := column_found m; beta := beta m; M := M m;
     pattern := pattern m; P := P m; set_cover := v; x := x m;
     cons := cons m; cont := cont m; sol_rel := sol_rel m;
     last_rel := last_rel m |}.

Definition set_x (v : list nat) (m : MP) : MP :=
  {| ins := ins m; alpha := alpha m; Z_IP := Z_IP m; best_IP := best_IP m;
     column_flag := column_flag m; x_rel := x_rel m; x_IP := x_IP m;
     total_column := total_column m; columns_added := columns_added m;
     rounded := rounded m; best_lb := best_lb m; lb := lb m;
     column_found := column_found m; beta := beta m; M := M m;
     pattern := pattern m; P := P m; set_cover := set_cover m; x := v;
     cons := cons m; cont := cont m; sol_rel := sol_rel m;
     last_rel := last_rel m |}.

Definition set_cons (v : list nat) (m : MP) : MP :=
  {| ins := ins m; alpha := alpha m; Z_IP := Z_IP m; best_IP := best_IP m;
     column_flag := column_flag m; x_rel := x_rel m; x_IP := x_IP m;
     total_column := total_column m; columns_added := columns_added m;
     rounded := rounded m; best_lb := best_lb m; lb := lb m;
     column_found := column_found m; beta := beta m; M := M m;
     pattern := pattern m; P := P m; set_cover := set_cover m; x := x m;
     cons := v; cont := cont m; sol_rel := sol_rel m;
     last_rel := last_rel m |}.

Definition set_cont (v : nat) (m : MP) : MP :=
  {| ins := ins m; alpha := alpha m; Z_IP := Z_IP m; best_IP := best_IP m;
     column_flag := column_flag m; x_rel := x_rel m; x_IP := x_IP m;
     total_column := total_column m; columns_added := columns_added m;
     rounded := rounded m; best_lb := best_lb m; lb := lb m;
     column_found := column_found m; beta := beta m; M := M m;
     pattern := pattern m; P := P m; set_cover := set_cover m; x := x m;
     cons := cons m; cont := v; sol_rel := sol_rel m;
     last_rel := last_rel m |}.

Definition set_sol_rel (v : Q) (m : MP) : MP :=
  {| ins := ins m; alpha := alpha m; Z_IP := Z_IP m; best_IP := best_IP m;
     column_flag := column_flag m; x_rel := x_rel m; x_IP := x_IP m;
     total_column := total_column m; columns_added := columns_added m;
     rounded := rounded m; best_lb := best_lb m; lb := lb m;
     column_found := column_found m; beta := beta m; M := M m;
     pattern := pattern m; P := P m; set_cover := set_cover m; x := x m;
     cons := cons m; cont := cont m; sol_rel := v; last_rel := last_rel m |}.

Definition set_last_rel (v : Q) (m : MP) : MP :=
  {| ins := ins m; alpha := alpha m; Z_IP := Z_IP m; best_IP := best_IP m;
     column_flag := column_flag m; x_rel := x_rel m; x_IP := x_IP m;
     total_column := total_column m; columns_added := columns_added m;
     rounded := rounded m; best_lb := best_lb m; lb := lb m;
     column_found := column_found m; beta := beta m; M := M m;
     pattern := pattern m; P := P m; set_cover := set_cover m; x := x m;
     cons := cons m; cont := cont m; sol_rel := sol_rel m; last_rel := v |}.

(** [l[i] = v]: an [IndexError] outside the list. *)
Fixpoint assign {A} (l : list A) (i : nat) (v : A) : outcome (list A) :=
  match l, i with
  | [], _ => Raised
  | _ :: t, O => Done (v :: t)
  | a :: t, Datatypes.S i' => t' <- assign t i' v ;; Done (a :: t')
  end.

(** [MP.__init__]. *)
Definition MP_init (ins0 : Instance) : MP :=
  {| ins := ins0; alpha := 0.9; Z_IP := PosInf; best_IP := PosInf;
     column_flag := false; x_rel := []; x_IP := [];
     total_column := I ins0; columns_added := 0; rounded := 0%Z;
     best_lb := NegInf; lb := NegInf; column_found := false; beta := 20%Z;
     M := []; pattern := []; P := 0; set_cover := empty_model; x := [];
     cons := []; cont := 0; sol_rel := 0; last_rel := 0 |}.

(** [np.floor(min(W / w[i], W))]; dividing by a zero width raises. *)
Definition single_fill (ins0 : Instance) (i : nat) : outcome Q :=
  wi <- index (w ins0) i ;;
  if Qeq_bool wi 0 then Raised
  else Done (inject_Z (Qfloor (Qmin (W ins0 / wi) (W ins0)))).

(** [MP.initial]: the matrix [p] is returned and [M] is stored. *)
Definition initial (m : MP) : outcome (list (list Q) * MP) :=
  let n := I (ins m) in
  p <- for_range n
         (fun i p =>
            let aux := repeat 0 n in
            v <- single_fill (ins m) i ;;
            aux' <- assign aux i v ;;
            Done (p ++ [aux']))
         [] ;;
  M' <- for_range n
          (fun i acc => v <- single_fill (ins m) i ;; Done (acc ++ [v]))
          [] ;;
  Done (p, set_M M' m).

(** [MP.build_model]. *)
Definition build_model (m : MP) : outcome MP :=
  let n := I (ins m) in
  '(p, m) <- initial m ;;
  let m := set_P (length p) (set_pattern p m) in
  '(xs, g) <- for_range n
                (fun i '(xs, g) =>
                   let '(j, g') := addVar INTEGER 0 0 [] g in
                   Done (xs ++ [j], g'))
                ([], empty_model) ;;
  obj <- for_range n
           (fun i obj => xi <- index xs i ;; Done (obj ++ [(1, xi)]))
           [] ;;
  let g := setObjective obj g in
  '(cs, g) <- for_range n
                (fun i '(cs, g) =>
                   restr <- for_range (P m)
                              (fun j restr =>
                                 row <- index (pattern m) i ;;
                                 a <- index row j ;;
                                 xj <- index xs j ;;
                                 Done (restr ++ [(a, xj)]))
                              [] ;;
                   di <- index (d (ins m)) i ;;
                   let '(h, g') := addConstr restr di (Demand_ i) g in
                   Done (cs ++ [h], g'))
                ([], g) ;;
  Done (set_cons cs (set_x xs (set_set_cover g m))).

(** A Python value that is either a proper result or the string ['End']
    ([knapsack], [update_alpha], [update_beta]). *)
Inductive or_End (A : Type) : Type :=
| Val (a : A)
| End.
Arguments Val {A} a.
Arguments End {A}.

(** The tolerance of the reduced-cost test, [10e-5] in [knapsack], and the
    tolerance of the floor of [alpha], [10e-4] in [update_alpha]. *)
Definition knapsack_tolerance : Q := 10e-5.
Definition alpha_tolerance : Q := 10e-4.

(** The decrements of [alpha] that [update_alpha] makes in a row when
    nothing improves and no column is found, counted in exact arithmetic and
    in binary64 floating point. *)
Fixpoint decrements (fuel : nat) (alpha : Q) : nat :=
  match fuel with
  | O => O
  | Datatypes.S fuel' =>
      if Qgtb alpha (0.1 + alpha_tolerance)
      then Datatypes.S (decrements fuel' (alpha - 0.1))
      else O
  end.

Fixpoint decrements_binary64 (fuel : nat) (alpha : PrimFloat.float) : nat :=
  match fuel with
  | O => O
  | Datatypes.S fuel' =>
      if PrimFloat.ltb (PrimFloat.add 0.1%float 10e-4%float) alpha
      then Datatypes.S (decrements_binary64 fuel'
                          (PrimFloat.sub alpha 0.1%float))
      else O
  end.

(** [int(np.ceil(v))]. *)
Definition ceil (v : Q) : Z := Qceiling v.

(** [np.ceil(v)] as a float. *)
Definition np_ceil (v : Q) : Q := inject_Z (Qceiling v).

Section WithSolver.

(** The optimiser's answer for the master problem: the value of each
    variable and the dual price of each constraint, given the committed
    variables and constraints. *)
Variable solve_X : list Var -> list Constr -> nat -> Q.
Variable solve_Pi : list Var -> list Constr -> nat -> Q.

(** Its answer for the knapsack subproblem with prices [pi], sizes [w] and
    capacity [W]: the value of each [y_i]. *)
Variable solve_Y : list Q -> list Q -> Q -> nat -> Q.

(** [Model.optimize()]: pending changes are committed, then the solution
    attributes are filled in. *)
Definition optimize (g : Model) : Model :=
  let g' := update g in
  set_solution
    (map (solve_X (vars g') (constrs g')) (seq 0 (length (vars g'))))
    (map (fun c => (c_id c, solve_Pi (vars g') (constrs g') (c_id c)))
         (constrs g'))
    g'.

(** [MP.knapsack(pi)]. *)
Definition knapsack (m : MP) (pi : list Q) : outcome (or_End (list Q)) :=
  let n := I (ins m) in
  obj <- for_range n (fun i obj => p <- index pi i ;; Done (obj ++ [p])) [] ;;
  rest <- for_range n
            (fun i r => wi <- index (w (ins m)) i ;; Done (r ++ [wi])) [] ;;
  let y := map (solve_Y obj rest (W (ins m))) (seq 0 n) in
  c <- for_range n (fun i c => yi <- index y i ;; Done (c ++ [yi])) [] ;;
  if Qgtb (dot obj y) (1 + knapsack_tolerance) then Done (Val c)
  else Done End.

(** [MP.relax_lp] and the loop of [solve_IP] that restores the integer
    domain: every variable in [x] gets the type [vt]. *)
Definition set_all_vtypes (vt : vtype) (m : MP) : outcome Model :=
  for_range (length (x m))
    (fun i g => xi <- index (x m) i ;; Done (set_vtype xi vt g))
    (set_cover m).

Definition relax_lp (m : MP) : outcome MP :=
  g <- set_all_vtypes CONTINUOUS m ;;
  Done (set_set_cover (update g) m).

(** [MP.add_column(coluna)].  [col.addTerms(coluna, self.cons)] needs as
    many coefficients as constraints and raises otherwise. *)
Definition add_column (coluna : list Q) (m : MP) : outcome MP :=
  let m := set_column_flag true m in
  let n := length coluna in
  if negb (Nat.eqb (length coluna) (length (cons m))) then Raised
  else
    let '(j, g) := addVar CONTINUOUS 0 1 (combine coluna (cons m))
                          (set_cover m) in
    let m := set_set_cover (update g) (set_x (x m ++ [j]) m) in
    pat <- for_range n
             (fun i pat =>
                row <- index pat i ;;
                ci <- index coluna i ;;
                assign pat i (row ++ [ci]))
             (pattern m) ;;
    let m := set_columns_added (Datatypes.S (columns_added m))
                               (set_pattern pat m) in
    row0 <- index (pattern m) 0 ;;
    Done (set_total_column (length row0) m).

(** The first lines of one turn of the column generation loop, shared by
    [column_generation] and [column_generation_2]: relax, optimise, record
    [lb] and raise [best_lb] to it. *)
Definition solve_relaxation (m : MP) : outcome MP :=
  m <- relax_lp m ;;
  let m := set_set_cover (optimize (set_cover m)) m in
  let m := set_lb (Fin (objective_value (set_cover m))) m in
  Done (if eltb (best_lb m) (lb m) then set_best_lb (lb m) m else m).

(** [pi]: the [.Pi] of each demand constraint in [cons]. *)
Definition dual_prices (m : MP) : outcome (list Q) :=
  for_range (length (cons m))
    (fun i pi =>
       h <- index (cons m) i ;;
       v <- Pi_of (set_cover m) h ;;
       Done (pi ++ [v]))
    [].

(** The branch [coluna == 'End']: the rounded solution.  The state of the
    loop is [(x_rel, total)]. *)
Definition round_solution (m : MP) : outcome MP :=
  let n := length (x m) in
  '(xr, total) <- for_range n
                   (fun i '(xr, total) =>
                      xi <- index (x m) i ;;
                      v <- X_of (set_cover m) xi ;;
                      if Qgtb v 0 then
                        xr' <- assign xr i v ;;
                        Done (xr', (total + ceil v)%Z)
                      else Done (xr, total))
                   (repeat 0 n, 0%Z) ;;
  Done (set_rounded total (set_x_rel xr m)).

(** [MP.column_generation]; [fuel] bounds the turns of [while True]. *)
Fixpoint column_generation (fuel : nat) (m : MP) : outcome MP :=
  match fuel with
  | O => OutOfFuel
  | Datatypes.S fuel' =>
      m <- solve_relaxation m ;;
      pi <- dual_prices m ;;
      coluna <- knapsack m pi ;;
      match coluna with
      | End =>
          m <- round_solution m ;;
          Done (set_sol_rel (objective_value (set_cover m)) m)
      | Val c =>
          m <- add_column c m ;;
          column_generation fuel' m
      end
  end.

(** [MP.column_generation_2]: both branches leave the loop, so the loop
    body runs once. *)
Definition column_generation_2 (m : MP) : outcome MP :=
  let m := set_column_found false m in
  m <- solve_relaxation m ;;
  pi <- dual_prices m ;;
  coluna <- knapsack m pi ;;
  match coluna with
  | End => round_solution m
  | Val c => add_column c (set_column_found true m)
  end.

(** [MP.solve_IP]. *)
Definition solve_IP (m : MP) : outcome MP :=
  let n := length (x m) in
  let m := set_x_IP (repeat 0 n) m in
  g <- set_all_vtypes INTEGER m ;;
  let m := set_set_cover (optimize (update g)) m in
  let m := set_Z_IP (Fin (objective_value (set_cover m))) m in
  xip <- for_range n
           (fun i xip =>
              xi <- index (x m) i ;;
              v <- X_of (set_cover m) xi ;;
              if Qgtb v 0 then assign xip i v else Done xip)
           (x_IP m) ;;
  Done (set_x_IP xip m).

(** [MP.soft_fixing] (Type 1) and [MP.soft_fixing_type3]: one constraint
    over the variables selected by [sel], with right-hand side
    [np.ceil(factor * right_side)]. *)
Definition aggregate_fixing (sel : Q -> bool) (factor : Q) (m : MP)
  : outcome MP :=
  '(fixed, right_side) <-
    for_range (length (x m))
      (fun i '(fixed, right_side) =>
         xi <- index (x m) i ;;
         v <- X_of (set_cover m) xi ;;
         if sel v then Done (fixed ++ [(1, xi)], right_side + v)
         else Done (fixed, right_side))
      ([], 0) ;;
  let '(_, g) := addConstr fixed (np_ceil (factor * right_side)) Soft_Fixing
                           (set_cover m) in
  Done (set_set_cover g m).

Definition soft_fixing (m : MP) : outcome MP :=
  aggregate_fixing (fun v => Qgtb v 0.5) (alpha m) m.

Definition soft_fixing_type3 (m : MP) : outcome MP :=
  let beta := 1 - alpha m in
  aggregate_fixing (fun v => Qltb v 0.3) beta m.

(** [MP.remove_soft_fixing]: [getConstrs()[-1]] is removed, then
    [update()]. *)
Definition remove_last (g : Model) : outcome Model :=
  match rev (constrs g) with
  | [] => Raised
  | c :: _ => Done (update (remove c g))
  end.

Definition remove_soft_fixing (m : MP) : outcome MP :=
  g <- remove_last (set_cover m) ;;
  Done (set_set_cover g m).

(** [MP.soft_fixing_type2]. *)
Definition soft_fixing_type2 (m : MP) : outcome MP :=
  g <- for_range (I (ins m))
         (fun i g =>
            fixed <- for_range (length (x m))
                       (fun j fixed =>
                          xj <- index (x m) j ;;
                          v <- X_of g xj ;;
                          if Qgtb v 0.5 then Done (fixed ++ [(1, xj)])
                          else Done fixed)
                       [] ;;
            di <- index (d (ins m)) i ;;
            Done (snd (addConstr fixed (np_ceil (alpha m * di))
                                 (Soft_Fixing_piece_ i) g)))
         (set_cover m) ;;
  Done (set_set_cover g m).

(** [MP.remove_soft_fixing_type2]. *)
Definition remove_soft_fixing_type2 (m : MP) : outcome MP :=
  g <- for_range (I (ins m)) (fun _ g => remove_last g) (set_cover m) ;;
  Done (set_set_cover g m).

(** [MP.soft_fixing_type4] and [MP.soft_fixing_type7]: one constraint per
    item over the columns whose [x_IP] value is selected by [sel]. *)
Definition per_item_fixing (sel : Q -> bool) (factor : Q) (m : MP)
  : outcome MP :=
  g <- for_range (I (ins m))
         (fun i g =>
            '(fixed, rightside) <-
              for_range (length (x_IP m))
                (fun j '(fixed, rightside) =>
                   v <- index (x_IP m) j ;;
                   if sel v then
                     row <- index (pattern m) i ;;
                     a <- index row j ;;
                     xj <- index (x m) j ;;
                     Done (fixed ++ [(a, xj)], rightside + a * v)
                   else Done (fixed, rightside))
                ([], 0) ;;
            Done (snd (addConstr fixed (np_ceil (factor * rightside))
                                 (Soft_fixing_ i) g)))
         (set_cover m) ;;
  Done (set_set_cover g m).

Definition soft_fixing_type4 (m : MP) : outcome MP :=
  per_item_fixing (fun v => Qgtb v 0.5) (alpha m) m.

Definition soft_fixing_type7 (m : MP) : outcome MP :=
  let beta := 1 - alpha m in
  per_item_fixing (fun v => Qltb v 0.2) beta m.

(** [MP.soft_fixing_type5]; the state of the loop is [(cont, model)]. *)
Definition soft_fixing_type5 (m : MP) : outcome MP :=
  let m := set_cont 0 m in
  '(k, g) <- for_range (length (x_IP m))
               (fun j '(k, g) =>
                  v <- index (x_IP m) j ;;
                  if Qgtb v 0.5 then
                    let k := Datatypes.S k in
                    xj <- index (x m) j ;;
                    Done (k, snd (addConstr [(1, xj)] (np_ceil (alpha m * v))
                                            (soft_fixing_ k) g))
                  else Done (k, g))
               (cont m, set_cover m) ;;
  Done (set_set_cover g (set_cont k m)).

(** [MP.remove_soft_fixing_type5]. *)
Definition remove_soft_fixing_type5 (m : MP) : outcome MP :=
  g <- for_range (cont m) (fun _ g => remove_last g) (set_cover m) ;;
  Done (set_set_cover g m).

(** [MP.soft_fixing_type6]. *)
Definition soft_fixing_type6 (m : MP) : outcome MP :=
  '(fixed, rightside) <-
    for_range (length (x m))
      (fun j acc =>
         xj <- index (x m) j ;;
         v <- X_of (set_cover m) xj ;;
         if Qgtb v 0.3 then
           for_range (I (ins m))
             (fun i '(fixed, rightside) =>
                row <- index (pattern m) i ;;
                a <- index row j ;;
                Done (fixed ++ [(a, xj)], rightside + a * v))
             acc
         else Done acc)
      ([], 0) ;;
  let '(_, g) := addConstr fixed (np_ceil (alpha m * rightside)) unnamed
                           (set_cover m) in
  Done (set_set_cover g m).

(** [MP.update_alpha]: the returned value and the new state. *)
Definition update_alpha (m : MP) : or_End Q * MP :=
  if eltb (Z_IP m) (best_IP m) then
    let m := set_alpha 0.9 (set_best_IP (Z_IP m) m) in
    (Val (alpha m), m)
  else if column_flag m then
    let m := set_column_flag false (set_alpha 0.9 m) in
    (Val (alpha m), m)
  else if Qgtb (alpha m) (0.1 + alpha_tolerance) then
    let m := set_alpha (alpha m - 0.1) m in
    (Val (alpha m), m)
  else (End, m).

(** [MP.update_beta]. *)
Definition update_beta (m : MP) : or_End Z * MP :=
  if eltb (Z_IP m) (best_IP m) then
    let m := set_beta 20%Z (set_best_IP (Z_IP m) m) in
    (Val (beta m), m)
  else if (2 <? beta m)%Z then
    let m := set_beta (beta m - 1)%Z m in
    (Val (beta m), m)
  else (End, m).

(** [MP.report_solution(k)]: apart from what it writes, it resets
    [columns_added]. *)
Definition report_solution (k : nat) (m : MP) : MP := set_columns_added 0 m.

(** [MP.bounds_return]. *)
Definition bounds_return (m : MP) : outcome MP :=
  m <- relax_lp m ;;
  let m := set_set_cover (optimize (set_cover m)) m in
  let m := set_last_rel (objective_value (set_cover m)) m in
  solve_IP m.

(** ** The driver [main.py] *)

(** [soft_type = argv[2]], one of the characters ['0'] to ['9']. *)
Inductive soft_type : Type :=
| sel0 | sel1 | sel2 | sel3 | sel4 | sel5 | sel6 | sel7 | sel8 | sel9.

(** [while model.column_found == True: ...] of selector ['3']. *)
Fixpoint retry_type3 (fuel : nat) (model : MP) : outcome MP :=
  if column_found model then
    match fuel with
    | O => OutOfFuel
    | Datatypes.S fuel' =>
        model <- remove_soft_fixing model ;;
        model <- soft_fixing_type3 model ;;
        model <- column_generation_2 model ;;
        retry_type3 fuel' model
    end
  else Done model.

(** The chain of [if]/[elif] at the top of the outer loop. *)
Definition dispatch (fuel : nat) (sel : soft_type) (model : MP)
  : outcome MP :=
  match sel with
  | sel0 => Done model
  | sel1 =>
      model <- soft_fixing model ;;
      model <- column_generation fuel model ;;
      remove_soft_fixing model
  | sel2 =>
      model <- soft_fixing_type2 model ;;
      model <- column_generation fuel model ;;
      remove_soft_fixing_type2 model
  | sel3 =>
      model <- soft_fixing_type3 model ;;
      model <- column_generation_2 model ;;
      model <- retry_type3 fuel model ;;
      remove_soft_fixing model
  | sel4 =>
      model <- soft_fixing_type4 model ;;
      model <- column_generation fuel model ;;
      remove_soft_fixing_type2 model
  | sel5 =>
      model <- soft_fixing_type5 model ;;
      model <- column_generation fuel model ;;
      remove_soft_fixing_type5 model
  | sel6 =>
      model <- soft_fixing_type6 model ;;
      model <- column_generation fuel model ;;
      remove_soft_fixing model
  | sel7 =>
      model <- soft_fixing_type4 model ;;
      model <- column_generation fuel model ;;
      model <- remove_soft_fixing_type2 model ;;
      model <- soft_fixing_type5 model ;;
      model <- column_generation fuel model ;;
      remove_soft_fixing_type5 model
  | sel8 =>
      model <- soft_fixing_type5 model ;;
      model <- column_generation fuel model ;;
      model <- remove_soft_fixing_type5 model ;;
      model <- soft_fixing_type4 model ;;
      model <- column_generation fuel model ;;
      remove_soft_fixing_type2 model
  | sel9 =>
      model <- soft_fixing_type7 model ;;
      model <- column_generation fuel model ;;
      remove_soft_fixing_type2 model
  end.

(** The part of the script before the outer loop.  [len(model.pattern[0])]
    is read after [build_model] and after the integer solve; what the script
    prints and writes to the report is left out. *)
Definition baseline (fuel : nat) (inst : Instance) : outcome MP :=
  let model := MP_init inst in
  model <- build_model model ;;
  _ <- index (pattern model) 0 ;;
  model <- column_generation fuel model ;;
  model <- solve_IP model ;;
  _ <- index (pattern model) 0 ;;
  Done (report_solution 0 model).

(** The outer loop [while True]; the result is the final [k] and model.
    The loop is left only through [break], when [update_alpha] has
    returned ['End']. *)
Fixpoint outer_loop (fuel : nat) (sel : soft_type) (k : nat) (model : MP)
  : outcome (nat * MP) :=
  match fuel with
  | O => OutOfFuel
  | Datatypes.S fuel' =>
      let k := Datatypes.S k in
      model <- dispatch fuel sel model ;;
      model <- solve_IP model ;;
      let '(alpha, model) := update_alpha model in
      let model := report_solution k model in
      match alpha with
      | End => _ <- index (pattern model) 0 ;; Done (k, model)
      | Val _ => outer_loop fuel' sel k model
      end
  end.

(** The whole script for a valid [soft_type]. *)
Definition main (fuel : nat) (inst : Instance) (sel : soft_type)
  : outcome (nat * MP) :=
  model <- baseline fuel inst ;;
  '(k, model) <- outer_loop fuel sel 0 model ;;
  model <- bounds_return model ;;
  Done (k, model).

(** The seven soft-fixing types, with the [apply] method of each and the
    [remove] method the driver pairs it with. *)
Inductive sf_type : Type :=
| Type1 | Type2 | Type3 | Type4 | Type5 | Type6 | Type7.

Definition apply_type (K : sf_type) : MP -> outcome MP :=
  match K with
  | Type1 => soft_fixing
  | Type2 => soft_fixing_type2
  | Type3 => soft_fixing_type3
  | Type4 => soft_fixing_type4
  | Type5 => soft_fixing_type5
  | Type6 => soft_fixing_type6
  | Type7 => soft_fixing_type7
  end.

Definition remove_type (K : sf_type) : MP -> outcome MP :=
  match K with
  | Type1 | Type3 | Type6 => remove_soft_fixing
  | Type2 | Type4 | Type7 => remove_soft_fixing_type2
  | Type5 => remove_soft_fixing_type5
  end.

(** How many constraints the [remove] method of a type pops: one, one per
    item, or the counter [cont]. *)
Definition removal_count (K : sf_type) (m : MP) : nat :=
  match K with
  | Type1 | Type3 | Type6 => 1%nat
  | Type2 | Type4 | Type7 => I (ins m)
  | Type5 => cont m
  end.

(** The column generation run between [apply] and [remove]: the exhaustive
    loop, or the single step used with Type 3. *)
Inductive cg_mode : Type :=
| exhaustive (fuel : nat)
| single_step.

Definition run_cg (mode : cg_mode) (m : MP) : outcome MP :=
  match mode with
  | exhaustive fuel => column_generation fuel m
  | single_step => column_generation_2 m
  end.

(** ** Calls on the master problem

    Every method the driver can call on a built model, so that a run is a
    sequence of calls. *)
Inductive method : Type :=
| call_relax_lp
| call_add_column (coluna : list Q)
| call_column_generation (fuel : nat)
| call_column_generation_2
| call_solve_IP
| call_soft_fixing
| call_soft_fixing_type2
| call_soft_fixing_type3
| call_soft_fixing_type4
| call_soft_fixing_type5
| call_soft_fixing_type6
| call_soft_fixing_type7
| call_remove_soft_fixing
| call_remove_soft_fixing_type2
| call_remove_soft_fixing_type5
| call_update_alpha
| call_update_beta
| call_report_solution (k : nat)
| call_bounds_return.

Definition call (me : method) (m : MP) : outcome MP :=
  match me with
  | call_relax_lp => relax_lp m
  | call_add_column c => add_column c m
  | call_column_generation fuel => column_generation fuel m
  | call_column_generation_2 => column_generation_2 m
  | call_solve_IP => solve_IP m
  | call_soft_fixing => soft_fixing m
  | call_soft_fixing_type2 => soft_fixing_type2 m
  | call_soft_fixing_type3 => soft_fixing_type3 m
  | call_soft_fixing_type4 => soft_fixing_type4 m
  | call_soft_fixing_type5 => soft_fixing_type5 m
  | call_soft_fixing_type6 => soft_fixing_type6 m
  | call_soft_fixing_type7 => soft_fixing_type7 m
  | call_remove_soft_fixing => remove_soft_fixing m
  | call_remove_soft_fixing_type2 => remove_soft_fixing_type2 m
  | call_remove_soft_fixing_type5 => remove_soft_fixing_type5 m
  | call_update_alpha => Done (snd (update_alpha m))
  | call_update_beta => Done (snd (update_beta m))
  | call_report_solution k => Done (report_solution k m)
  | call_bounds_return => bounds_return m
  end.


(** The states of a run: the model that [build_model] makes from a fresh
    object, and every state a call leads to. *)
Inductive reachable : MP -> Prop :=
| reach_build (inst : Instance) (m : MP) :
    build_model (MP_init inst) = Done m -> reachable m
| reach_call (me : method) (m m' : MP) :
    reachable m -> call me m = Done m' -> reachable m'.

(** ** Invariants of the model and of the master problem object *)

Definition ids (cs : list Constr) : list nat := map c_id cs.

(** Constraint handles are distinct and older than [next_id]. *)
Definition handles_ok (g : Model) : Prop :=
  NoDup (ids (constrs g ++ pending g)) /\
  Forall (fun h => (h < next_id g)%nat) (ids (constrs g ++ pending g)).

(** Every variable has objective coefficient 1. *)
Definition unit_costs (g : Model) : Prop :=
  Forall (fun v => v_obj v == 1) (vars g).

(** [g'] differs from [g] at most in the types of its variables. *)
Definition retyped (g g' : Model) : Prop :=
  map v_obj (vars g') = map v_obj (vars g) /\
  constrs g' = constrs g /\ pending g' = pending g /\
  removing g' = removing g /\ next_id g' = next_id g /\
  removed g' = removed g /\ sol_X g' = sol_X g /\ sol_Pi g' = sol_Pi g.

(** [g'] is [g] with the constraints [added] pending after those of [g]. *)
Definition appended (g g' : Model) (added : list Constr) : Prop :=
  vars g' = vars g /\ constrs g' = constrs g /\
  pending g' = pending g ++ added /\
  removing g' = removing g /\ removed g' = removed g /\
  sol_X g' = sol_X g /\ sol_Pi g' = sol_Pi g /\
  ids added = seq (next_id g) (length added) /\
  next_id g' = (next_id g + length added)%nat.

Definition model_ok (g : Model) : Prop :=
  handles_ok g /\ removing g = [].

(** What holds of the master problem object in every state of a run. *)
Record consistent (m : MP) : Prop := mkConsistent {
  inv_P : P m = I (ins m);
  inv_cons : length (cons m) = I (ins m);
  inv_rows : length (pattern m) = I (ins m);
  inv_cols : Forall (fun row => length row = total_column m) (pattern m);
  inv_total : total_column m = length (x m);
  inv_enough : (I (ins m) <= total_column m)%nat;
  inv_x : x m = seq 0 (length (vars (set_cover m)));
  inv_obj : unit_costs (set_cover m);
  inv_handles : handles_ok (set_cover m);
  inv_removing : removing (set_cover m) = []
}.

(** [g'] has committed everything that was committed or pending in [g],
    under the same handles. *)
Definition committed_from (g g' : Model) : Prop :=
  ids (constrs g') = ids (constrs g ++ pending g) /\
  pending g' = [] /\ removing g' = [] /\
  next_id g' = next_id g /\ removed g' = removed g.

(** The attributes that describe the columns are the same in [m] and [m']. *)
Definition same_data (m m' : MP) : Prop :=
  ins m' = ins m /\ P m' = P m /\ cons m' = cons m /\
  pattern m' = pattern m /\ total_column m' = total_column m /\
  x m' = x m.

Definition same_bounds (m m' : MP) : Prop :=
  best_lb m' = best_lb m /\ best_IP m' = best_IP m.

(** [row ++ [c]] for each row of the matrix and entry of the column. *)
Definition extend_rows (pat : list (list Q)) (coluna : list Q)
  : list (list Q) :=
  map (fun rc => fst rc ++ [snd rc]) (combine pat coluna).

(** The entries of a solution vector that are not positive are stored as 0
    in [x_rel] and [x_IP]. *)
Definition positive_part (v : Q) : Q := if Qgtb v 0 then v else 0.

(** [sum(ceil(v) for v in xs if v > 0)]. *)
Definition rounded_total (xs : list Q) : Z :=
  fold_left Z.add (map (fun v => if Qgtb v 0 then ceil v else 0%Z) xs) 0%Z.

(** The number [single_fill] computes for item [i] when its width is not
    zero. *)
Definition fill (inst : Instance) (i : nat) : Q :=
  inject_Z (Qfloor (Qmin (W inst / nth i (w inst) 0) (W inst))).



(** Every variable given the type [vt], and the model after the integer
    solve of [solve_IP]. *)
Definition retype_all (vt : vtype) (vs : list Var) : list Var :=
  map (fun v => mkVar vt (v_lb v) (v_obj v)) vs.

Definition integer_model (g : Model) : Model :=
  optimize (update (set_vars (retype_all INTEGER (vars g)) g)).

(** The state [solve_IP] returns in a consistent state. *)
Definition ip_state (m : MP) : MP :=
  let g := integer_model (set_cover m) in
  set_x_IP (map positive_part (sol_X g))
           (set_Z_IP (Fin (objective_value g)) (set_set_cover g m)).

(** A state with the schedule attributes replaced, as the end of an outer
    iteration leaves them. *)
Definition with_schedule (a : Q) (b : enum) (f : bool) (m : MP) : MP :=
  set_alpha a (set_best_IP b (set_column_flag f (set_columns_added 0 m))).

(** ** Two small instances with an exact solver

    [two_item_instance]: capacity 10, items of width 6 and 4, demand 10 each.
    The restricted master problem first has the two single-item patterns
    (optimum [x = (10, 5)], duals [(1, 1/2)]); pricing finds the pattern
    [(1, 1)], after which the optimum is [x = (0, 0, 10)] with duals
    [(1/2, 1/2)], also with the soft-fixing constraints at [alpha = 0.9].
    [one_item_instance] is Scenario A of the specification: capacity 10, one
    item of width 4 and demand 10. *)
Definition two_item_instance : Instance :=
  {| W := 10; w := [6; 4]; d := [10; 10] |}.

Definition two_item_X (vs : list Var) (cs : list Constr) (j : nat) : Q :=
  match length vs with
  | 2%nat => nth j [10; 5] 0
  | _ => nth j [0; 0; 10] 0
  end.

Definition two_item_Pi (vs : list Var) (cs : list Constr) (h : nat) : Q :=
  match length vs with
  | 2%nat => nth h [1; 0.5] 0
  | _ => nth h [0.5; 0.5] 0
  end.

Definition two_item_Y (prices sizes : list Q) (cap : Q) (i : nat) : Q :=
  nth i [1; 1] 0.

Definition one_item_instance : Instance :=
  {| W := 10; w := [4]; d := [10] |}.

Definition one_item_X (vs : list Var) (cs : list Constr) (j : nat) : Q :=
  nth j [5] 0.

Definition one_item_Pi (vs : list Var) (cs : list Constr) (h : nat) : Q :=
  nth h [0.5] 0.

Definition one_item_Y (prices sizes : list Q) (cap : Q) (i : nat) : Q :=
  nth i [2] 0.

(** The state a call returned, for use in closed statements. *)
Definition returned (o : outcome MP) : MP :=
  match o with
  | Done m => m
  | _ => MP_init {| W := 0; w := []; d := [] |}
  end.

(** Optimality certificates.  A solution [xs] of the relaxation with dual
    prices [pis] is optimal when it is feasible, the prices are feasible for
    the dual, and both objectives agree. *)
Definition eval_expr (e : LinExpr) (xs : list Q) : Q :=
  fold_left Qplus (map (fun t => fst t * nth (snd t) xs 0) e) 0.

Definition primal_feasible (g : Model) : bool :=
  forallb (fun c => Qle_bool (c_rhs c) (eval_expr (c_lhs c) (sol_X g)))
          (constrs g)
  && forallb (fun vx => Qle_bool (v_lb (fst vx)) (snd vx))
             (combine (vars g) (sol_X g)).

Definition dual_price (g : Model) (c : Constr) : Q :=
  match find (fun p => Nat.eqb (fst p) (c_id c)) (sol_Pi g) with
  | Some p => snd p
  | None => 0
  end.

Definition dual_feasible (g : Model) : bool :=
  forallb (fun c => Qle_bool 0 (dual_price g c)) (constrs g)
  && forallb
       (fun jv =>
          Qle_bool
            (fold_left Qplus
               (map (fun c => dual_price g c * coef_of (c_lhs c) (fst jv))
                    (constrs g)) 0)
            (v_obj (snd jv)))
       (combine (seq 0 (length (vars g))) (vars g)).

Definition lp_certificate (g : Model) : bool :=
  primal_feasible g && dual_feasible g
  && Qeq_bool (objective_value g)
              (fold_left Qplus
                 (map (fun c => dual_price g c * c_rhs c) (constrs g)) 0).

(** An integral solution with the objective of the relaxation's optimum is
    an optimum of the integer problem. *)
Definition integral (xs : list Q) : bool :=
  forallb (fun v => Qeq_bool v (inject_Z (Qfloor v))) xs.

(** All integer vectors [y] with [0 <= y_i <= bound]. *)
Fixpoint box (n bound : nat) : list (list Q) :=
  match n with
  | O => [[]]
  | Datatypes.S n' =>
      flat_map (fun y => map (fun k => inject_Z (Z.of_nat k) :: y)
                             (seq 0 (Datatypes.S bound)))
               (box n' bound)
  end.

(** [y] is feasible for the knapsack and no integer vector of the box packs
    more value. *)
Definition knapsack_certificate (inst : Instance) (prices y : list Q) : bool :=
  Qle_bool (dot (w inst) y) (W inst) && integral y
  && forallb (fun y' => negb (Qle_bool (dot (w inst) y') (W inst))
                        || Qle_bool (dot prices y') (dot prices y))
             (box (I inst) 10).

(** ** Predicates used to state what the methods do *)

(** Every entry is at least 0. *)
Definition nonnegative (xs : list Q) : bool := forallb (Qle_bool 0) xs.

(** A number of pieces or of rolls: a natural number held in a float. *)
Definition is_count (q : Q) : Prop :=
  exists z, q == inject_Z z /\ (0 <= z)%Z.

(** The values [alpha] takes: 0.9 after [k] decrements by 0.1, for [k] up
    to 8. *)
Definition alpha_level (a : Q) : Prop :=
  exists k, (k <= 8)%nat /\ a == 0.9 - inject_Z (Z.of_nat k) * 0.1.

(** The attributes of the two schedules are the same in [m] and [m']. *)
Definition same_schedule (m m' : MP) : Prop :=
  alpha m' = alpha m /\ beta m' = beta m.

(** [sum(l)] for a list of floats. *)
Definition sum_list (l : list Q) : Q := fold_left Qplus l 0.

(** The handles in [xs] whose value in the solution [sol] is selected by
    [sel], and the expression with coefficient 1 on each handle of [js]. *)
Definition selected (sel : Q -> bool) (xs : list nat) (sol : list Q)
  : list nat :=
  filter (fun j => sel (nth j sol 0)) xs.

Definition unit_terms (js : list nat) : LinExpr := map (fun j => (1, j)) js.

(** The columns whose entry in [x_IP] is selected by [sel]; for item [i],
    the terms [pattern[i][j] * x[j]] over those columns and the sum of
    [pattern[i][j] * x_IP[j]] over them. *)
Definition selected_columns (sel : Q -> bool) (m : MP) : list nat :=
  filter (fun j => sel (nth j (x_IP m) 0)) (seq 0 (length (x_IP m))).

Definition item_terms (sel : Q -> bool) (m : MP) (i : nat) : LinExpr :=
  map (fun j => (nth j (nth i (pattern m) []) 0, nth j (x m) 0%nat))
      (selected_columns sel m).

Definition item_rhs (sel : Q -> bool) (m : MP) (i : nat) : Q :=
  sum_list (map (fun j => nth j (nth i (pattern m) []) 0 * nth j (x_IP m) 0)
                (selected_columns sel m)).

(** The positions in [x] of the variables whose current value is selected by
    [sel], as the loop of [soft_fixing_type6] visits them. *)
Definition selected_positions (sel : Q -> bool) (m : MP) : list nat :=
  filter (fun j => sel (nth (nth j (x m) 0%nat) (sol_X (set_cover m)) 0))
         (seq 0 (length (x m))).

(** For such a position [j], one term per item: [pattern[i][j] * x[j]]. *)
Definition column_terms (m : MP) (j : nat) : LinExpr :=
  map (fun i => (nth j (nth i (pattern m) []) 0, nth j (x m) 0%nat))
      (seq 0 (I (ins m))).

(** The model after the relaxation has been solved, and the state
    [solve_relaxation] returns in a consistent state. *)
Definition relaxed_model (g : Model) : Model :=
  optimize (update (set_vars (retype_all CONTINUOUS (vars g)) g)).

Definition lp_state (m : MP) : MP :=
  let g := relaxed_model (set_cover m) in
  let m1 := set_lb (Fin (objective_value g)) (set_set_cover g m) in
  if eltb (best_lb m) (Fin (objective_value g))
  then set_best_lb (Fin (objective_value g)) m1
  else m1.

(** The demand constraints are still in the model: every handle in [cons]
    names a committed or pending constraint. *)
Definition demands_present (m : MP) : Prop :=
  incl (cons m) (ids (constrs (set_cover m) ++ pending (set_cover m))).






(** The matrix [initial] returns, and the demand constraint [build_model]
    creates for item [i]. *)
Definition initial_rows (inst : Instance) : list (list Q) :=
  map (fun i => repeat 0 i ++ fill inst i :: repeat 0 (I inst - i - 1))
      (seq 0 (I inst)).

Definition demand_row (inst : Instance) (i : nat) : Constr :=
  mkConstr i
    (map (fun j => (nth j (nth i (initial_rows inst) []) 0, j))
         (seq 0 (I inst)))
    (nth i (d inst) 0) (Demand_ i).

(** What [MP.report_solution(k)] writes to the report file before it resets
    [columns_added]: the iteration, [sum(x_rel)], [best_lb], [rounded],
    [sum(x_IP)], [columns_added] and [total_column]; and what
    [MP.print_solution] prints: [sum(x_rel)] and [best_IP]. *)
Record report : Type := mkReport {
  r_iteration : nat;
  r_relaxation : Q;
  r_best_lb : enum;
  r_rounding : Z;
  r_integer : Q;
  r_added : nat;
  r_total : nat
}.

Definition report_lines (k : nat) (m : MP) : report :=
  {| r_iteration := k;
     r_relaxation := sum_list (x_rel m);
     r_best_lb := best_lb m;
     r_rounding := rounded m;
     r_integer := sum_list (x_IP m);
     r_added := columns_added m;
     r_total := total_column m |}.

Definition print_solution (m : MP) : Q * enum :=
  (sum_list (x_rel m), best_IP m).

(** The demand constraint of item [i] as [pattern], [x] and the demands
    describe it: [sum_j pattern[i][j] * x[j] >= d[i]], one term per column
    in column order, under the handle [i] and the name [Demand_i]. *)
Definition demand_constr (m : MP) (i : nat) : Constr :=
  mkConstr i (combine (nth i (pattern m) []) (x m))
           (nth i (d (ins m)) 0) (Demand_ i).

(** All constraints of the model, committed and pending. *)
Definition all_constrs (g : Model) : list Constr := constrs g ++ pending g.

(** The model mirrors [pattern]: the handles in [cons] are [0 .. I-1],
    every constraint of the model under one of them is the demand constraint
    of its item, and later constraints get later handles. *)
Definition mirrors (m : MP) : Prop :=
  cons m = seq 0 (I (ins m)) /\
  (I (ins m) <= next_id (set_cover m))%nat /\
  forall c, In c (all_constrs (set_cover m)) -> (c_id c < I (ins m))%nat ->
            c = demand_constr m (c_id c).

(** [g'] holds no constraint that [g] did not hold, apart from constraints
    created since. *)
Definition kept (g g' : Model) : Prop :=
  (next_id g <= next_id g')%nat /\
  forall c, In c (all_constrs g') ->
            In c (all_constrs g) \/ (next_id g <= c_id c)%nat.

(** [add_column] seen from a constraint: the new variable [j] enters the
    demand constraint of item [i] with coefficient [coluna[i]] and enters no
    other constraint. *)
Definition with_column (n : nat) (coluna : list Q) (j : nat) (c : Constr)
  : Constr :=
  mkConstr (c_id c)
           (c_lhs c ++ (if (c_id c <? n)%nat
                        then [(nth (c_id c) coluna 0, j)] else []))
           (c_rhs c) (c_name c).

(** * Properties *)

(** ** Comparisons *)

Lemma Qltb_lt (a b : Q) : Qltb a b = true <-> a < b.
Proof.
  unfold Qltb. rewrite negb_true_iff. split; intro H.
  - apply Qnot_le_lt. intro L. apply Qle_bool_iff in L. congruence.
  - destruct (Qle_bool b a) eqn:E; [|reflexivity].
    apply Qle_bool_iff in E. exfalso. exact (Qlt_not_le _ _ H E).
Qed.

Lemma Qltb_ge (a b : Q) : Qltb a b = false <-> b <= a.
Proof.
  unfold Qltb. rewrite negb_false_iff. apply Qle_bool_iff.
Qed.

Lemma Qgtb_gt (a b : Q) : Qgtb a b = true <-> b < a.
Proof. apply Qltb_lt. Qed.

Lemma Qgtb_le (a b : Q) : Qgtb a b = false <-> a <= b.
Proof. apply Qltb_ge. Qed.

Lemma Qltb_irrefl (a : Q) : Qltb a a = false.
Proof. apply Qltb_ge. apply Qle_refl. Qed.

Lemma ele_refl (a : enum) : ele a a.
Proof. destruct a; simpl; auto using Qle_refl. Qed.

Lemma ele_trans (a b c : enum) : ele a b -> ele b c -> ele a c.
Proof.
  destruct a, b, c; simpl; try tauto. apply Qle_trans.
Qed.

Lemma eltb_ele (a b : enum) : eltb a b = true -> ele a b.
Proof.
  destruct a, b; simpl; try discriminate; auto.
  intro H. apply Qlt_le_weak. now apply Qltb_lt.
Qed.

Lemma ele_emax_l (a b : enum) : ele a (emax a b).
Proof.
  unfold emax. destruct (eltb a b) eqn:E; [now apply eltb_ele | apply ele_refl].
Qed.


(** ** Loops *)

Lemma bind_Done {A B} (c : outcome A) (k : A -> outcome B) (b : B) :
  bind c k = Done b -> exists a, c = Done a /\ k a = Done b.
Proof.
  destruct c; simpl; try discriminate. eauto.
Qed.

Lemma index_Done {A} (l : list A) (i : nat) (a : A) :
  index l i = Done a <-> nth_error l i = Some a.
Proof.
  unfold index. destruct (nth_error l i); split; congruence.
Qed.

Lemma index_lt {A} (l : list A) (i : nat) (dflt : A) :
  (i < length l)%nat -> index l i = Done (nth i l dflt).
Proof.
  intro H. apply index_Done. now apply nth_error_nth'.
Qed.

(** An invariant indexed by the loop counter is carried through a [for]
    loop that returns. *)
Lemma for_from_inv {S} (Inv : nat -> S -> Prop) (body : nat -> S -> outcome S)
  (n start : nat) (s s' : S) :
  Inv start s ->
  (forall i t t', (start <= i < start + n)%nat -> Inv i t ->
                  body i t = Done t' -> Inv (Datatypes.S i) t') ->
  for_from start n body s = Done s' ->
  Inv (start + n)%nat s'.
Proof.
  revert start s. induction n as [|n IH]; intros start s H0 Hstep Hrun.
  - simpl in Hrun. injection Hrun as <-. now rewrite Nat.add_0_r.
  - simpl in Hrun. apply bind_Done in Hrun as (t & Hb & Hrest).
    replace (start + Datatypes.S n)%nat with (Datatypes.S start + n)%nat by lia.
    apply (IH (Datatypes.S start) t).
    + apply (Hstep start s t); [lia | assumption | assumption].
    + intros i u u' Hi. apply Hstep. lia.
    + assumption.
Qed.

(** The same for a loop whose body cannot raise while the invariant holds:
    the loop returns. *)
Lemma for_from_ok {S} (Inv : nat -> S -> Prop) (body : nat -> S -> outcome S)
  (n start : nat) (s : S) :
  Inv start s ->
  (forall i t, (start <= i < start + n)%nat -> Inv i t ->
               exists t', body i t = Done t' /\ Inv (Datatypes.S i) t') ->
  exists s', for_from start n body s = Done s' /\ Inv (start + n)%nat s'.
Proof.
  revert start s. induction n as [|n IH]; intros start s H0 Hstep.
  - exists s. simpl. now rewrite Nat.add_0_r.
  - destruct (Hstep start s) as (t & Hb & Ht); [lia | assumption |].
    destruct (IH (Datatypes.S start) t) as (s' & Hrun & Hs'); [assumption | |].
    + intros i u Hi. apply Hstep. lia.
    + exists s'. simpl. rewrite Hb. simpl. split; [assumption |].
      now replace (start + Datatypes.S n)%nat with (Datatypes.S start + n)%nat by lia.
Qed.

(** A loop that appends one computed element per turn builds a [map]. *)
Lemma for_from_collect {A} (f : nat -> outcome A) (h : nat -> A)
  (n start : nat) (acc : list A) :
  (forall i, (start <= i < start + n)%nat -> f i = Done (h i)) ->
  for_from start n (fun i a => v <- f i ;; Done (a ++ [v])) acc
  = Done (acc ++ map h (seq start n)).
Proof.
  revert start acc. induction n as [|n IH]; intros start acc Hf.
  - simpl. now rewrite app_nil_r.
  - simpl. rewrite (Hf start) by lia. simpl.
    rewrite IH by (intros i Hi; apply Hf; lia).
    now rewrite <- app_assoc.
Qed.

Lemma map_nth_seq_id {A} (l : list A) (dflt : A) :
  map (fun i => nth i l dflt) (seq 0 (length l)) = l.
Proof.
  induction l as [|a l IH]; [reflexivity|].
  simpl. f_equal. rewrite <- seq_shift, map_map. exact IH.
Qed.

Lemma collect_list {A} (l : list A) :
  for_range (length l) (fun i a => v <- index l i ;; Done (a ++ [v])) [] = Done l.
Proof.
  destruct l as [|a0 l0] eqn:El; [reflexivity|]. rewrite <- El.
  unfold for_range.
  rewrite (for_from_collect (index l) (fun i => nth i l a0)).
  - simpl. now rewrite map_nth_seq_id.
  - intros i Hi. apply index_lt. lia.
Qed.

(** ** The pricing subproblem *)

Lemma knapsack_unfold (m : MP) (pi : list Q) :
  length pi = I (ins m) ->
  knapsack m pi =
  let y := map (solve_Y pi (w (ins m)) (W (ins m))) (seq 0 (I (ins m))) in
  if Qgtb (dot pi y) (1 + knapsack_tolerance) then Done (Val y) else Done End.
Proof.
  intro Hlen. unfold knapsack.
  rewrite <- Hlen at 1. rewrite collect_list. simpl.
  unfold I at 1. rewrite collect_list. simpl.
  set (y := map _ _).
  replace (I (ins m)) with (length y)
    by (unfold y; now rewrite length_map, length_seq).
  rewrite collect_list. reflexivity.
Qed.

(** C4: the pricing knapsack returns the vector of item counts found by the
    subproblem exactly when its objective under the dual prices exceeds
    [1 + 1e-4], and the string ['End'] otherwise; both are normal returns,
    not exceptions. *)
Theorem C4_knapsack_threshold (m : MP) (pi : list Q) :
  length pi = I (ins m) ->
  let y := map (solve_Y pi (w (ins m)) (W (ins m))) (seq 0 (I (ins m))) in
  (1 + 1e-4 < dot pi y -> knapsack m pi = Done (Val y)) /\
  (~ 1 + 1e-4 < dot pi y -> knapsack m pi = Done End).
Proof.
  intros Hlen y. rewrite (knapsack_unfold m pi Hlen). fold y. cbv zeta.
  assert (Htol : 1 + knapsack_tolerance == 1 + 1e-4) by reflexivity.
  split; intro H.
  - assert (E : Qgtb (dot pi y) (1 + knapsack_tolerance) = true).
    { apply Qgtb_gt. now rewrite Htol. }
    now rewrite E.
  - destruct (Qgtb (dot pi y) (1 + knapsack_tolerance)) eqn:E; [|reflexivity].
    apply Qgtb_gt in E. rewrite Htol in E. contradiction.
Qed.

(** ** The schedule of [alpha] *)

Ltac step_done H :=
  match type of H with
  | bind _ _ = Done _ => apply bind_Done in H as (? & ? & H)
  | (let '(_, _) := ?p in _) = Done _ => destruct p eqn:?
  | (match ?p with _ => _ end) = Done _ => destruct p eqn:?; try discriminate H
  | (if ?c then _ else _) = Done _ => destruct c eqn:?; try discriminate H
  | Done _ = Done _ => injection H as H
  end.

Lemma update_alpha_cases (m : MP) :
  (eltb (Z_IP m) (best_IP m) = true ->
   update_alpha m = (Val 0.9, set_alpha 0.9 (set_best_IP (Z_IP m) m))) /\
  (eltb (Z_IP m) (best_IP m) = false -> column_flag m = true ->
   update_alpha m = (Val 0.9, set_column_flag false (set_alpha 0.9 m))) /\
  (eltb (Z_IP m) (best_IP m) = false -> column_flag m = false ->
   0.1 + alpha_tolerance < alpha m ->
   update_alpha m = (Val (alpha m - 0.1), set_alpha (alpha m - 0.1) m)) /\
  (eltb (Z_IP m) (best_IP m) = false -> column_flag m = false ->
   ~ 0.1 + alpha_tolerance < alpha m ->
   update_alpha m = (End, m)).
Proof.
  unfold update_alpha. repeat split.
  - intros ->. reflexivity.
  - intros -> ->. reflexivity.
  - intros -> -> H. apply Qgtb_gt in H. rewrite H. reflexivity.
  - intros -> -> H.
    destruct (Qgtb (alpha m) (0.1 + alpha_tolerance)) eqn:E; [|reflexivity].
    apply Qgtb_gt in E. contradiction.
Qed.

Lemma outer_loop_step (fuel : nat) (sel : soft_type) (k : nat) (model m1 m2 : MP) :
  dispatch (Datatypes.S fuel) sel model = Done m1 ->
  solve_IP m1 = Done m2 ->
  outer_loop (Datatypes.S fuel) sel k model =
  match fst (update_alpha m2) with
  | End =>
      _ <- index (pattern (snd (update_alpha m2))) 0 ;;
      Done (Datatypes.S k, report_solution (Datatypes.S k) (snd (update_alpha m2)))
  | Val _ =>
      outer_loop fuel sel (Datatypes.S k)
                 (report_solution (Datatypes.S k) (snd (update_alpha m2)))
  end.
Proof.
  intros Hd Hs. cbn [outer_loop]. rewrite Hd. cbn [bind]. rewrite Hs. cbn [bind].
  destruct (update_alpha m2) as [[a|] m3]; reflexivity.
Qed.

Lemma outer_loop_ends (fuel : nat) (sel : soft_type) (k k' : nat) (model model' : MP) :
  outer_loop fuel sel k model = Done (k', model') ->
  exists m2, fst (update_alpha m2) = End /\
             model' = report_solution k' (snd (update_alpha m2)).
Proof.
  revert k model. induction fuel as [|fuel IH]; intros k model H;
    [discriminate|].
  cbn [outer_loop] in H.
  apply bind_Done in H as (m1 & Hd & H).
  apply bind_Done in H as (m2 & Hs & H).
  destruct (update_alpha m2) as [[a|] m3] eqn:Eu.
  - now apply IH in H.
  - apply bind_Done in H as (r & _ & H). injection H as <- <-.
    exists m2. now rewrite Eu.
Qed.

(** In exact arithmetic and in binary64 alike, [alpha] goes from 0.9 to its
    floor in eight decrements. *)
Lemma eight_decrements :
  decrements 20 0.9 = 8%nat /\ decrements_binary64 20 0.9%float = 8%nat.
Proof. split; vm_compute; reflexivity. Qed.

(** C2: [update_alpha] decides in this order: an improved integer objective
    is recorded as [best_IP] and [alpha] is reset to 0.9; otherwise a set
    [column_flag] resets [alpha] to 0.9 and is cleared; otherwise [alpha] is
    decremented by 0.1 while it exceeds 0.1 plus the tolerance; otherwise
    ['End'] is returned.  The outer loop of the driver continues after every
    other answer and is left only after ['End']. *)
Theorem C2_update_alpha_decision_order (m : MP) :
  (eltb (Z_IP m) (best_IP m) = true ->
   update_alpha m = (Val 0.9, set_alpha 0.9 (set_best_IP (Z_IP m) m))) /\
  (eltb (Z_IP m) (best_IP m) = false -> column_flag m = true ->
   update_alpha m = (Val 0.9, set_column_flag false (set_alpha 0.9 m))) /\
  (eltb (Z_IP m) (best_IP m) = false -> column_flag m = false ->
   0.1 + alpha_tolerance < alpha m ->
   update_alpha m = (Val (alpha m - 0.1), set_alpha (alpha m - 0.1) m)) /\
  (eltb (Z_IP m) (best_IP m) = false -> column_flag m = false ->
   ~ 0.1 + alpha_tolerance < alpha m ->
   update_alpha m = (End, m)) /\
  (forall fuel sel k model m1 a,
     dispatch (Datatypes.S fuel) sel model = Done m1 ->
     solve_IP m1 = Done m ->
     fst (update_alpha m) = Val a ->
     outer_loop (Datatypes.S fuel) sel k model =
     outer_loop fuel sel (Datatypes.S k)
                (report_solution (Datatypes.S k) (snd (update_alpha m)))) /\
  (forall fuel sel k model m1,
     dispatch (Datatypes.S fuel) sel model = Done m1 ->
     solve_IP m1 = Done m ->
     fst (update_alpha m) = End ->
     outer_loop (Datatypes.S fuel) sel k model =
     (_ <- index (pattern (snd (update_alpha m))) 0 ;;
      Done (Datatypes.S k,
            report_solution (Datatypes.S k) (snd (update_alpha m))))) /\
  (forall fuel sel k model k',
     outer_loop fuel sel k model = Done (k', m) ->
     exists m2, fst (update_alpha m2) = End /\
                m = report_solution k' (snd (update_alpha m2))).
Proof.
  destruct (update_alpha_cases m) as (H1 & H2 & H3 & H4).
  repeat split; try assumption.
  - intros fuel sel k model m1 a Hd Hs Ha.
    rewrite (outer_loop_step fuel sel k model m1 m Hd Hs), Ha. reflexivity.
  - intros fuel sel k model m1 Hd Hs Ha.
    rewrite (outer_loop_step fuel sel k model m1 m Hd Hs), Ha. reflexivity.
  - intros fuel sel k model k'. apply outer_loop_ends.
Qed.

(** C9: the two tolerances are different constants.  The reduced-cost test
    uses [10e-5], that is 1e-4: a column is returned exactly when the
    knapsack objective exceeds [1 + 1e-4].  The floor of [alpha] uses
    [10e-4], that is 1e-3: when nothing improved and no column was found,
    [alpha] is decremented exactly when it exceeds [0.1 + 1e-3]. *)
Theorem C9_two_tolerances (m : MP) (pi : list Q) :
  knapsack_tolerance == 1e-4 /\
  alpha_tolerance == 1e-3 /\
  (length pi = I (ins m) ->
   let y := map (solve_Y pi (w (ins m)) (W (ins m))) (seq 0 (I (ins m))) in
   (1 + 1e-4 < dot pi y <-> knapsack m pi = Done (Val y))) /\
  (eltb (Z_IP m) (best_IP m) = false -> column_flag m = false ->
   (0.1 + 1e-3 < alpha m <->
    update_alpha m = (Val (alpha m - 0.1), set_alpha (alpha m - 0.1) m)) /\
   (alpha m <= 0.1 + 1e-3 <-> update_alpha m = (End, m))).
Proof.
  split; [reflexivity|]. split; [reflexivity|]. split.
  - intros Hlen y. rewrite (knapsack_unfold m pi Hlen). fold y. cbv zeta.
    assert (Htol : 1 + knapsack_tolerance == 1 + 1e-4) by reflexivity.
    destruct (Qgtb (dot pi y) (1 + knapsack_tolerance)) eqn:E.
    + apply Qgtb_gt in E. rewrite Htol in E. tauto.
    + apply Qgtb_le in E. rewrite Htol in E. split; [|discriminate].
      intro H. exfalso. exact (Qlt_not_le _ _ H E).
  - intros HZ Hf. unfold update_alpha. rewrite HZ, Hf.
    assert (Htol : 0.1 + alpha_tolerance == 0.1 + 1e-3) by reflexivity.
    destruct (Qgtb (alpha m) (0.1 + alpha_tolerance)) eqn:E.
    + apply Qgtb_gt in E. rewrite Htol in E. split.
      * tauto.
      * split; [|discriminate]. intro H. exfalso. exact (Qlt_not_le _ _ E H).
    + apply Qgtb_le in E. rewrite Htol in E. split.
      * split; [|discriminate]. intro H. exfalso. exact (Qlt_not_le _ _ H E).
      * tauto.
Qed.

(** ** The optimiser's model *)

Lemma map_indexed {A B} (F : nat -> A -> A) (f : A -> B) (l : list A) (start : nat) :
  (forall i a, f (F i a) = f a) ->
  map f (map (fun ia => F (fst ia) (snd ia)) (combine (seq start (length l)) l))
  = map f l.
Proof.
  intro HF. revert start. induction l as [|a l IH]; intro start; [reflexivity|].
  simpl. now rewrite HF, IH.
Qed.

Lemma set_vtype_retyped (j : nat) (vt : vtype) (g : Model) :
  retyped g (set_vtype j vt g).
Proof.
  unfold retyped, set_vtype. simpl. repeat split.
  apply (map_indexed
           (fun i v => if Nat.eqb i j then mkVar vt (v_lb v) (v_obj v) else v)
           v_obj).
  intros i a. now destruct (Nat.eqb i j).
Qed.

Lemma retyped_refl (g : Model) : retyped g g.
Proof. unfold retyped. tauto. Qed.

Lemma retyped_trans (g1 g2 g3 : Model) :
  retyped g1 g2 -> retyped g2 g3 -> retyped g1 g3.
Proof.
  unfold retyped. intros H1 H2.
  decompose [and] H1. decompose [and] H2. repeat split; congruence.
Qed.

Lemma set_all_vtypes_retyped (vt : vtype) (m : MP) (g : Model) :
  set_all_vtypes vt m = Done g -> retyped (set_cover m) g.
Proof.
  unfold set_all_vtypes, for_range. intro H.
  apply (for_from_inv (fun _ g' => retyped (set_cover m) g')) in H.
  - exact H.
  - apply retyped_refl.
  - intros i t t' _ Ht Hb. apply bind_Done in Hb as (xi & _ & Hb).
    injection Hb as <-. eapply retyped_trans; [exact Ht|].
    apply set_vtype_retyped.
Qed.

Lemma filter_all {A} (f : A -> bool) (l : list A) :
  (forall a, In a l -> f a = true) -> filter f l = l.
Proof.
  induction l as [|a l IH]; intro H; [reflexivity|].
  simpl. rewrite (H a) by now left. f_equal. apply IH.
  intros b Hb. apply H. now right.
Qed.

Lemma filter_none {A} (f : A -> bool) (l : list A) :
  (forall a, In a l -> f a = false) -> filter f l = [].
Proof.
  induction l as [|a l IH]; intro H; [reflexivity|].
  simpl. rewrite (H a) by now left. apply IH.
  intros b Hb. apply H. now right.
Qed.

(** With nothing to remove, [update] commits the pending constraints. *)
Lemma update_commits (g : Model) :
  removing g = [] ->
  update g = {| vars := vars g; constrs := constrs g ++ pending g;
                pending := []; removing := []; next_id := next_id g;
                removed := removed g; sol_X := sol_X g; sol_Pi := sol_Pi g |}.
Proof.
  intro Hr. unfold update, is_removing. rewrite Hr. simpl.
  rewrite filter_all by reflexivity.
  rewrite filter_none by reflexivity.
  now rewrite app_nil_r.
Qed.

Lemma update_settled (g : Model) :
  removing g = [] -> pending g = [] -> update g = g.
Proof.
  intros Hr Hp. rewrite update_commits by assumption.
  rewrite Hp, app_nil_r. destruct g; simpl in *. now subst.
Qed.

(** ** Lists updated in place *)

Lemma index_app_here {A} (pre : list A) (a : A) (post : list A) :
  index (pre ++ a :: post) (length pre) = Done a.
Proof.
  apply index_Done. rewrite nth_error_app2 by lia.
  now rewrite Nat.sub_diag.
Qed.

Lemma assign_app_here {A} (pre : list A) (a v : A) (post : list A) :
  assign (pre ++ a :: post) (length pre) v = Done (pre ++ v :: post).
Proof.
  induction pre as [|b pre IH]; [reflexivity|].
  simpl. now rewrite IH.
Qed.

Lemma assign_length {A} (l l' : list A) (i : nat) (v : A) :
  assign l i v = Done l' -> length l' = length l.
Proof.
  revert i l'. induction l as [|a l IH]; intros i l' H; [discriminate|].
  destruct i as [|i]; simpl in H.
  - now injection H as <-.
  - apply bind_Done in H as (t & Ht & H). injection H as <-.
    simpl. f_equal. eauto.
Qed.

(** ** Frames: what a method leaves alone *)

Ltac frame H :=
  repeat step_done H; subst; repeat split; reflexivity.

Lemma relax_lp_frame (m m' : MP) :
  relax_lp m = Done m' ->
  same_data m m' /\ same_bounds m m' /\ cont m' = cont m.
Proof. unfold relax_lp. intro H. frame H. Qed.

Lemma round_solution_frame (m m' : MP) :
  round_solution m = Done m' ->
  same_data m m' /\ same_bounds m m' /\ cont m' = cont m /\
  set_cover m' = set_cover m /\ lb m' = lb m.
Proof. unfold round_solution. intro H. frame H. Qed.

Lemma solve_IP_frame (m m' : MP) :
  solve_IP m = Done m' ->
  same_data m m' /\ same_bounds m m' /\ cont m' = cont m.
Proof. unfold solve_IP. intro H. frame H. Qed.

Lemma aggregate_fixing_frame (sel : Q -> bool) (factor : Q) (m m' : MP) :
  aggregate_fixing sel factor m = Done m' ->
  same_data m m' /\ same_bounds m m' /\ cont m' = cont m.
Proof. unfold aggregate_fixing. intro H. frame H. Qed.

Lemma per_item_fixing_frame (sel : Q -> bool) (factor : Q) (m m' : MP) :
  per_item_fixing sel factor m = Done m' ->
  same_data m m' /\ same_bounds m m' /\ cont m' = cont m.
Proof. unfold per_item_fixing. intro H. frame H. Qed.

Lemma soft_fixing_type2_frame (m m' : MP) :
  soft_fixing_type2 m = Done m' ->
  same_data m m' /\ same_bounds m m' /\ cont m' = cont m.
Proof. unfold soft_fixing_type2. intro H. frame H. Qed.

Lemma soft_fixing_type5_frame (m m' : MP) :
  soft_fixing_type5 m = Done m' ->
  same_data m m' /\ same_bounds m m'.
Proof. unfold soft_fixing_type5. intro H. frame H. Qed.

Lemma soft_fixing_type6_frame (m m' : MP) :
  soft_fixing_type6 m = Done m' ->
  same_data m m' /\ same_bounds m m' /\ cont m' = cont m.
Proof. unfold soft_fixing_type6. intro H. frame H. Qed.

Lemma remove_soft_fixing_frame (m m' : MP) :
  remove_soft_fixing m = Done m' ->
  same_data m m' /\ same_bounds m m' /\ cont m' = cont m.
Proof. unfold remove_soft_fixing. intro H. frame H. Qed.

Lemma remove_soft_fixing_type2_frame (m m' : MP) :
  remove_soft_fixing_type2 m = Done m' ->
  same_data m m' /\ same_bounds m m' /\ cont m' = cont m.
Proof. unfold remove_soft_fixing_type2. intro H. frame H. Qed.

Lemma remove_soft_fixing_type5_frame (m m' : MP) :
  remove_soft_fixing_type5 m = Done m' ->
  same_data m m' /\ same_bounds m m' /\ cont m' = cont m.
Proof. unfold remove_soft_fixing_type5. intro H. frame H. Qed.

Lemma add_column_frame (c : list Q) (m m' : MP) :
  add_column c m = Done m' ->
  same_bounds m m' /\ ins m' = ins m /\ P m' = P m /\ cons m' = cons m /\
  cont m' = cont m /\ column_flag m' = true.
Proof. unfold add_column. intro H. frame H. Qed.

Lemma initial_state (m m' : MP) (p : list (list Q)) :
  initial m = Done (p, m') -> exists M', m' = set_M M' m.
Proof.
  unfold initial. intro H. repeat step_done H. subst. eauto.
Qed.

Lemma build_model_frame (m m' : MP) :
  build_model m = Done m' ->
  same_bounds m m' /\ ins m' = ins m /\ total_column m' = total_column m.
Proof.
  unfold build_model. intro H.
  apply bind_Done in H as ([p m0] & Hi & H).
  apply initial_state in Hi as (M' & ->). frame H.
Qed.

(** ** The bounds *)

Lemma ele_emax_r (a b : enum) : ele b (emax a b).
Proof.
  unfold emax. destruct (eltb a b) eqn:E; [apply ele_refl|].
  destruct a, b; simpl in *; try discriminate; auto.
  now apply Qltb_ge.
Qed.

Lemma solve_relaxation_bounds (m m' : MP) :
  solve_relaxation m = Done m' ->
  best_lb m' = emax (best_lb m) (lb m') /\ best_IP m' = best_IP m /\
  lb m' = Fin (objective_value (set_cover m')) /\
  same_data m m' /\ cont m' = cont m.
Proof.
  unfold solve_relaxation. intro H.
  apply bind_Done in H as (m1 & H1 & H). injection H as <-.
  apply relax_lp_frame in H1 as (Hd & (Hlb & HIP) & Hc).
  unfold emax. simpl. rewrite Hlb.
  destruct (eltb (best_lb m) _) eqn:E; simpl; rewrite ?E;
    (repeat split; try assumption; try reflexivity; apply Hd).
Qed.

Lemma column_generation_bounds (fuel : nat) (m m' : MP) :
  column_generation fuel m = Done m' ->
  ele (best_lb m) (best_lb m') /\ best_IP m' = best_IP m /\
  ele (lb m') (best_lb m').
Proof.
  revert m. induction fuel as [|fuel IH]; intros m H; [discriminate|].
  cbn [column_generation] in H.
  apply bind_Done in H as (m1 & H1 & H).
  apply bind_Done in H as (pi & _ & H).
  apply bind_Done in H as (coluna & _ & H).
  apply solve_relaxation_bounds in H1 as (Hb & HIP & _).
  destruct coluna as [c|].
  - apply bind_Done in H as (m2 & H2 & H).
    apply add_column_frame in H2 as ((Hlb2 & HIP2) & _).
    apply IH in H as (Hle & HIP' & Hlast).
    rewrite Hlb2, Hb in Hle. repeat split.
    + eapply ele_trans; [apply ele_emax_l | exact Hle].
    + congruence.
    + exact Hlast.
  - apply bind_Done in H as (m2 & H2 & H). injection H as <-.
    apply round_solution_frame in H2 as (_ & (Hlb2 & HIP2) & _ & _ & Hl).
    simpl. rewrite Hlb2, HIP2, Hl, Hb. repeat split.
    + apply ele_emax_l.
    + exact HIP.
    + apply ele_emax_r.
Qed.


Lemma update_alpha_bounds (m : MP) :
  best_lb (snd (update_alpha m)) = best_lb m /\
  best_IP (snd (update_alpha m)) = emin (best_IP m) (Z_IP m).
Proof.
  unfold update_alpha, emin.
  destruct (eltb (Z_IP m) (best_IP m)); [split; reflexivity|].
  destruct (column_flag m); [split; reflexivity|].
  destruct (Qgtb _ _); split; reflexivity.
Qed.


Lemma bounds_return_frame (m m' : MP) :
  bounds_return m = Done m' ->
  same_data m m' /\ same_bounds m m' /\ cont m' = cont m.
Proof.
  unfold bounds_return. intro H.
  apply bind_Done in H as (m1 & H1 & H).
  apply relax_lp_frame in H1 as (Hd1 & Hb1 & Hc1).
  apply solve_IP_frame in H as (Hd & Hb & Hc).
  unfold same_data, same_bounds in *. simpl in *.
  intuition congruence.
Qed.




(** ** The initial patterns *)

Lemma for_from_append {A} (body : nat -> list A -> outcome (list A))
  (h : nat -> A) (n start : nat) (acc : list A) :
  (forall i a, (start <= i < start + n)%nat -> body i a = Done (a ++ [h i])) ->
  for_from start n body acc = Done (acc ++ map h (seq start n)).
Proof.
  revert start acc. induction n as [|n IH]; intros start acc Hb.
  - simpl. now rewrite app_nil_r.
  - simpl. rewrite Hb by lia. simpl.
    rewrite IH by (intros i a Hi; apply Hb; lia).
    now rewrite <- app_assoc.
Qed.

Lemma single_fill_Done (inst : Instance) (i : nat) :
  (i < I inst)%nat -> ~ nth i (w inst) 0 == 0 ->
  single_fill inst i = Done (fill inst i).
Proof.
  intros Hi Hw. unfold single_fill.
  rewrite (index_lt (w inst) i 0) by exact Hi. simpl.
  destruct (Qeq_bool (nth i (w inst) 0) 0) eqn:E; [|reflexivity].
  apply Qeq_bool_iff in E. contradiction.
Qed.

Lemma assign_repeat (n i : nat) (v : Q) :
  (i < n)%nat ->
  assign (repeat 0 n) i v = Done (repeat 0 i ++ v :: repeat 0 (n - i - 1)).
Proof.
  intro Hi.
  replace n with (i + Datatypes.S (n - i - 1))%nat at 1 by lia.
  rewrite repeat_app. simpl repeat at 2.
  pose proof (assign_app_here (repeat 0 i) 0 v (repeat 0 (n - i - 1))) as H.
  now rewrite repeat_length in H.
Qed.

Lemma unit_row_entry (n i j : nat) (v : Q) :
  (i < n)%nat -> (j < n)%nat ->
  nth j (repeat 0 i ++ v :: repeat 0 (n - i - 1)) 0
  = if Nat.eqb j i then v else 0.
Proof.
  intros Hi Hj. destruct (Nat.eqb_spec j i) as [->|Hne].
  - rewrite app_nth2 by (rewrite repeat_length; lia).
    now rewrite repeat_length, Nat.sub_diag.
  - destruct (Nat.lt_ge_cases j i) as [Hlt|Hge].
    + rewrite app_nth1 by (rewrite repeat_length; lia).
      apply nth_repeat.
    + rewrite app_nth2 by (rewrite repeat_length; lia).
      rewrite repeat_length.
      destruct (j - i)%nat as [|k] eqn:Ek; [lia|]. simpl.
      apply nth_repeat.
Qed.




(** ** Committing constraints *)

Lemma update_committed (g : Model) :
  removing g = [] -> committed_from g (update g).
Proof.
  intro Hr. rewrite (update_commits g Hr). unfold committed_from. simpl.
  repeat split.
Qed.

Lemma update_vars (g : Model) : vars (update g) = vars g.
Proof. reflexivity. Qed.

Lemma optimize_committed (g : Model) :
  removing g = [] -> committed_from g (optimize g).
Proof.
  intro Hr. unfold optimize. rewrite (update_commits g Hr).
  unfold committed_from. simpl. repeat split.
Qed.

Lemma committed_from_trans (g1 g2 g3 : Model) :
  committed_from g1 g2 -> committed_from g2 g3 -> committed_from g1 g3.
Proof.
  unfold committed_from.
  intros (H1 & Hp1 & Hr1 & Hn1 & Hd1) (H2 & Hp2 & Hr2 & Hn2 & Hd2).
  rewrite Hp1, app_nil_r in H2. repeat split; congruence.
Qed.

Lemma retyped_committed (g g0 g' : Model) :
  retyped g g0 -> committed_from g0 g' -> committed_from g g'.
Proof.
  unfold retyped, committed_from.
  intros (_ & Hc & Hp & Hr & Hn & Hd & _) (H1 & Hp1 & Hr1 & Hn1 & Hd1).
  rewrite Hc, Hp in H1. repeat split; congruence.
Qed.

Lemma retyped_removing (g g0 : Model) :
  retyped g g0 -> removing g = [] -> removing g0 = [].
Proof. unfold retyped. intros (_ & _ & _ & -> & _). tauto. Qed.

Lemma committed_from_ok (g g' : Model) :
  model_ok g -> committed_from g g' -> model_ok g'.
Proof.
  unfold model_ok, handles_ok, committed_from.
  intros ((Hnd & Hlt) & _) (Hi & Hp & Hr & Hn & _).
  rewrite Hp, app_nil_r, Hi, Hn. tauto.
Qed.

Lemma ids_add_to_constr (column : list (Q * nat)) (j : nat) (cs : list Constr) :
  ids (map (add_to_constr column j) cs) = ids cs.
Proof.
  unfold ids. rewrite map_map. reflexivity.
Qed.

Lemma addVar_committed (vt : vtype) (lb obj : Q) (column : list (Q * nat))
  (g : Model) :
  removing g = [] ->
  committed_from g (update (snd (addVar vt lb obj column g))).
Proof.
  intro Hr. rewrite update_commits by exact Hr.
  unfold committed_from, ids. simpl. rewrite <- map_app.
  repeat split. apply ids_add_to_constr.
Qed.

(** ** What the solving methods do to the model *)

Lemma relax_lp_model (m m' : MP) :
  relax_lp m = Done m' ->
  exists g, retyped (set_cover m) g /\ set_cover m' = update g /\
            m' = set_set_cover (update g) m.
Proof.
  unfold relax_lp. intro H. apply bind_Done in H as (g & Hg & H).
  injection H as <-. exists g. split; [|split; reflexivity].
  now apply set_all_vtypes_retyped in Hg.
Qed.

Lemma relax_lp_committed (m m' : MP) :
  relax_lp m = Done m' -> removing (set_cover m) = [] ->
  committed_from (set_cover m) (set_cover m') /\
  map v_obj (vars (set_cover m')) = map v_obj (vars (set_cover m)).
Proof.
  intros H Hr. apply relax_lp_model in H as (g & Hg & -> & _). split.
  - eapply retyped_committed; [exact Hg|]. apply update_committed.
    now apply (retyped_removing _ _ Hg).
  - rewrite update_vars. apply Hg.
Qed.

Lemma solve_relaxation_model (m m' : MP) :
  solve_relaxation m = Done m' -> removing (set_cover m) = [] ->
  committed_from (set_cover m) (set_cover m') /\
  map v_obj (vars (set_cover m')) = map v_obj (vars (set_cover m)) /\
  length (sol_X (set_cover m')) = length (vars (set_cover m')).
Proof.
  unfold solve_relaxation. intros H Hr.
  apply bind_Done in H as (m1 & H1 & H). cbv zeta in H. injection H as <-.
  apply (relax_lp_committed _ _ H1) in Hr as (Hc & Hv).
  assert (Hopt : committed_from (set_cover m) (optimize (set_cover m1))).
  { eapply committed_from_trans; [exact Hc|]. apply optimize_committed.
    apply Hc. }
  destruct (eltb (best_lb m1) _); simpl; repeat split;
    solve [ apply Hopt | exact Hv | now rewrite length_map, length_seq ].
Qed.

Lemma solve_IP_model (m m' : MP) :
  solve_IP m = Done m' -> removing (set_cover m) = [] ->
  committed_from (set_cover m) (set_cover m') /\
  map v_obj (vars (set_cover m')) = map v_obj (vars (set_cover m)) /\
  length (sol_X (set_cover m')) = length (vars (set_cover m')).
Proof.
  unfold solve_IP. intros H Hr.
  apply bind_Done in H as (g & Hg & H).
  apply bind_Done in H as (xip & _ & H). injection H as <-.
  apply set_all_vtypes_retyped in Hg. simpl in Hg. simpl.
  pose proof (retyped_removing _ _ Hg Hr) as Hr0.
  split; [|split].
  - eapply retyped_committed; [exact Hg|].
    eapply committed_from_trans; [now apply update_committed|].
    apply optimize_committed. now rewrite update_commits.
  - apply Hg.
  - now rewrite length_map, length_seq.
Qed.

Lemma bounds_return_model (m m' : MP) :
  bounds_return m = Done m' -> removing (set_cover m) = [] ->
  committed_from (set_cover m) (set_cover m') /\
  map v_obj (vars (set_cover m')) = map v_obj (vars (set_cover m)).
Proof.
  unfold bounds_return. intros H Hr.
  apply bind_Done in H as (m1 & H1 & H).
  apply (relax_lp_committed _ _ H1) in Hr as (Hc & Hv).
  apply solve_IP_model in H as (Hc2 & Hv2 & _).
  - simpl in Hc2, Hv2. split.
    + eapply committed_from_trans; [exact Hc|].
      eapply committed_from_trans; [|exact Hc2].
      apply optimize_committed. apply Hc.
    + now rewrite Hv2, <- Hv.
  - reflexivity.
Qed.

(** ** Adding soft-fixing constraints *)

Lemma appended_refl (g : Model) : appended g g [].
Proof.
  unfold appended. rewrite app_nil_r, Nat.add_0_r. repeat split.
Qed.

Lemma appended_addConstr (g g' : Model) (added : list Constr)
  (lhs : LinExpr) (rhs : Q) (nm : cname) :
  appended g g' added ->
  appended g (snd (addConstr lhs rhs nm g'))
           (added ++ [mkConstr (next_id g') lhs rhs nm]).
Proof.
  unfold appended.
  intros (Hv & Hc & Hp & Hr & Hd & HX & HPi & Hi & Hn). simpl.
  rewrite Hp, Hn, length_app. unfold ids in *. rewrite map_app, Hi. simpl.
  rewrite <- app_assoc.
  replace (length added + 1)%nat with (Datatypes.S (length added)) by lia.
  rewrite seq_S. repeat split; try assumption. lia.
Qed.

Lemma appended_ok (g g' : Model) (added : list Constr) :
  appended g g' added -> model_ok g -> model_ok g'.
Proof.
  unfold appended, model_ok, handles_ok.
  intros (Hv & Hc & Hp & Hr & Hd & HX & HPi & Hi & Hn) ((Hnd & Hlt) & Hrm).
  rewrite Hc, Hp, Hr, Hn, app_assoc. unfold ids in *. rewrite map_app, Hi.
  split; [split|assumption].
  - apply NoDup_app; [assumption | apply seq_NoDup |].
    intros a Ha Hs. apply in_seq in Hs.
    rewrite Forall_forall in Hlt. specialize (Hlt a Ha). lia.
  - apply Forall_app. split.
    + eapply Forall_impl; [|exact Hlt]. simpl. intros. lia.
    + apply Forall_forall. intros a Ha. apply in_seq in Ha. lia.
Qed.

Lemma aggregate_fixing_appended (sel : Q -> bool) (factor : Q) (m m' : MP) :
  aggregate_fixing sel factor m = Done m' ->
  exists c, appended (set_cover m) (set_cover m') [c].
Proof.
  unfold aggregate_fixing. intro H.
  apply bind_Done in H as ([fixed rs] & _ & H).
  injection H as <-. simpl. eexists.
  apply (appended_addConstr _ _ [] fixed _ Soft_Fixing (appended_refl _)).
Qed.

Lemma soft_fixing_type6_appended (m m' : MP) :
  soft_fixing_type6 m = Done m' ->
  exists c, appended (set_cover m) (set_cover m') [c].
Proof.
  unfold soft_fixing_type6. intro H.
  apply bind_Done in H as ([fixed rs] & _ & H).
  injection H as <-. simpl. eexists.
  apply (appended_addConstr _ _ [] fixed _ unnamed (appended_refl _)).
Qed.

Lemma soft_fixing_type2_appended (m m' : MP) :
  soft_fixing_type2 m = Done m' ->
  exists added, appended (set_cover m) (set_cover m') added /\
                length added = I (ins m).
Proof.
  unfold soft_fixing_type2, for_range. intro H.
  apply bind_Done in H as (g & Hg & H). injection H as <-. simpl.
  apply (for_from_inv
           (fun i g' => exists added,
                appended (set_cover m) g' added /\ length added = i)) in Hg.
  - exact Hg.
  - exists []. split; [apply appended_refl | reflexivity].
  - intros i t t' _ (added & Ha & Hl) Hb.
    apply bind_Done in Hb as (fixed & _ & Hb).
    apply bind_Done in Hb as (di & _ & Hb). injection Hb as <-.
    eexists. split; [apply appended_addConstr; exact Ha|].
    rewrite length_app. simpl. lia.
Qed.

Lemma per_item_fixing_appended (sel : Q -> bool) (factor : Q) (m m' : MP) :
  per_item_fixing sel factor m = Done m' ->
  exists added, appended (set_cover m) (set_cover m') added /\
                length added = I (ins m).
Proof.
  unfold per_item_fixing, for_range. intro H.
  apply bind_Done in H as (g & Hg & H). injection H as <-. simpl.
  apply (for_from_inv
           (fun i g' => exists added,
                appended (set_cover m) g' added /\ length added = i)) in Hg.
  - exact Hg.
  - exists []. split; [apply appended_refl | reflexivity].
  - intros i t t' _ (added & Ha & Hl) Hb.
    apply bind_Done in Hb as ([fixed rs] & _ & Hb). injection Hb as <-.
    eexists. split; [apply appended_addConstr; exact Ha|].
    rewrite length_app. simpl. lia.
Qed.

Lemma firstn_S_index {A} (l : list A) (j : nat) (v : A) :
  index l j = Done v -> firstn (Datatypes.S j) l = firstn j l ++ [v].
Proof.
  intro H. apply index_Done in H. revert j H.
  induction l as [|a l IH]; intros [|j] H; try discriminate.
  - now injection H as ->.
  - simpl in H. simpl. f_equal. now apply IH.
Qed.

Lemma soft_fixing_type5_appended (m m' : MP) :
  soft_fixing_type5 m = Done m' ->
  exists added, appended (set_cover m) (set_cover m') added /\
                length added = cont m' /\
                cont m' = length (filter (fun v => Qgtb v 0.5) (x_IP m)).
Proof.
  unfold soft_fixing_type5, for_range. intro H.
  apply bind_Done in H as ([k g] & Hg & H). injection H as <-. simpl.
  simpl in Hg.
  apply (for_from_inv
           (fun j kg => exists added,
                appended (set_cover m) (snd kg) added /\
                length added = fst kg /\
                fst kg = length (filter (fun v => Qgtb v 0.5)
                                        (firstn j (x_IP m))))) in Hg.
  - destruct Hg as (added & Ha & Hl & Hk). simpl in *.
    exists added. rewrite firstn_all in Hk. tauto.
  - exists []. simpl. split; [apply appended_refl | split; reflexivity].
  - intros j [k0 g0] [k1 g1] _ (added & Ha & Hl & Hk) Hb.
    cbn [fst snd] in *.
    apply bind_Done in Hb as (v & Hv & Hb).
    rewrite (firstn_S_index _ _ _ Hv), filter_app, length_app.
    cbn [filter]. destruct (Qgtb v 0.5).
    + apply bind_Done in Hb as (xj & _ & Hb). injection Hb as <- <-.
      eexists. split; [apply appended_addConstr; exact Ha|].
      rewrite length_app. simpl. lia.
    + injection Hb as <- <-. exists added. simpl.
      rewrite Nat.add_0_r. tauto.
Qed.

(** ** Removing the last constraints *)

Lemma filter_last_id (cs : list Constr) (c : Constr) :
  NoDup (ids (cs ++ [c])) ->
  filter (fun c' => negb (Nat.eqb (c_id c') (c_id c) || false)) (cs ++ [c])
  = cs /\
  filter (fun c' => Nat.eqb (c_id c') (c_id c) || false) (cs ++ [c]) = [c].
Proof.
  intro Hnd. unfold ids in Hnd. rewrite map_app in Hnd. simpl in Hnd.
  apply NoDup_remove_2 in Hnd. rewrite app_nil_r in Hnd.
  assert (Hne : forall c', In c' cs -> Nat.eqb (c_id c') (c_id c) = false).
  { intros c' Hin. apply Nat.eqb_neq. intro E. apply Hnd.
    rewrite <- E. now apply in_map. }
  rewrite !filter_app. simpl. rewrite Nat.eqb_refl. simpl. split.
  - rewrite app_nil_r. apply filter_all. intros c' Hin.
    now rewrite (Hne c' Hin).
  - rewrite filter_none; [reflexivity|]. intros c' Hin.
    now rewrite (Hne c' Hin).
Qed.

Lemma remove_last_Done (g : Model) (cs : list Constr) (c : Constr) :
  constrs g = cs ++ [c] -> pending g = [] -> removing g = [] ->
  NoDup (ids (cs ++ [c])) ->
  remove_last g =
  Done {| vars := vars g; constrs := cs; pending := []; removing := [];
          next_id := next_id g; removed := removed g ++ [c];
          sol_X := sol_X g; sol_Pi := sol_Pi g |}.
Proof.
  intros Hc Hp Hr Hnd. unfold remove_last. rewrite Hc, rev_unit.
  unfold update, remove, is_removing. simpl. rewrite Hc, Hp, Hr, app_nil_r.
  simpl. destruct (filter_last_id cs c Hnd) as [-> ->]. reflexivity.
Qed.

(** Popping as many constraints as were added last takes out exactly
    those, the newest first. *)
Lemma remove_loop (added base : list Constr) (g : Model) (start : nat) :
  constrs g = base ++ added -> pending g = [] -> removing g = [] ->
  NoDup (ids (base ++ added)) ->
  for_from start (length added) (fun _ g' => remove_last g') g =
  Done {| vars := vars g; constrs := base; pending := []; removing := [];
          next_id := next_id g; removed := removed g ++ rev added;
          sol_X := sol_X g; sol_Pi := sol_Pi g |}.
Proof.
  revert g start. induction added as [|c added IH] using rev_ind;
    intros g start Hc Hp Hr Hnd.
  - simpl. rewrite !app_nil_r in *. destruct g; simpl in *. now subst.
  - rewrite length_app. simpl length.
    replace (length added + 1)%nat with (Datatypes.S (length added)) by lia.
    cbn [for_from]. rewrite app_assoc in Hc, Hnd.
    rewrite (remove_last_Done g (base ++ added) c Hc Hp Hr Hnd).
    cbn [bind]. rewrite IH; try reflexivity.
    + simpl. rewrite rev_app_distr. simpl. now rewrite <- app_assoc.
    + unfold ids in *. rewrite map_app in Hnd.
      now apply NoDup_app_remove_r in Hnd.
Qed.

(** ** Consistency of the master problem object *)

Lemma consistent_frame (m m' : MP) :
  consistent m -> same_data m m' ->
  map v_obj (vars (set_cover m')) = map v_obj (vars (set_cover m)) ->
  model_ok (set_cover m') ->
  consistent m'.
Proof.
  intros [HP Hcons Hrows Hcols Htot Hge Hx Hobj Hh Hr]
         (Hi & HP' & Hc' & Hp' & Ht' & Hx') Hv [Hh' Hr'].
  assert (Hlen : length (vars (set_cover m')) = length (vars (set_cover m))).
  { apply (f_equal (@length Q)) in Hv. now rewrite !length_map in Hv. }
  constructor; rewrite ?Hi, ?HP', ?Hc', ?Hp', ?Ht', ?Hx', ?Hlen;
    try assumption.
  unfold unit_costs in *.
  apply (Forall_map v_obj (fun q => q == 1)). rewrite Hv.
  now apply (Forall_map v_obj (fun q => q == 1)).
Qed.

Lemma NoDup_ids_filter (f : Constr -> bool) (l : list Constr) :
  NoDup (ids l) -> NoDup (ids (filter f l)).
Proof.
  unfold ids. induction l as [|a l IH]; intro H; [constructor|].
  simpl in H. inversion H as [|? ? Hnin Hnd]; subst. simpl.
  destruct (f a); [|now apply IH]. simpl. constructor; [|now apply IH].
  intro Hin. apply Hnin. apply in_map_iff in Hin as (c & Hc & Hin).
  apply filter_In in Hin as [Hin _]. rewrite <- Hc. now apply in_map.
Qed.

Lemma update_ok (g : Model) : handles_ok g -> model_ok (update g).
Proof.
  unfold model_ok, handles_ok. intros [Hnd Hlt]. simpl.
  rewrite app_nil_r. split; [split|reflexivity].
  - now apply NoDup_ids_filter.
  - unfold ids in *. rewrite Forall_forall in *. intros h Hh.
    apply in_map_iff in Hh as (c & <- & Hin).
    apply filter_In in Hin as [Hin _]. apply Hlt. now apply in_map.
Qed.

Lemma remove_last_ok (g g' : Model) :
  remove_last g = Done g' -> handles_ok g ->
  model_ok g' /\ vars g' = vars g.
Proof.
  unfold remove_last. intros H Hh.
  destruct (rev (constrs g)) as [|c t]; [discriminate|].
  injection H as <-. split; [|reflexivity].
  apply update_ok. exact Hh.
Qed.

Lemma remove_loop_ok (n start : nat) (g g' : Model) :
  for_from start n (fun _ t => remove_last t) g = Done g' ->
  model_ok g -> model_ok g' /\ vars g' = vars g.
Proof.
  intros H Hok.
  apply (for_from_inv (fun _ t => model_ok t /\ vars t = vars g)) in H.
  - exact H.
  - now split.
  - intros i t t' _ [[Hh _] Hv] Hb.
    apply remove_last_ok in Hb as [Hok' Hv']; [|exact Hh].
    split; [exact Hok' | congruence].
Qed.

Lemma appended_vars (g g' : Model) (added : list Constr) :
  appended g g' added -> vars g' = vars g.
Proof. now intros (H & _). Qed.

Lemma consistent_ok (m : MP) : consistent m -> model_ok (set_cover m).
Proof. intros [? ? ? ? ? ? ? ? ? ?]. now split. Qed.

Lemma relax_lp_consistent (m m' : MP) :
  relax_lp m = Done m' -> consistent m -> consistent m'.
Proof.
  intros H Hc. pose proof (consistent_ok m Hc) as Hok.
  destruct (relax_lp_committed m m' H (proj2 Hok)) as [Hcm Hv].
  apply (consistent_frame m m' Hc); [now apply relax_lp_frame in H | exact Hv |].
  eapply committed_from_ok; eassumption.
Qed.

Lemma solve_relaxation_consistent (m m' : MP) :
  solve_relaxation m = Done m' -> consistent m -> consistent m'.
Proof.
  intros H Hc. pose proof (consistent_ok m Hc) as Hok.
  destruct (solve_relaxation_model m m' H (proj2 Hok)) as (Hcm & Hv & _).
  apply (consistent_frame m m' Hc); [| exact Hv |].
  - now apply solve_relaxation_bounds in H as (_ & _ & _ & ? & _).
  - eapply committed_from_ok; eassumption.
Qed.

Lemma solve_IP_consistent (m m' : MP) :
  solve_IP m = Done m' -> consistent m -> consistent m'.
Proof.
  intros H Hc. pose proof (consistent_ok m Hc) as Hok.
  destruct (solve_IP_model m m' H (proj2 Hok)) as (Hcm & Hv & _).
  apply (consistent_frame m m' Hc); [now apply solve_IP_frame in H | exact Hv |].
  eapply committed_from_ok; eassumption.
Qed.

Lemma bounds_return_consistent (m m' : MP) :
  bounds_return m = Done m' -> consistent m -> consistent m'.
Proof.
  intros H Hc. pose proof (consistent_ok m Hc) as Hok.
  destruct (bounds_return_model m m' H (proj2 Hok)) as (Hcm & Hv).
  apply (consistent_frame m m' Hc);
    [now apply bounds_return_frame in H | exact Hv |].
  eapply committed_from_ok; eassumption.
Qed.

Lemma round_solution_consistent (m m' : MP) :
  round_solution m = Done m' -> consistent m -> consistent m'.
Proof.
  intros H Hc. apply round_solution_frame in H as (Hd & _ & _ & Hg & _).
  apply (consistent_frame m m' Hc Hd); rewrite Hg;
    [reflexivity | now apply consistent_ok].
Qed.

Lemma appended_consistent (m m' : MP) (added : list Constr) :
  appended (set_cover m) (set_cover m') added -> same_data m m' ->
  consistent m -> consistent m'.
Proof.
  intros Ha Hd Hc. apply (consistent_frame m m' Hc Hd).
  - now rewrite (appended_vars _ _ _ Ha).
  - eapply appended_ok; [exact Ha | now apply consistent_ok].
Qed.

Lemma removal_consistent (n : nat) (m : MP) (g : Model) :
  for_range n (fun _ t => remove_last t) (set_cover m) = Done g ->
  consistent m -> consistent (set_set_cover g m).
Proof.
  intros H Hc. apply remove_loop_ok in H as [Hok Hv];
    [|now apply consistent_ok].
  apply (consistent_frame m _ Hc).
  - unfold same_data. repeat split.
  - simpl. now rewrite Hv.
  - exact Hok.
Qed.

(** ** Adding a column *)

Lemma extend_loop (rest pre : list (list Q)) (crest cpre : list Q) :
  length pre = length cpre -> length rest = length crest ->
  for_from (length pre) (length crest)
    (fun i pat =>
       row <- index pat i ;;
       ci <- index (cpre ++ crest) i ;;
       assign pat i (row ++ [ci]))
    (pre ++ rest)
  = Done (pre ++ extend_rows rest crest).
Proof.
  revert pre crest cpre.
  induction rest as [|r rest IH]; intros pre crest cpre Hp Hr.
  - destruct crest; [reflexivity | discriminate].
  - destruct crest as [|c0 crest]; [discriminate|].
    cbn [length for_from]. rewrite index_app_here. cbn [bind].
    rewrite Hp at 1. rewrite index_app_here. cbn [bind].
    rewrite assign_app_here. cbn [bind].
    specialize (IH (pre ++ [r ++ [c0]]) crest (cpre ++ [c0])).
    rewrite !length_app in IH. simpl length in IH.
    rewrite !Nat.add_1_r in IH. rewrite <- !app_assoc in IH. simpl in IH.
    rewrite IH by (simpl in Hr; lia). reflexivity.
Qed.

Lemma add_column_consistent (c : list Q) (m m' : MP) :
  add_column c m = Done m' -> consistent m ->
  consistent m' /\
  length c = I (ins m) /\
  pattern m' = extend_rows (pattern m) c /\
  total_column m' = Datatypes.S (total_column m) /\
  committed_from (set_cover m) (set_cover m') /\
  vars (set_cover m') = vars (set_cover m) ++ [mkVar CONTINUOUS 0 1].
Proof.
  intros H Hc. pose proof (consistent_ok m Hc) as [Hh Hrm].
  destruct Hc as [HP Hcons Hrows Hcols Htot Hge Hx Hobj _ _].
  unfold add_column in H. cbn [cons set_column_flag] in H.
  destruct (Nat.eqb_spec (length c) (length (cons m))) as [Hlen|];
    [|discriminate]. cbn [negb] in H.
  cbn [addVar pattern set_set_cover set_x set_column_flag] in H.
  unfold for_range in H.
  pose proof (extend_loop (pattern m) [] c []) as Hloop.
  simpl in Hloop. rewrite Hloop in H by congruence. clear Hloop.
  cbn [bind] in H. apply bind_Done in H as (row0 & Hrow0 & H).
  cbn [pattern set_columns_added set_pattern] in Hrow0.
  injection H as <-.
  assert (Hrows' : Forall (fun row => length row
                                      = Datatypes.S (total_column m))
                          (extend_rows (pattern m) c)).
  { unfold extend_rows. apply Forall_forall. intros row Hin.
    apply in_map_iff in Hin as ([r ci] & <- & Hin).
    apply in_combine_l in Hin. rewrite Forall_forall in Hcols.
    cbn [fst snd]. rewrite length_app, (Hcols r Hin). simpl. lia. }
  assert (Hl0 : length row0 = Datatypes.S (total_column m)).
  { apply index_Done, nth_error_In in Hrow0.
    rewrite Forall_forall in Hrows'. now apply Hrows'. }
  assert (Hcm : committed_from (set_cover m)
                  (update (snd (addVar CONTINUOUS 0 1 (combine c (cons m))
                                       (set_cover m)))))
    by now apply addVar_committed.
  split; [|split; [congruence|split; [reflexivity|split;
            [exact Hl0|split; [exact Hcm|reflexivity]]]]].
  constructor; simpl.
  - exact HP.
  - exact Hcons.
  - unfold extend_rows. rewrite length_map, length_combine. lia.
  - now rewrite Hl0.
  - rewrite Hl0, length_app. simpl. lia.
  - rewrite Hl0. lia.
  - rewrite length_app. simpl. rewrite Nat.add_1_r, seq_S. simpl.
    now rewrite <- Hx.
  - unfold unit_costs. simpl. apply Forall_app. split; [exact Hobj|].
    constructor; [reflexivity | constructor].
  - apply (committed_from_ok (set_cover m)); [now split | exact Hcm].
  - reflexivity.
Qed.

(** ** Building the model *)

Lemma initial_shape (m m' : MP) (p : list (list Q)) :
  initial m = Done (p, m') ->
  length p = I (ins m) /\
  Forall (fun row => length row = I (ins m)) p.
Proof.
  unfold initial, for_range. intro H.
  apply bind_Done in H as (p0 & Hp & H).
  apply bind_Done in H as (M' & _ & H). injection H as <- _.
  apply (for_from_inv
           (fun i q => length q = i /\
                       Forall (fun row => length row = I (ins m)) q)) in Hp.
  - exact Hp.
  - split; [reflexivity | constructor].
  - intros i t t' _ [Hl Hf] Hb.
    apply bind_Done in Hb as (v & _ & Hb).
    apply bind_Done in Hb as (aux & Ha & Hb). injection Hb as <-.
    apply assign_length in Ha. rewrite repeat_length in Ha.
    rewrite length_app. simpl. split; [lia|].
    apply Forall_app. split; [exact Hf | now constructor].
Qed.

Lemma unit_terms_filter (n start j : nat) :
  (start <= j < start + n)%nat ->
  filter (fun t : Q * nat => Nat.eqb (snd t) j)
         (map (fun k => (1, k)) (seq start n))
  = [(1, j)].
Proof.
  revert start. induction n as [|n IH]; intros start Hj; [lia|].
  simpl. destruct (Nat.eqb_spec start j) as [->|Hne].
  - f_equal. apply filter_none. intros [q k] Hin.
    apply in_map_iff in Hin as (k' & E & Hin). injection E as <- <-.
    apply in_seq in Hin. simpl. apply Nat.eqb_neq. lia.
  - apply IH. lia.
Qed.

Lemma setObjective_unit_costs (g : Model) :
  unit_costs (setObjective (map (fun k => (1, k)) (seq 0 (length (vars g)))) g).
Proof.
  unfold unit_costs, setObjective. simpl.
  apply Forall_forall. intros v Hin.
  apply in_map_iff in Hin as ([j v0] & <- & Hin).
  apply in_combine_l in Hin. apply in_seq in Hin. simpl.
  unfold coef_of. rewrite unit_terms_filter by lia. simpl.
  apply Qplus_0_l.
Qed.

Lemma index_seq (n i k : nat) : index (seq 0 n) i = Done k -> k = i.
Proof.
  intro H. apply index_Done in H.
  assert (Hi : (i < length (seq 0 n))%nat)
    by (apply nth_error_Some; congruence).
  rewrite length_seq in Hi.
  apply (nth_error_nth _ _ 0%nat) in H. rewrite seq_nth in H by exact Hi.
  simpl in H. congruence.
Qed.

Lemma build_model_consistent (inst : Instance) (m : MP) :
  build_model (MP_init inst) = Done m ->
  consistent m /\ ins m = inst /\ constrs (set_cover m) = [] /\
  ids (pending (set_cover m)) = seq 0 (I inst) /\
  cons m = seq 0 (I inst) /\ total_column m = I inst.
Proof.
  unfold build_model. intro H.
  apply bind_Done in H as ([p m0] & Hi & H).
  destruct (initial_shape _ _ _ Hi) as [Hlen Hrows].
  apply initial_state in Hi as (M' & ->).
  cbn [ins MP_init set_M] in *.
  apply bind_Done in H as ([xs g1] & Hx & H).
  apply bind_Done in H as (obj & Hobj & H).
  apply bind_Done in H as ([cs g2] & Hcs & H). injection H as <-.
  unfold for_range in *.
  (* the variables *)
  apply (for_from_inv
           (fun i s => fst s = seq 0 i /\ length (vars (snd s)) = i /\
                       constrs (snd s) = [] /\ pending (snd s) = [] /\
                       removing (snd s) = [] /\ next_id (snd s) = 0%nat))
    in Hx; [| simpl; tauto |].
  2:{ intros i [xs0 g0] t' _ (Hs & Hv & Hc & Hp & Hr & Hn) Hb.
      cbn [fst snd] in *. unfold addVar in Hb. injection Hb as <-.
      cbn [fst snd vars constrs pending removing next_id].
      rewrite Hv, Hc, Hp, Hs, length_app, seq_S. simpl.
      repeat split; try assumption. lia. }
  cbn [fst snd Nat.add] in Hx.
  destruct Hx as (-> & Hv1 & Hc1 & Hp1 & Hr1 & Hn1).
  (* the objective *)
  apply (for_from_inv
           (fun i o => o = map (fun k => (1, k)) (seq 0 i))) in Hobj;
    [| reflexivity |].
  2:{ intros i t t' _ -> Hb. apply bind_Done in Hb as (xi & Hxi & Hb).
      injection Hb as <-. apply index_seq in Hxi as ->.
      now rewrite seq_S, map_app. }
  simpl in Hobj. subst obj.
  (* the demand constraints *)
  set (g0 := setObjective _ g1) in Hcs.
  apply (for_from_inv
           (fun i s => fst s = seq 0 i /\
                       exists added, appended g0 (snd s) added /\
                                     length added = i)) in Hcs.
  2:{ split; [reflexivity|]. exists []. split;
        [apply appended_refl | reflexivity]. }
  2:{ intros i [cs0 g] t' _ (Hs & added & Ha & Hl) Hb. cbn [fst snd] in *.
      apply bind_Done in Hb as (restr & _ & Hb).
      apply bind_Done in Hb as (di & _ & Hb). injection Hb as <-.
      cbn [fst snd addConstr]. split.
      - rewrite Hs, seq_S. simpl. do 2 f_equal.
        destruct Ha as (_ & _ & _ & _ & _ & _ & _ & _ & ->).
        subst g0. simpl. rewrite Hn1. lia.
      - eexists. split.
        + apply (appended_addConstr g0 g added restr di (Demand_ i) Ha).
        + rewrite length_app. simpl. lia. }
  cbn [fst snd Nat.add] in Hcs. destruct Hcs as (-> & added & Ha & Hl).
  destruct Ha as (Hv2 & Hc2 & Hp2 & Hr2 & _ & _ & _ & Hid & Hn2).
  assert (Hg0 : constrs g0 = [] /\ pending g0 = [] /\ removing g0 = [] /\
                next_id g0 = 0%nat /\ length (vars g0) = I inst).
  { subst g0. unfold setObjective. simpl.
    rewrite length_map, length_combine, length_seq, Hv1, Nat.min_id. tauto. }
  destruct Hg0 as (Hc0 & Hp0 & Hr0 & Hn0 & Hv0).
  rewrite Hc0 in Hc2. rewrite Hp0 in Hp2. rewrite Hr0 in Hr2.
  rewrite Hn0, Hl in Hid, Hn2. simpl in Hp2, Hid, Hn2.
  split; [|simpl; rewrite Hc2, Hp2; tauto].
  constructor; simpl.
  - exact Hlen.
  - apply length_seq.
  - exact Hlen.
  - exact Hrows.
  - now rewrite length_seq.
  - apply Nat.le_refl.
  - now rewrite Hv2, Hv0.
  - unfold unit_costs. rewrite Hv2. subst g0. rewrite <- Hv1.
    apply setObjective_unit_costs.
  - unfold handles_ok. rewrite Hc2, Hp2, Hn2. simpl. rewrite Hid. split.
    + apply seq_NoDup.
    + apply Forall_forall. intros h Hh. apply in_seq in Hh. lia.
  - exact Hr2.
Qed.

(** ** Column generation keeps the object consistent *)

Lemma consistent_same (m m' : MP) :
  consistent m -> same_data m m' -> set_cover m' = set_cover m ->
  consistent m'.
Proof.
  intros Hc Hd Hg. apply (consistent_frame m m' Hc Hd); rewrite Hg;
    [reflexivity | now apply consistent_ok].
Qed.

Lemma column_generation_consistent (fuel : nat) (m m' : MP) :
  column_generation fuel m = Done m' -> consistent m ->
  consistent m' /\ committed_from (set_cover m) (set_cover m') /\
  ins m' = ins m /\ cont m' = cont m.
Proof.
  revert m. induction fuel as [|fuel IH]; intros m H Hc; [discriminate|].
  cbn [column_generation] in H.
  apply bind_Done in H as (m1 & H1 & H).
  apply bind_Done in H as (pi & _ & H).
  apply bind_Done in H as (coluna & _ & H).
  pose proof (solve_relaxation_consistent m m1 H1 Hc) as Hc1.
  destruct (solve_relaxation_model m m1 H1 (proj2 (consistent_ok m Hc)))
    as (Hcm1 & _).
  apply solve_relaxation_bounds in H1 as (_ & _ & _ & (Hi1 & _) & Hk1).
  destruct coluna as [c|].
  - apply bind_Done in H as (m2 & H2 & H).
    destruct (add_column_consistent c m1 m2 H2 Hc1) as (Hc2 & _ & _ & _ & Hcm2 & _).
    apply add_column_frame in H2 as (_ & Hi2 & _ & _ & Hk2 & _).
    destruct (IH m2 H Hc2) as (Hc' & Hcm' & Hi' & Hk').
    split; [exact Hc'|]. split; [|split; congruence].
    eapply committed_from_trans; [exact Hcm1|].
    eapply committed_from_trans; eassumption.
  - apply bind_Done in H as (m2 & H2 & H). injection H as <-.
    pose proof (round_solution_consistent m1 m2 H2 Hc1) as Hc2.
    apply round_solution_frame in H2 as ((Hi2 & _) & _ & Hk2 & Hg2 & _).
    split; [|simpl; rewrite Hg2; split; [exact Hcm1 | split; congruence]].
    apply (consistent_same m2 _ Hc2); [|reflexivity].
    unfold same_data. repeat split.
Qed.

Lemma column_generation_2_consistent (m m' : MP) :
  column_generation_2 m = Done m' -> consistent m ->
  consistent m' /\ committed_from (set_cover m) (set_cover m') /\
  ins m' = ins m /\ cont m' = cont m.
Proof.
  unfold column_generation_2. intros H Hc.
  apply bind_Done in H as (m1 & H1 & H).
  apply bind_Done in H as (pi & _ & H).
  apply bind_Done in H as (coluna & _ & H).
  assert (Hc0 : consistent (set_column_found false m)).
  { apply (consistent_same m _ Hc); [|reflexivity].
    unfold same_data. repeat split. }
  pose proof (solve_relaxation_consistent _ m1 H1 Hc0) as Hc1.
  destruct (solve_relaxation_model _ m1 H1 (proj2 (consistent_ok _ Hc0)))
    as (Hcm1 & _).
  apply solve_relaxation_bounds in H1 as (_ & _ & _ & (Hi1 & _) & Hk1).
  simpl in Hcm1, Hi1, Hk1.
  destruct coluna as [c|].
  - assert (Hc1' : consistent (set_column_found true m1)).
    { apply (consistent_same m1 _ Hc1); [|reflexivity].
      unfold same_data. repeat split. }
    destruct (add_column_consistent c _ m' H Hc1') as (Hc2 & _ & _ & _ & Hcm2 & _).
    apply add_column_frame in H as (_ & Hi2 & _ & _ & Hk2 & _).
    simpl in Hcm2, Hi2, Hk2.
    split; [exact Hc2|]. split; [|split; congruence].
    eapply committed_from_trans; eassumption.
  - pose proof (round_solution_consistent m1 m' H Hc1) as Hc2.
    apply round_solution_frame in H as ((Hi2 & _) & _ & Hk2 & Hg2 & _).
    split; [exact Hc2|]. rewrite Hg2. split; [exact Hcm1 | split; congruence].
Qed.

Lemma update_alpha_same (m : MP) :
  same_data m (snd (update_alpha m)) /\
  set_cover (snd (update_alpha m)) = set_cover m.
Proof.
  unfold update_alpha, same_data.
  destruct (eltb _ _); [repeat split|].
  destruct (column_flag m); [repeat split|].
  destruct (Qgtb _ _); repeat split.
Qed.

Lemma update_beta_same (m : MP) :
  same_data m (snd (update_beta m)) /\
  set_cover (snd (update_beta m)) = set_cover m.
Proof.
  unfold update_beta, same_data.
  destruct (eltb _ _); [repeat split|].
  destruct (_ <? _)%Z; repeat split.
Qed.

Lemma call_consistent (me : method) (m m' : MP) :
  call me m = Done m' -> consistent m -> consistent m'.
Proof.
  destruct me; simpl; intros H Hc.
  - now apply (relax_lp_consistent m m').
  - now apply (add_column_consistent coluna m m').
  - now apply (column_generation_consistent fuel m m').
  - now apply (column_generation_2_consistent m m').
  - now apply (solve_IP_consistent m m').
  - destruct (aggregate_fixing_appended _ _ _ _ H) as (c & Ha).
    apply aggregate_fixing_frame in H as (Hd & _).
    now apply (appended_consistent m m' [c]).
  - destruct (soft_fixing_type2_appended _ _ H) as (a & Ha & _).
    apply soft_fixing_type2_frame in H as (Hd & _).
    now apply (appended_consistent m m' a).
  - destruct (aggregate_fixing_appended _ _ _ _ H) as (c & Ha).
    apply aggregate_fixing_frame in H as (Hd & _).
    now apply (appended_consistent m m' [c]).
  - destruct (per_item_fixing_appended _ _ _ _ H) as (a & Ha & _).
    apply per_item_fixing_frame in H as (Hd & _).
    now apply (appended_consistent m m' a).
  - destruct (soft_fixing_type5_appended _ _ H) as (a & Ha & _).
    apply soft_fixing_type5_frame in H as (Hd & _).
    now apply (appended_consistent m m' a).
  - destruct (soft_fixing_type6_appended _ _ H) as (c & Ha).
    apply soft_fixing_type6_frame in H as (Hd & _).
    now apply (appended_consistent m m' [c]).
  - destruct (per_item_fixing_appended _ _ _ _ H) as (a & Ha & _).
    apply per_item_fixing_frame in H as (Hd & _).
    now apply (appended_consistent m m' a).
  - unfold remove_soft_fixing in H. apply bind_Done in H as (g & Hg & H).
    injection H as <-. apply (removal_consistent 1); [|exact Hc].
    unfold for_range. simpl. now rewrite Hg.
  - unfold remove_soft_fixing_type2 in H.
    apply bind_Done in H as (g & Hg & H). injection H as <-.
    now apply (removal_consistent (I (ins m))).
  - unfold remove_soft_fixing_type5 in H.
    apply bind_Done in H as (g & Hg & H). injection H as <-.
    now apply (removal_consistent (cont m)).
  - injection H as <-. destruct (update_alpha_same m) as [Hd Hg].
    now apply (consistent_same m).
  - injection H as <-. destruct (update_beta_same m) as [Hd Hg].
    now apply (consistent_same m).
  - injection H as <-. apply (consistent_same m _ Hc); [|reflexivity].
    unfold same_data. repeat split.
  - now apply (bounds_return_consistent m m').
Qed.

Lemma reachable_consistent (m : MP) : reachable m -> consistent m.
Proof.
  induction 1 as [inst m H | me m m' _ IH H].
  - now apply build_model_consistent in H.
  - now apply (call_consistent me m m').
Qed.

(** ** The driver only makes calls *)

Lemma baseline_state_reachable (fuel : nat) (inst : Instance) (m : MP) :
  baseline fuel inst = Done m -> reachable m.
Proof.
  unfold baseline. intro H.
  apply bind_Done in H as (m0 & H0 & H).
  apply bind_Done in H as (r0 & _ & H).
  apply bind_Done in H as (m1 & H1 & H).
  apply bind_Done in H as (m2 & H2 & H).
  apply bind_Done in H as (r2 & _ & H). injection H as <-.
  apply (reach_call (call_report_solution 0) m2); [|reflexivity].
  apply (reach_call call_solve_IP m1); [|exact H2].
  apply (reach_call (call_column_generation fuel) m0); [|exact H1].
  now apply (reach_build inst).
Qed.

Lemma retry_type3_reachable (fuel : nat) (m m' : MP) :
  reachable m -> retry_type3 fuel m = Done m' -> reachable m'.
Proof.
  revert m. induction fuel as [|fuel IH]; intros m Hr H.
  - simpl in H. destruct (column_found m); [discriminate|].
    now injection H as <-.
  - cbn [retry_type3] in H. destruct (column_found m).
    + apply bind_Done in H as (m1 & H1 & H).
      apply bind_Done in H as (m2 & H2 & H).
      apply bind_Done in H as (m3 & H3 & H).
      apply (IH m3); [|exact H].
      apply (reach_call call_column_generation_2 m2); [|exact H3].
      apply (reach_call call_soft_fixing_type3 m1); [|exact H2].
      now apply (reach_call call_remove_soft_fixing m).
    + now injection H as <-.
Qed.

Lemma dispatch_reachable (fuel : nat) (sel : soft_type) (m m' : MP) :
  reachable m -> dispatch fuel sel m = Done m' -> reachable m'.
Proof.
  intros Hr H. destruct sel; cbn [dispatch] in H.
  - now injection H as <-.
  - apply bind_Done in H as (m1 & H1 & H).
    apply bind_Done in H as (m2 & H2 & H).
    apply (reach_call call_remove_soft_fixing m2); [|exact H].
    apply (reach_call (call_column_generation fuel) m1); [|exact H2].
    now apply (reach_call call_soft_fixing m).
  - apply bind_Done in H as (m1 & H1 & H).
    apply bind_Done in H as (m2 & H2 & H).
    apply (reach_call call_remove_soft_fixing_type2 m2); [|exact H].
    apply (reach_call (call_column_generation fuel) m1); [|exact H2].
    now apply (reach_call call_soft_fixing_type2 m).
  - apply bind_Done in H as (m1 & H1 & H).
    apply bind_Done in H as (m2 & H2 & H).
    apply bind_Done in H as (m3 & H3 & H).
    apply (reach_call call_remove_soft_fixing m3); [|exact H].
    apply (retry_type3_reachable fuel m2); [|exact H3].
    apply (reach_call call_column_generation_2 m1); [|exact H2].
    now apply (reach_call call_soft_fixing_type3 m).
  - apply bind_Done in H as (m1 & H1 & H).
    apply bind_Done in H as (m2 & H2 & H).
    apply (reach_call call_remove_soft_fixing_type2 m2); [|exact H].
    apply (reach_call (call_column_generation fuel) m1); [|exact H2].
    now apply (reach_call call_soft_fixing_type4 m).
  - apply bind_Done in H as (m1 & H1 & H).
    apply bind_Done in H as (m2 & H2 & H).
    apply (reach_call call_remove_soft_fixing_type5 m2); [|exact H].
    apply (reach_call (call_column_generation fuel) m1); [|exact H2].
    now apply (reach_call call_soft_fixing_type5 m).
  - apply bind_Done in H as (m1 & H1 & H).
    apply bind_Done in H as (m2 & H2 & H).
    apply (reach_call call_remove_soft_fixing m2); [|exact H].
    apply (reach_call (call_column_generation fuel) m1); [|exact H2].
    now apply (reach_call call_soft_fixing_type6 m).
  - apply bind_Done in H as (m1 & H1 & H).
    apply bind_Done in H as (m2 & H2 & H).
    apply bind_Done in H as (m3 & H3 & H).
    apply bind_Done in H as (m4 & H4 & H).
    apply bind_Done in H as (m5 & H5 & H).
    apply (reach_call call_remove_soft_fixing_type5 m5); [|exact H].
    apply (reach_call (call_column_generation fuel) m4); [|exact H5].
    apply (reach_call call_soft_fixing_type5 m3); [|exact H4].
    apply (reach_call call_remove_soft_fixing_type2 m2); [|exact H3].
    apply (reach_call (call_column_generation fuel) m1); [|exact H2].
    now apply (reach_call call_soft_fixing_type4 m).
  - apply bind_Done in H as (m1 & H1 & H).
    apply bind_Done in H as (m2 & H2 & H).
    apply bind_Done in H as (m3 & H3 & H).
    apply bind_Done in H as (m4 & H4 & H).
    apply bind_Done in H as (m5 & H5 & H).
    apply (reach_call call_remove_soft_fixing_type2 m5); [|exact H].
    apply (reach_call (call_column_generation fuel) m4); [|exact H5].
    apply (reach_call call_soft_fixing_type4 m3); [|exact H4].
    apply (reach_call call_remove_soft_fixing_type5 m2); [|exact H3].
    apply (reach_call (call_column_generation fuel) m1); [|exact H2].
    now apply (reach_call call_soft_fixing_type5 m).
  - apply bind_Done in H as (m1 & H1 & H).
    apply bind_Done in H as (m2 & H2 & H).
    apply (reach_call call_remove_soft_fixing_type2 m2); [|exact H].
    apply (reach_call (call_column_generation fuel) m1); [|exact H2].
    now apply (reach_call call_soft_fixing_type7 m).
Qed.

Lemma outer_loop_reachable (fuel : nat) (sel : soft_type) (k k' : nat)
  (m m' : MP) :
  reachable m -> outer_loop fuel sel k m = Done (k', m') -> reachable m'.
Proof.
  revert k m. induction fuel as [|fuel IH]; intros k m Hr H; [discriminate|].
  cbn [outer_loop] in H.
  apply bind_Done in H as (m1 & H1 & H).
  apply bind_Done in H as (m2 & H2 & H).
  assert (R2 : reachable m2).
  { apply (reach_call call_solve_IP m1); [|exact H2].
    now apply (dispatch_reachable (Datatypes.S fuel) sel m). }
  assert (R3 : forall j, reachable (report_solution j (snd (update_alpha m2)))).
  { intro j.
    apply (reach_call (call_report_solution j) (snd (update_alpha m2)));
      [|reflexivity].
    now apply (reach_call call_update_alpha m2). }
  destruct (update_alpha m2) as [[a|] m3] eqn:Eu.
  - apply (IH _ _ (R3 (Datatypes.S k)) H).
  - apply bind_Done in H as (r & _ & H). injection H as _ <-.
    apply (R3 (Datatypes.S k)).
Qed.

Lemma main_reachable (fuel : nat) (inst : Instance) (sel : soft_type)
  (k : nat) (m : MP) :
  main fuel inst sel = Done (k, m) -> reachable m.
Proof.
  unfold main. intro H.
  apply bind_Done in H as (m0 & H0 & H).
  apply bind_Done in H as ([k1 m1] & H1 & H).
  apply bind_Done in H as (m2 & H2 & H). injection H as _ <-.
  apply (reach_call call_bounds_return m1); [|exact H2].
  apply (outer_loop_reachable fuel sel 0 k1 m0); [|exact H1].
  now apply baseline_state_reachable in H0.
Qed.

(** C10: [build_model] sets [P] to the item count [I], and in every state of
    a run [P] is still [I]: it is the number of rows of the pattern matrix,
    whose rows all have length [total_column], the number of columns, which
    is at least [P].  In such a state [add_column] leaves [P] alone, appends
    one entry of the column to each of the [I] rows and counts one more
    column, so that afterwards [P] is smaller than the number of columns.
    The state the driver ends in is a state of a run. *)
Theorem C10_P_is_the_item_count :
  (forall inst m, build_model (MP_init inst) = Done m ->
     P m = I inst /\ length (pattern m) = I inst /\ total_column m = I inst) /\
  (forall m, reachable m ->
     P m = I (ins m) /\ length (pattern m) = P m /\
     Forall (fun row => length row = total_column m) (pattern m) /\
     total_column m = length (x m) /\ (P m <= total_column m)%nat) /\
  (forall m coluna m', reachable m -> add_column coluna m = Done m' ->
     P m' = P m /\ length coluna = P m /\
     pattern m' = extend_rows (pattern m) coluna /\
     total_column m' = Datatypes.S (total_column m) /\
     (P m' < total_column m')%nat) /\
  (forall fuel inst sel k m, main fuel inst sel = Done (k, m) ->
     reachable m /\ P m = I (ins m)).
Proof.
  split; [|split; [|split]].
  - intros inst m H.
    destruct (build_model_consistent inst m H) as (Hc & Hi & _ & _ & _ & Ht).
    destruct Hc. rewrite <- Hi at 1 2. tauto.
  - intros m Hr. destruct (reachable_consistent m Hr).
    repeat split; try assumption; congruence.
  - intros m c m' Hr H. pose proof (reachable_consistent m Hr) as Hc.
    destruct (add_column_consistent c m m' H Hc) as (_ & Hl & Hp & Ht & _).
    apply add_column_frame in H as (_ & _ & HP & _).
    destruct Hc. repeat split; try congruence. lia.
  - intros fuel inst sel k m H. apply main_reachable in H.
    split; [exact H|]. now destruct (reachable_consistent m H).
Qed.

(** ** Soft fixing is undone by its removal *)

Lemma ids_app (a b : list Constr) : ids (a ++ b) = ids a ++ ids b.
Proof. apply map_app. Qed.

Lemma ids_split (cs : list Constr) (a b : list nat) :
  ids cs = a ++ b ->
  exists ca cb, cs = ca ++ cb /\ ids ca = a /\ ids cb = b.
Proof.
  intro H. exists (firstn (length a) cs), (skipn (length a) cs).
  split; [now rewrite firstn_skipn|]. unfold ids in *.
  rewrite <- firstn_map, <- skipn_map, H.
  rewrite firstn_app, skipn_app, Nat.sub_diag, firstn_all, skipn_all.
  simpl. now rewrite app_nil_r.
Qed.

Lemma apply_type_appended (K : sf_type) (m m1 : MP) :
  apply_type K m = Done m1 ->
  same_data m m1 /\
  exists added, appended (set_cover m) (set_cover m1) added /\
                length added = removal_count K m1.
Proof.
  destruct K; simpl; intro H.
  - split; [now apply aggregate_fixing_frame in H|].
    destruct (aggregate_fixing_appended _ _ _ _ H) as (c & Ha).
    now exists [c].
  - split; [now apply soft_fixing_type2_frame in H|].
    destruct (soft_fixing_type2_appended _ _ H) as (a & Ha & Hl).
    exists a. split; [exact Ha|].
    apply soft_fixing_type2_frame in H as ((Hi & _) & _). congruence.
  - split; [now apply aggregate_fixing_frame in H|].
    destruct (aggregate_fixing_appended _ _ _ _ H) as (c & Ha).
    now exists [c].
  - split; [now apply per_item_fixing_frame in H|].
    destruct (per_item_fixing_appended _ _ _ _ H) as (a & Ha & Hl).
    exists a. split; [exact Ha|].
    apply per_item_fixing_frame in H as ((Hi & _) & _). congruence.
  - split; [now apply soft_fixing_type5_frame in H|].
    destruct (soft_fixing_type5_appended _ _ H) as (a & Ha & Hl & _).
    now exists a.
  - split; [now apply soft_fixing_type6_frame in H|].
    destruct (soft_fixing_type6_appended _ _ H) as (c & Ha).
    now exists [c].
  - split; [now apply per_item_fixing_frame in H|].
    destruct (per_item_fixing_appended _ _ _ _ H) as (a & Ha & Hl).
    exists a. split; [exact Ha|].
    apply per_item_fixing_frame in H as ((Hi & _) & _). congruence.
Qed.

Lemma run_cg_consistent (mode : cg_mode) (m m' : MP) :
  run_cg mode m = Done m' -> consistent m ->
  consistent m' /\ committed_from (set_cover m) (set_cover m') /\
  ins m' = ins m /\ cont m' = cont m.
Proof.
  destruct mode; simpl.
  - apply column_generation_consistent.
  - apply column_generation_2_consistent.
Qed.

Lemma remove_type_loop (K : sf_type) (m : MP) :
  remove_type K m =
  (g <- for_range (removal_count K m) (fun _ t => remove_last t) (set_cover m) ;;
   Done (set_set_cover g m)).
Proof.
  destruct K; try reflexivity;
    unfold remove_type, remove_soft_fixing, removal_count, for_range;
    simpl; now destruct (remove_last (set_cover m)).
Qed.

(** The core of the argument: after the constraints [added] have been
    committed behind those of [g], popping [length added] constraints
    restores the committed list of [g] and logs [added] newest first. *)
Lemma pop_added (g g1 g2 : Model) (added : list Constr) :
  pending g = [] ->
  appended g g1 added ->
  committed_from g1 g2 ->
  model_ok g2 ->
  exists g3,
    for_range (length added) (fun _ t => remove_last t) g2 = Done g3 /\
    ids (constrs g2) = ids (constrs g) ++ ids added /\
    ids (constrs g3) = ids (constrs g) /\
    ids (removed g3) = ids (removed g) ++ rev (ids added) /\
    pending g3 = [] /\ removing g3 = [] /\ vars g3 = vars g2.
Proof.
  intros Hp (_ & Hc1 & Hp1 & _ & Hd1 & _ & _ & Hid & _)
         (Hi2 & Hp2 & Hr2 & _ & Hd2) [[Hnd _] _].
  rewrite Hc1, Hp1, Hp, app_nil_l, ids_app in Hi2.
  destruct (ids_split _ _ _ Hi2) as (base & added2 & Hc2 & Hb & Ha).
  assert (Hl : length added = length added2).
  { apply (f_equal (@length nat)) in Ha. unfold ids in Ha.
    now rewrite !length_map in Ha. }
  rewrite Hp2, app_nil_r, Hc2 in Hnd.
  eexists. unfold for_range. rewrite Hl.
  rewrite (remove_loop added2 base g2 0 Hc2 Hp2 Hr2 Hnd).
  split; [reflexivity|]. split; [exact Hi2|]. split; [exact Hb|].
  split; [|repeat split].
  cbn [removed]. rewrite ids_app, Hd2, Hd1. f_equal. unfold ids in *.
  now rewrite map_rev, Ha.
Qed.

Lemma apply_cg_remove (K : sf_type) (mode : cg_mode) (m m1 m2 : MP) :
  consistent m -> pending (set_cover m) = [] ->
  apply_type K m = Done m1 ->
  run_cg mode m1 = Done m2 ->
  exists m3 added,
    remove_type K m2 = Done m3 /\
    pending (set_cover m1) = added /\
    length added = removal_count K m1 /\
    ids (constrs (set_cover m2)) = ids (constrs (set_cover m)) ++ ids added /\
    ids (constrs (set_cover m3)) = ids (constrs (set_cover m)) /\
    ids (removed (set_cover m3))
    = ids (removed (set_cover m)) ++ rev (ids added) /\
    pending (set_cover m3) = [] /\ consistent m3.
Proof.
  intros Hc Hp Happ Hcg.
  destruct (apply_type_appended K m m1 Happ) as (Hd & added & Ha & Hl).
  pose proof (appended_consistent m m1 added Ha Hd Hc) as Hc1.
  destruct (run_cg_consistent mode m1 m2 Hcg Hc1) as (Hc2 & Hcm & Hi2 & Hk2).
  destruct (pop_added _ _ _ added Hp Ha Hcm (consistent_ok m2 Hc2))
    as (g3 & Hloop & Hids2 & Hids3 & Hrem & Hp3 & Hr3 & Hv3).
  assert (Hn : removal_count K m2 = length added).
  { rewrite Hl. destruct K; simpl; congruence. }
  exists (set_set_cover g3 m2), added.
  rewrite remove_type_loop, Hn, Hloop. simpl.
  split; [reflexivity|]. split.
  { destruct Ha as (_ & _ & -> & _). now rewrite Hp. }
  repeat (split; [assumption|]).
  apply (removal_consistent (length added) m2 g3 Hloop Hc2).
Qed.

Lemma ids_length (a b : list Constr) : ids a = ids b -> length a = length b.
Proof.
  intro H. apply (f_equal (@length nat)) in H. unfold ids in H.
  now rewrite !length_map in H.
Qed.

Lemma pair_restores (K : sf_type) (mode : cg_mode) (m m1 m2 m3 : MP) :
  consistent m -> pending (set_cover m) = [] ->
  apply_type K m = Done m1 ->
  run_cg mode m1 = Done m2 ->
  remove_type K m2 = Done m3 ->
  consistent m3 /\ pending (set_cover m3) = [] /\
  ids (constrs (set_cover m3)) = ids (constrs (set_cover m)).
Proof.
  intros Hc Hp Ha Hcg Hr.
  destruct (apply_cg_remove K mode m m1 m2 Hc Hp Ha Hcg)
    as (m3' & added & Hr' & _ & _ & _ & Hids & _ & Hp3 & Hc3).
  rewrite Hr in Hr'. injection Hr' as <-. tauto.
Qed.

Lemma retry_type3_paired (fuel : nat) (base : list nat) (s s' : MP) :
  (exists m0 m1, consistent m0 /\ pending (set_cover m0) = [] /\
                 ids (constrs (set_cover m0)) = base /\
                 apply_type Type3 m0 = Done m1 /\
                 run_cg single_step m1 = Done s) ->
  retry_type3 fuel s = Done s' ->
  exists m0 m1, consistent m0 /\ pending (set_cover m0) = [] /\
                ids (constrs (set_cover m0)) = base /\
                apply_type Type3 m0 = Done m1 /\
                run_cg single_step m1 = Done s'.
Proof.
  revert s. induction fuel as [|fuel IH]; intros s HR H.
  - simpl in H. destruct (column_found s); [discriminate|].
    now injection H as <-.
  - cbn [retry_type3] in H. destruct (column_found s).
    + apply bind_Done in H as (m3 & H3 & H).
      apply bind_Done in H as (m4 & H4 & H).
      apply bind_Done in H as (m5 & H5 & H).
      apply (IH m5); [|exact H].
      destruct HR as (m0 & m1 & Hc & Hp & Hb & Ha & Hcg).
      destruct (pair_restores Type3 single_step m0 m1 s m3 Hc Hp Ha Hcg H3)
        as (Hc3 & Hp3 & Hi3).
      exists m3, m4. split; [exact Hc3|]. split; [exact Hp3|].
      split; [congruence|]. split; [exact H4 | exact H5].
    + now injection H as <-.
Qed.

Lemma dispatch_restores (fuel : nat) (sel : soft_type) (m m' : MP) :
  consistent m -> pending (set_cover m) = [] ->
  dispatch fuel sel m = Done m' ->
  consistent m' /\ pending (set_cover m') = [] /\
  ids (constrs (set_cover m')) = ids (constrs (set_cover m)).
Proof.
  intros Hc Hp H. destruct sel; cbn [dispatch] in H.
  - injection H as <-. tauto.
  - apply bind_Done in H as (m1 & H1 & H).
    apply bind_Done in H as (m2 & H2 & H).
    exact (pair_restores Type1 (exhaustive fuel) m m1 m2 m' Hc Hp H1 H2 H).
  - apply bind_Done in H as (m1 & H1 & H).
    apply bind_Done in H as (m2 & H2 & H).
    exact (pair_restores Type2 (exhaustive fuel) m m1 m2 m' Hc Hp H1 H2 H).
  - apply bind_Done in H as (m1 & H1 & H).
    apply bind_Done in H as (m2 & H2 & H).
    apply bind_Done in H as (s & Hs & H).
    destruct (retry_type3_paired fuel (ids (constrs (set_cover m))) m2 s)
      as (m0 & m1' & Hc0 & Hp0 & Hb0 & Ha0 & Hcg0); [|exact Hs|].
    { exists m, m1. split; [exact Hc|]. split; [exact Hp|].
      split; [reflexivity|]. split; [exact H1 | exact H2]. }
    rewrite <- Hb0.
    exact (pair_restores Type3 single_step m0 m1' s m' Hc0 Hp0 Ha0 Hcg0 H).
  - apply bind_Done in H as (m1 & H1 & H).
    apply bind_Done in H as (m2 & H2 & H).
    exact (pair_restores Type4 (exhaustive fuel) m m1 m2 m' Hc Hp H1 H2 H).
  - apply bind_Done in H as (m1 & H1 & H).
    apply bind_Done in H as (m2 & H2 & H).
    exact (pair_restores Type5 (exhaustive fuel) m m1 m2 m' Hc Hp H1 H2 H).
  - apply bind_Done in H as (m1 & H1 & H).
    apply bind_Done in H as (m2 & H2 & H).
    exact (pair_restores Type6 (exhaustive fuel) m m1 m2 m' Hc Hp H1 H2 H).
  - apply bind_Done in H as (m1 & H1 & H).
    apply bind_Done in H as (m2 & H2 & H).
    apply bind_Done in H as (m3 & H3 & H).
    apply bind_Done in H as (m4 & H4 & H).
    apply bind_Done in H as (m5 & H5 & H).
    destruct (pair_restores Type4 (exhaustive fuel) m m1 m2 m3 Hc Hp H1 H2 H3)
      as (Hc3 & Hp3 & Hi3).
    rewrite <- Hi3.
    exact (pair_restores Type5 (exhaustive fuel) m3 m4 m5 m' Hc3 Hp3 H4 H5 H).
  - apply bind_Done in H as (m1 & H1 & H).
    apply bind_Done in H as (m2 & H2 & H).
    apply bind_Done in H as (m3 & H3 & H).
    apply bind_Done in H as (m4 & H4 & H).
    apply bind_Done in H as (m5 & H5 & H).
    destruct (pair_restores Type5 (exhaustive fuel) m m1 m2 m3 Hc Hp H1 H2 H3)
      as (Hc3 & Hp3 & Hi3).
    rewrite <- Hi3.
    exact (pair_restores Type4 (exhaustive fuel) m3 m4 m5 m' Hc3 Hp3 H4 H5 H).
  - apply bind_Done in H as (m1 & H1 & H).
    apply bind_Done in H as (m2 & H2 & H).
    exact (pair_restores Type7 (exhaustive fuel) m m1 m2 m' Hc Hp H1 H2 H).
Qed.

Lemma solve_IP_settled (m m' : MP) :
  solve_IP m = Done m' -> consistent m -> pending (set_cover m') = [].
Proof.
  intros H Hc.
  destruct (solve_IP_model m m' H (proj2 (consistent_ok m Hc))) as (Hcm & _).
  apply Hcm.
Qed.

(** C1: in a state of a run with nothing pending, for each of the seven
    types: after [apply], a column generation run and the matching
    [remove], the [remove] succeeds and the committed constraints are the
    ones from before the [apply] (same handles, same count).  The
    constraints popped are exactly those the [apply] added, newest first:
    one for Types 1, 3 and 6, [I] for Types 2, 4 and 7, and [cont] for
    Type 5, where [cont] counts the entries of [x_IP] above 0.5.  Every
    branch of the driver's dispatch therefore leaves the constraint list as
    it found it, and the integer solve that precedes it leaves nothing
    pending. *)
Theorem C1_soft_fixing_add_remove :
  (forall K mode m m1 m2,
     reachable m -> pending (set_cover m) = [] ->
     apply_type K m = Done m1 ->
     run_cg mode m1 = Done m2 ->
     exists m3 added,
       remove_type K m2 = Done m3 /\
       pending (set_cover m1) = added /\
       length added = removal_count K m1 /\
       ids (constrs (set_cover m2))
       = ids (constrs (set_cover m)) ++ ids added /\
       length (constrs (set_cover m3)) = length (constrs (set_cover m)) /\
       ids (constrs (set_cover m3)) = ids (constrs (set_cover m)) /\
       ids (removed (set_cover m3))
       = ids (removed (set_cover m)) ++ rev (ids added)) /\
  (forall m m1, soft_fixing_type5 m = Done m1 ->
     cont m1 = length (filter (fun v => Qgtb v 0.5) (x_IP m))) /\
  (forall fuel sel m m',
     reachable m -> pending (set_cover m) = [] ->
     dispatch fuel sel m = Done m' ->
     length (constrs (set_cover m')) = length (constrs (set_cover m)) /\
     ids (constrs (set_cover m')) = ids (constrs (set_cover m))) /\
  (forall m m', reachable m -> solve_IP m = Done m' ->
     pending (set_cover m') = []).
Proof.
  split; [|split; [|split]].
  - intros K mode m m1 m2 Hr Hp Ha Hcg.
    destruct (apply_cg_remove K mode m m1 m2 (reachable_consistent m Hr)
                              Hp Ha Hcg)
      as (m3 & added & H1 & H2 & H3 & H4 & H5 & H6 & _).
    exists m3, added. repeat (split; [assumption|]).
    split; [now apply ids_length|]. now split.
  - intros m m1 H.
    now destruct (soft_fixing_type5_appended m m1 H) as (a & _ & _ & ?).
  - intros fuel sel m m' Hr Hp H.
    destruct (dispatch_restores fuel sel m m' (reachable_consistent m Hr) Hp H)
      as (_ & _ & Hi).
    split; [now apply ids_length | exact Hi].
  - intros m m' Hr H.
    exact (solve_IP_settled m m' H (reachable_consistent m Hr)).
Qed.

(** ** The integer solve *)

Lemma retype_at (vt : vtype) (pre : list Var) (v : Var) (post : list Var)
  (start : nat) :
  map (fun iv : nat * Var =>
         if Nat.eqb (fst iv) (start + length pre)
         then mkVar vt (v_lb (snd iv)) (v_obj (snd iv)) else snd iv)
      (combine (seq start (length (pre ++ v :: post))) (pre ++ v :: post))
  = pre ++ mkVar vt (v_lb v) (v_obj v) :: post.
Proof.
  revert start. induction pre as [|a pre IH]; intro start.
  - simpl. rewrite Nat.add_0_r, Nat.eqb_refl. f_equal.
    assert (H : forall (l : list Var) s, (start < s)%nat ->
              map (fun iv : nat * Var =>
                     if Nat.eqb (fst iv) start
                     then mkVar vt (v_lb (snd iv)) (v_obj (snd iv))
                     else snd iv)
                  (combine (seq s (length l)) l) = l).
    { induction l as [|b l IHl]; intros s Hs; [reflexivity|].
      simpl. destruct (Nat.eqb_spec s start); [lia|].
      f_equal. apply IHl. lia. }
    apply H. lia.
  - simpl. destruct (Nat.eqb_spec start (start + Datatypes.S (length pre)));
      [lia|].
    f_equal. specialize (IH (Datatypes.S start)).
    replace (Datatypes.S start + length pre)%nat
      with (start + Datatypes.S (length pre))%nat in IH by lia.
    exact IH.
Qed.

Lemma set_vars_set_vars (a b : list Var) (g : Model) :
  set_vars a (set_vars b g) = set_vars a g.
Proof. reflexivity. Qed.

Lemma set_all_vtypes_Done (vt : vtype) (m : MP) :
  x m = seq 0 (length (vars (set_cover m))) ->
  set_all_vtypes vt m
  = Done (set_vars (retype_all vt (vars (set_cover m))) (set_cover m)).
Proof.
  intro Hx. unfold set_all_vtypes, for_range. rewrite Hx, length_seq.
  set (g := set_cover m). set (vs := vars g).
  destruct (for_from_ok
              (fun i t => t = set_vars (retype_all vt (firstn i vs)
                                        ++ skipn i vs) g)
              (fun i t => xi <- index (seq 0 (length vs)) i ;;
                          Done (set_vtype xi vt t))
              (length vs) 0 g) as (g' & Hrun & Hg').
  - simpl. unfold vs. now destruct g.
  - intros i t Hi ->.
    rewrite (index_lt (seq 0 (length vs)) i 0%nat)
      by (rewrite length_seq; lia).
    rewrite seq_nth by lia. cbn [bind Nat.add]. eexists. split; [reflexivity|].
    unfold set_vtype. rewrite set_vars_set_vars. f_equal.
    cbn [vars set_vars].
    destruct (nth_error vs i) as [v|] eqn:Ev;
      [|apply nth_error_None in Ev; lia].
    assert (Hsk : skipn i vs = v :: skipn (Datatypes.S i) vs).
    { rewrite <- (firstn_skipn_middle i vs Ev) at 1.
      rewrite skipn_app, length_firstn, skipn_all2
        by (rewrite length_firstn; lia).
      replace (i - Nat.min i (length vs))%nat with 0%nat by lia.
      reflexivity. }
    rewrite Hsk. unfold retype_all.
    rewrite (firstn_S_index vs i v) by now apply index_Done.
    rewrite map_app, <- app_assoc. cbn [map app].
    set (pre := map (fun v0 => mkVar vt (v_lb v0) (v_obj v0)) (firstn i vs)).
    assert (Hl : length pre = i).
    { unfold pre. rewrite length_map, length_firstn. lia. }
    pose proof (retype_at vt pre v (skipn (Datatypes.S i) vs) 0) as Hat.
    rewrite Hl in Hat. exact Hat.
  - simpl in Hg'. rewrite Hrun. f_equal. rewrite Hg'.
    now rewrite firstn_all, skipn_all, app_nil_r.
Qed.

Lemma positive_prefix_step (sol : list Q) (i : nat) (v : Q) :
  nth_error sol i = Some v ->
  (map positive_part (firstn i sol) ++ repeat 0 (length sol - i)
   = map positive_part (firstn i sol) ++ 0 :: repeat 0 (length sol - i - 1)) /\
  length (map positive_part (firstn i sol)) = i /\
  map positive_part (firstn (Datatypes.S i) sol)
  ++ repeat 0 (length sol - Datatypes.S i)
  = map positive_part (firstn i sol)
    ++ positive_part v :: repeat 0 (length sol - i - 1).
Proof.
  intro Ev.
  assert (Hi : (i < length sol)%nat) by (apply nth_error_Some; congruence).
  repeat split.
  - f_equal. destruct (length sol - i)%nat as [|k] eqn:Ek; [lia|].
    simpl. now rewrite Nat.sub_0_r.
  - rewrite length_map, length_firstn. lia.
  - rewrite (firstn_S_index sol i v) by now apply index_Done.
    rewrite map_app, <- app_assoc. simpl.
    now replace (length sol - Datatypes.S i)%nat with (length sol - i - 1)%nat by lia.
Qed.

Lemma assign_app_at {A} (pre : list A) (a v : A) (post : list A) (i : nat) :
  length pre = i -> assign (pre ++ a :: post) i v = Done (pre ++ v :: post).
Proof. intros <-. apply assign_app_here. Qed.

Lemma positive_loop (sol : list Q) :
  for_from 0 (length sol)
    (fun i xip =>
       xi <- index (seq 0 (length sol)) i ;;
       v <- index sol xi ;;
       if Qgtb v 0 then assign xip i v else Done xip)
    (repeat 0 (length sol))
  = Done (map positive_part sol).
Proof.
  destruct (for_from_ok
              (fun i t => t = map positive_part (firstn i sol)
                              ++ repeat 0 (length sol - i))
              (fun i xip =>
                 xi <- index (seq 0 (length sol)) i ;;
                 v <- index sol xi ;;
                 if Qgtb v 0 then assign xip i v else Done xip)
              (length sol) 0 (repeat 0 (length sol))) as (r & Hrun & Hr).
  - simpl. now rewrite Nat.sub_0_r.
  - intros i t Hi ->.
    rewrite (index_lt (seq 0 (length sol)) i 0%nat)
      by (rewrite length_seq; lia).
    rewrite seq_nth by lia. cbn [bind Nat.add].
    destruct (nth_error sol i) as [v|] eqn:Ev;
      [|apply nth_error_None in Ev; lia].
    rewrite (proj2 (index_Done sol i v) Ev). cbn [bind].
    destruct (positive_prefix_step sol i v Ev) as (E0 & El & ES).
    rewrite ES. clear ES.
    assert (Epp : positive_part v = if Qgtb v 0 then v else 0) by reflexivity.
    destruct (Qgtb v 0); rewrite Epp, E0.
    + rewrite (assign_app_at _ _ _ _ _ El). eauto.
    + eauto.
  - rewrite Hrun. f_equal. rewrite Hr. simpl.
    now rewrite firstn_all, Nat.sub_diag, app_nil_r.
Qed.

Lemma rounded_total_snoc (l : list Q) (v : Q) :
  rounded_total (l ++ [v])
  = (rounded_total l + (if Qgtb v 0 then ceil v else 0))%Z.
Proof.
  unfold rounded_total. now rewrite map_app, fold_left_app.
Qed.

Lemma round_loop (sol : list Q) :
  for_from 0 (length sol)
    (fun i '(xr, total) =>
       xi <- index (seq 0 (length sol)) i ;;
       v <- index sol xi ;;
       if Qgtb v 0 then
         xr' <- assign xr i v ;;
         Done (xr', (total + ceil v)%Z)
       else Done (xr, total))
    (repeat 0 (length sol), 0%Z)
  = Done (map positive_part sol, rounded_total sol).
Proof.
  destruct (for_from_ok
              (fun i t => t = (map positive_part (firstn i sol)
                               ++ repeat 0 (length sol - i),
                               rounded_total (firstn i sol)))
              (fun i '(xr, total) =>
                 xi <- index (seq 0 (length sol)) i ;;
                 v <- index sol xi ;;
                 if Qgtb v 0 then
                   xr' <- assign xr i v ;;
                   Done (xr', (total + ceil v)%Z)
                 else Done (xr, total))
              (length sol) 0 (repeat 0 (length sol), 0%Z)) as (r & Hrun & Hr).
  - simpl. now rewrite Nat.sub_0_r.
  - intros i t Hi ->.
    rewrite (index_lt (seq 0 (length sol)) i 0%nat)
      by (rewrite length_seq; lia).
    rewrite seq_nth by lia. cbn [bind Nat.add].
    destruct (nth_error sol i) as [v|] eqn:Ev;
      [|apply nth_error_None in Ev; lia].
    rewrite (proj2 (index_Done sol i v) Ev). cbn [bind].
    destruct (positive_prefix_step sol i v Ev) as (E0 & El & ES).
    rewrite ES, (firstn_S_index sol i v) by now apply index_Done.
    rewrite rounded_total_snoc. clear ES.
    assert (Epp : positive_part v = if Qgtb v 0 then v else 0) by reflexivity.
    destruct (Qgtb v 0); rewrite Epp, E0.
    + rewrite (assign_app_at _ _ _ _ _ El). cbn [bind]. eauto.
    + rewrite Z.add_0_r. eauto.
  - rewrite Hrun. f_equal. rewrite Hr. simpl.
    now rewrite firstn_all, Nat.sub_diag, app_nil_r.
Qed.

Lemma integer_model_facts (g : Model) :
  length (sol_X (integer_model g)) = length (vars g) /\
  map v_obj (vars (integer_model g)) = map v_obj (vars g) /\
  pending (integer_model g) = [] /\ removing (integer_model g) = [].
Proof.
  unfold integer_model, optimize. simpl.
  rewrite length_map, length_seq. unfold retype_all.
  rewrite length_map, map_map. simpl. tauto.
Qed.

Lemma solve_IP_Done (m : MP) :
  consistent m -> solve_IP m = Done (ip_state m).
Proof.
  intro Hc. destruct Hc as [_ _ _ _ _ _ Hx _ _ _].
  unfold solve_IP.
  rewrite set_all_vtypes_Done by exact Hx. cbn [bind].
  cbn [set_cover set_x_IP set_set_cover set_Z_IP x x_IP].
  fold (integer_model (set_cover m)).
  destruct (integer_model_facts (set_cover m)) as (Hl & _).
  unfold for_range, X_of. rewrite Hx, length_seq, <- Hl.
  rewrite positive_loop. reflexivity.
Qed.

Lemma round_solution_Done (m : MP) :
  x m = seq 0 (length (sol_X (set_cover m))) ->
  round_solution m
  = Done (set_rounded (rounded_total (sol_X (set_cover m)))
                      (set_x_rel (map positive_part (sol_X (set_cover m))) m)).
Proof.
  intro Hx. unfold round_solution, for_range, X_of.
  rewrite Hx, length_seq, round_loop. reflexivity.
Qed.

(** ** The rounded solution *)





(** ** The baseline stage and the integer solves *)

Lemma baseline_state (fuel : nat) (inst : Instance) (m : MP) :
  baseline fuel inst = Done m ->
  reachable m /\ best_IP m = PosInf /\ pending (set_cover m) = [] /\
  pattern m <> [] /\
  exists m1, reachable m1 /\ m = report_solution 0 (ip_state m1).
Proof.
  unfold baseline. intro H.
  apply bind_Done in H as (m0 & H0 & H).
  apply bind_Done in H as (r0 & _ & H).
  apply bind_Done in H as (m1 & H1 & H).
  apply bind_Done in H as (m2 & H2 & H).
  apply bind_Done in H as (r2 & Hr2 & H). injection H as <-.
  assert (R0 : reachable m0) by now apply (reach_build inst).
  assert (R1 : reachable m1)
    by now apply (reach_call (call_column_generation fuel) m0).
  assert (R2 : reachable m2) by now apply (reach_call call_solve_IP m1).
  split; [now apply (reach_call (call_report_solution 0) m2)|].
  split.
  { apply build_model_frame in H0 as ((_ & Hb0) & _).
    apply column_generation_bounds in H1 as (_ & Hb1 & _).
    apply solve_IP_frame in H2 as (_ & (_ & Hb2) & _).
    unfold report_solution. cbn [best_IP set_columns_added].
    rewrite Hb2, Hb1, Hb0. reflexivity. }
  split.
  { simpl. apply (solve_IP_settled m1 m2 H2). now apply reachable_consistent. }
  split.
  { simpl. intro E. rewrite E in Hr2. discriminate. }
  exists m1. split; [exact R1|].
  rewrite solve_IP_Done in H2 by now apply reachable_consistent.
  now injection H2 as <-.
Qed.

Lemma retype_all_idem (vt : vtype) (vs : list Var) :
  retype_all vt (retype_all vt vs) = retype_all vt vs.
Proof. unfold retype_all. now rewrite map_map. Qed.

Lemma integer_model_idem (g : Model) :
  integer_model (integer_model g) = integer_model g.
Proof.
  unfold integer_model at 1.
  assert (Hv : retype_all INTEGER (vars (integer_model g))
               = vars (integer_model g)).
  { unfold integer_model. cbn [vars optimize update set_solution set_vars].
    apply retype_all_idem. }
  rewrite Hv.
  assert (Hs : set_vars (vars (integer_model g)) (integer_model g)
               = integer_model g) by reflexivity.
  rewrite Hs, (update_settled (integer_model g)) by reflexivity.
  unfold optimize at 1. rewrite (update_settled (integer_model g))
    by reflexivity.
  reflexivity.
Qed.

Lemma ip_state_fixed (a : Q) (b : enum) (f : bool) (m : MP) :
  ip_state (with_schedule a b f (ip_state m))
  = with_schedule a b f (ip_state m).
Proof.
  unfold ip_state at 1.
  assert (E : set_cover (with_schedule a b f (ip_state m))
              = integer_model (set_cover m)) by reflexivity.
  rewrite E, integer_model_idem. reflexivity.
Qed.

Lemma with_schedule_consistent (a : Q) (b : enum) (f : bool) (m : MP) :
  consistent m -> consistent (with_schedule a b f m).
Proof.
  intro Hc. apply (consistent_same m _ Hc); [|reflexivity].
  unfold same_data. repeat split.
Qed.

Lemma ip_state_consistent (m : MP) : consistent m -> consistent (ip_state m).
Proof.
  intro Hc. apply (solve_IP_consistent m); [|exact Hc].
  now apply solve_IP_Done.
Qed.

(** C6 (as the code has it): in every state of a run [solve_IP] returns; it
    stores the integer primal vector in [x_IP] (entries that are not
    positive are stored as 0) and the objective in [Z_IP], and leaves
    [best_IP] as it was.  [best_IP] is updated by [update_alpha], which makes
    it the smaller of [best_IP] and [Z_IP].  The baseline stage calls
    [solve_IP] but not [update_alpha], so it ends with [best_IP] still
    infinite; the first [update_alpha] of the outer loop then records the
    current [Z_IP]. *)
Theorem C6_solve_IP_leaves_best_IP :
  (forall m, reachable m ->
     exists m', solve_IP m = Done m' /\
       x_IP m' = map positive_part (sol_X (set_cover m')) /\
       Z_IP m' = Fin (objective_value (set_cover m')) /\
       best_IP m' = best_IP m) /\
  (forall m, best_IP (snd (update_alpha m)) = emin (best_IP m) (Z_IP m)) /\
  (forall fuel inst m, baseline fuel inst = Done m -> best_IP m = PosInf) /\
  (forall m z, best_IP m = PosInf -> Z_IP m = Fin z ->
     update_alpha m = (Val 0.9, set_alpha 0.9 (set_best_IP (Fin z) m))).
Proof.
  split; [|split; [|split]].
  - intros m Hr. exists (ip_state m).
    split; [apply solve_IP_Done; now apply reachable_consistent|].
    repeat split.
  - intro m. apply update_alpha_bounds.
  - intros fuel inst m H. now apply baseline_state in H.
  - intros m z Hb HZ. unfold update_alpha. rewrite Hb, HZ. reflexivity.
Qed.

(** ** The outer loop without soft fixing *)

Lemma outer_loop_sel0 (fuel k : nat) (m : MP) :
  consistent m ->
  outer_loop (Datatypes.S fuel) sel0 k m =
  match fst (update_alpha (ip_state m)) with
  | End =>
      _ <- index (pattern (snd (update_alpha (ip_state m)))) 0 ;;
      Done (Datatypes.S k,
            report_solution (Datatypes.S k) (snd (update_alpha (ip_state m))))
  | Val _ =>
      outer_loop fuel sel0 (Datatypes.S k)
        (report_solution (Datatypes.S k) (snd (update_alpha (ip_state m))))
  end.
Proof.
  intro Hc. apply (outer_loop_step fuel sel0 k m m (ip_state m)).
  - reflexivity.
  - now apply solve_IP_Done.
Qed.

Lemma report_improved (k : nat) (a : Q) (b : enum) (s : MP) :
  report_solution k (set_alpha a (set_best_IP b s))
  = with_schedule a b (column_flag s) s.
Proof. reflexivity. Qed.

Lemma report_flag_cleared (k : nat) (a a' : Q) (b : enum) (f : bool) (s : MP) :
  report_solution k (set_column_flag false (set_alpha a' (with_schedule a b f s)))
  = with_schedule a' b false s.
Proof. reflexivity. Qed.

Lemma report_decremented (k : nat) (a a' : Q) (b : enum) (f : bool) (s : MP) :
  report_solution k (set_alpha a' (with_schedule a b f s))
  = with_schedule a' b f s.
Proof. reflexivity. Qed.

Lemma report_scheduled (k : nat) (a : Q) (b : enum) (f : bool) (s : MP) :
  report_solution k (with_schedule a b f s) = with_schedule a b f s.
Proof. reflexivity. Qed.

Lemma update_alpha_improves (s : MP) (z : Q) :
  Z_IP s = Fin z -> best_IP s = PosInf ->
  update_alpha s = (Val 0.9, set_alpha 0.9 (set_best_IP (Fin z) s)).
Proof. intros HZ Hb. unfold update_alpha. rewrite HZ, Hb. reflexivity. Qed.

Lemma update_alpha_scheduled (a z : Q) (f : bool) (s : MP) :
  Z_IP s = Fin z ->
  update_alpha (with_schedule a (Fin z) f s) =
  if f then
    (Val 0.9, set_column_flag false
                (set_alpha 0.9 (with_schedule a (Fin z) f s)))
  else if Qgtb a (0.1 + alpha_tolerance) then
    (Val (a - 0.1), set_alpha (a - 0.1) (with_schedule a (Fin z) f s))
  else (End, with_schedule a (Fin z) f s).
Proof.
  intro HZ. unfold update_alpha.
  assert (E1 : Z_IP (with_schedule a (Fin z) f s) = Z_IP s) by reflexivity.
  assert (E2 : best_IP (with_schedule a (Fin z) f s) = Fin z) by reflexivity.
  assert (E3 : column_flag (with_schedule a (Fin z) f s) = f) by reflexivity.
  assert (E4 : alpha (with_schedule a (Fin z) f s) = a) by reflexivity.
  rewrite E1, E2, E3, E4, HZ. cbn [eltb]. rewrite Qltb_irrefl.
  reflexivity.
Qed.

(** The loop from a state [s] that the integer solve leaves alone, whatever
    the schedule attributes are. *)
Section Selector0.

Variable s : MP.
Variable z : Q.
Hypothesis s_consistent : consistent s.
Hypothesis s_Z_IP : Z_IP s = Fin z.
Hypothesis s_fixed :
  forall a b f, ip_state (with_schedule a b f s) = with_schedule a b f s.
Hypothesis s_pattern : pattern s <> [].

Lemma sel0_scheduled (fuel k : nat) (a : Q) (f : bool) :
  outer_loop (Datatypes.S fuel) sel0 k (with_schedule a (Fin z) f s) =
  if f then
    outer_loop fuel sel0 (Datatypes.S k) (with_schedule 0.9 (Fin z) false s)
  else if Qgtb a (0.1 + alpha_tolerance) then
    outer_loop fuel sel0 (Datatypes.S k)
               (with_schedule (a - 0.1) (Fin z) false s)
  else Done (Datatypes.S k, with_schedule a (Fin z) false s).
Proof.
  rewrite outer_loop_sel0 by now apply with_schedule_consistent.
  rewrite s_fixed, (update_alpha_scheduled a z f s s_Z_IP).
  destruct f; cbn [fst snd].
  - now rewrite report_flag_cleared.
  - destruct (Qgtb a (0.1 + alpha_tolerance)); cbn [fst snd].
    + now rewrite report_decremented.
    + rewrite report_scheduled.
      assert (E : pattern (with_schedule a (Fin z) false s) = pattern s)
        by reflexivity.
      rewrite E. destruct (pattern s); [now contradiction s_pattern|].
      reflexivity.
Qed.

Lemma sel0_countdown (fuel k : nat) :
  outer_loop (9 + fuel) sel0 k (with_schedule 0.9 (Fin z) false s) =
  Done ((9 + k)%nat,
        with_schedule (0.9 - 0.1 - 0.1 - 0.1 - 0.1 - 0.1 - 0.1 - 0.1 - 0.1)
                      (Fin z) false s).
Proof.
  cbn [Nat.add].
  do 8 (rewrite sel0_scheduled;
        match goal with
        | |- context [Qgtb ?a ?b] =>
            replace (Qgtb a b) with true by (vm_compute; reflexivity)
        end; cbv iota).
  rewrite sel0_scheduled.
  match goal with
  | |- context [Qgtb ?a ?b] =>
      replace (Qgtb a b) with false by (vm_compute; reflexivity)
  end.
  reflexivity.
Qed.

Lemma sel0_from_schedule (fuel k : nat) (f : bool) :
  exists s',
    outer_loop (10 + fuel) sel0 k (with_schedule 0.9 (Fin z) f s)
    = Done (((if f then 10 else 9) + k)%nat, s') /\
    best_IP s' = Fin z /\ alpha s' == 0.1 /\ column_flag s' = false /\
    total_column s' = total_column s.
Proof.
  eexists. split.
  - destruct f.
    + change (10 + fuel)%nat with (Datatypes.S (9 + fuel)).
      rewrite sel0_scheduled. cbv iota.
      rewrite sel0_countdown. reflexivity.
    + change (10 + fuel)%nat with (9 + Datatypes.S fuel)%nat.
      rewrite sel0_countdown. reflexivity.
  - split; [reflexivity|]. split; [reflexivity|]. split; reflexivity.
Qed.

End Selector0.

Lemma sel0_first (fuel k : nat) (m : MP) :
  consistent m -> best_IP m = PosInf ->
  outer_loop (Datatypes.S fuel) sel0 k m =
  outer_loop fuel sel0 (Datatypes.S k)
    (with_schedule 0.9 (Fin (objective_value (integer_model (set_cover m))))
                   (column_flag m) (ip_state m)).
Proof.
  intros Hc Hb. rewrite (outer_loop_sel0 fuel k m Hc).
  rewrite (update_alpha_improves (ip_state m)
             (objective_value (integer_model (set_cover m))));
    [| reflexivity | exact Hb].
  cbn [fst snd]. now rewrite report_improved.
Qed.

(** C7 (as the code has it): the baseline stage ends in a state of the run
    with [best_IP] still infinite.  From such a state, with selector 0 the
    outer loop runs no column generation and ends after exactly 10
    iterations when [column_flag] is clear and 11 when the baseline column
    generation had set it: the first iteration records the integer
    objective as [best_IP], a set flag costs one more iteration that clears
    it, eight iterations take [alpha] from 0.9 down to 0.1, and the last one
    returns ['End'].  [best_IP] ends as the integer objective of the model
    the loop started from, and no column is added. *)
Theorem C7_selector0_iterations :
  (forall fuel inst m, baseline fuel inst = Done m ->
     reachable m /\ best_IP m = PosInf /\ pattern m <> [] /\
     Z_IP m = Fin (objective_value (integer_model (set_cover m)))) /\
  (forall m fuel k,
     reachable m -> best_IP m = PosInf -> pattern m <> [] ->
     exists m',
       outer_loop (11 + fuel) sel0 k m
       = Done (((if column_flag m then 11 else 10) + k)%nat, m') /\
       best_IP m' = Fin (objective_value (integer_model (set_cover m))) /\
       alpha m' == 0.1 /\ column_flag m' = false /\
       total_column m' = total_column m).
Proof.
  split.
  - intros fuel inst m H.
    destruct (baseline_state fuel inst m H)
      as (Hr & Hb & _ & Hp & m1 & _ & ->).
    repeat (split; [assumption|]).
    cbn [Z_IP report_solution set_columns_added ip_state set_x_IP set_Z_IP
         set_cover set_set_cover].
    now rewrite integer_model_idem.
  - intros m fuel k Hr Hb Hp.
    pose proof (reachable_consistent m Hr) as Hc.
    change (11 + fuel)%nat with (Datatypes.S (10 + fuel)).
    rewrite (sel0_first _ k m Hc Hb).
    destruct (sel0_from_schedule (ip_state m)
                (objective_value (integer_model (set_cover m)))
                (ip_state_consistent m Hc) eq_refl
                (fun a b f => ip_state_fixed a b f m) Hp
                fuel (Datatypes.S k) (column_flag m))
      as (s' & Hrun & Hbest & Ha & Hf & Ht).
    exists s'. rewrite Hrun. split.
    + destruct (column_flag m); do 2 f_equal; lia.
    + repeat split; assumption.
Qed.

(** ** The two schedules in a run *)

Lemma same_schedule_refl (m : MP) : same_schedule m m.
Proof. split; reflexivity. Qed.

Lemma same_schedule_trans (m1 m2 m3 : MP) :
  same_schedule m1 m2 -> same_schedule m2 m3 -> same_schedule m1 m3.
Proof. unfold same_schedule. intros [? ?] [? ?]. split; congruence. Qed.

Lemma relax_lp_schedule (m m' : MP) :
  relax_lp m = Done m' -> same_schedule m m'.
Proof. unfold relax_lp. intro H. frame H. Qed.

Lemma add_column_schedule (c : list Q) (m m' : MP) :
  add_column c m = Done m' -> same_schedule m m'.
Proof. unfold add_column. intro H. frame H. Qed.

Lemma round_solution_schedule (m m' : MP) :
  round_solution m = Done m' -> same_schedule m m'.
Proof. unfold round_solution. intro H. frame H. Qed.

Lemma solve_IP_schedule (m m' : MP) :
  solve_IP m = Done m' -> same_schedule m m'.
Proof. unfold solve_IP. intro H. frame H. Qed.

Lemma aggregate_fixing_schedule (sel : Q -> bool) (factor : Q) (m m' : MP) :
  aggregate_fixing sel factor m = Done m' -> same_schedule m m'.
Proof. unfold aggregate_fixing. intro H. frame H. Qed.

Lemma per_item_fixing_schedule (sel : Q -> bool) (factor : Q) (m m' : MP) :
  per_item_fixing sel factor m = Done m' -> same_schedule m m'.
Proof. unfold per_item_fixing. intro H. frame H. Qed.

Lemma soft_fixing_type2_schedule (m m' : MP) :
  soft_fixing_type2 m = Done m' -> same_schedule m m'.
Proof. unfold soft_fixing_type2. intro H. frame H. Qed.

Lemma soft_fixing_type5_schedule (m m' : MP) :
  soft_fixing_type5 m = Done m' -> same_schedule m m'.
Proof. unfold soft_fixing_type5. intro H. frame H. Qed.

Lemma soft_fixing_type6_schedule (m m' : MP) :
  soft_fixing_type6 m = Done m' -> same_schedule m m'.
Proof. unfold soft_fixing_type6. intro H. frame H. Qed.

Lemma remove_soft_fixing_schedule (m m' : MP) :
  remove_soft_fixing m = Done m' -> same_schedule m m'.
Proof. unfold remove_soft_fixing. intro H. frame H. Qed.

Lemma remove_soft_fixing_type2_schedule (m m' : MP) :
  remove_soft_fixing_type2 m = Done m' -> same_schedule m m'.
Proof. unfold remove_soft_fixing_type2. intro H. frame H. Qed.

Lemma remove_soft_fixing_type5_schedule (m m' : MP) :
  remove_soft_fixing_type5 m = Done m' -> same_schedule m m'.
Proof. unfold remove_soft_fixing_type5. intro H. frame H. Qed.

Lemma solve_relaxation_schedule (m m' : MP) :
  solve_relaxation m = Done m' -> same_schedule m m'.
Proof.
  unfold solve_relaxation. intro H.
  apply bind_Done in H as (m1 & H1 & H). injection H as <-.
  apply relax_lp_schedule in H1.
  destruct (eltb _ _); exact H1.
Qed.

Lemma column_generation_schedule (fuel : nat) (m m' : MP) :
  column_generation fuel m = Done m' -> same_schedule m m'.
Proof.
  revert m. induction fuel as [|fuel IH]; intros m H; [discriminate|].
  cbn [column_generation] in H.
  apply bind_Done in H as (m1 & H1 & H).
  apply bind_Done in H as (pi & _ & H).
  apply bind_Done in H as (coluna & _ & H).
  apply solve_relaxation_schedule in H1.
  destruct coluna as [c|].
  - apply bind_Done in H as (m2 & H2 & H).
    apply add_column_schedule in H2. apply IH in H.
    eauto using same_schedule_trans.
  - apply bind_Done in H as (m2 & H2 & H). injection H as <-.
    apply round_solution_schedule in H2.
    apply (same_schedule_trans m m1); [exact H1|]. exact H2.
Qed.

Lemma column_generation_2_schedule (m m' : MP) :
  column_generation_2 m = Done m' -> same_schedule m m'.
Proof.
  unfold column_generation_2. intro H.
  apply bind_Done in H as (m1 & H1 & H).
  apply bind_Done in H as (pi & _ & H).
  apply bind_Done in H as (coluna & _ & H).
  apply solve_relaxation_schedule in H1.
  destruct coluna as [c|].
  - apply add_column_schedule in H.
    apply (same_schedule_trans m m1); [exact H1 | exact H].
  - apply round_solution_schedule in H.
    apply (same_schedule_trans m m1); [exact H1 | exact H].
Qed.

Lemma bounds_return_schedule (m m' : MP) :
  bounds_return m = Done m' -> same_schedule m m'.
Proof.
  unfold bounds_return. intro H.
  apply bind_Done in H as (m1 & H1 & H).
  apply relax_lp_schedule in H1. apply solve_IP_schedule in H.
  apply (same_schedule_trans m m1); [exact H1 | exact H].
Qed.

Lemma Qgtb_comp (a a' b : Q) : a == a' -> Qgtb a b = Qgtb a' b.
Proof.
  intro E. destruct (Qgtb a' b) eqn:E'.
  - apply Qgtb_gt. apply Qgtb_gt in E'. now rewrite E.
  - apply Qgtb_le. apply Qgtb_le in E'. now rewrite E.
Qed.

Lemma alpha_level_range (a : Q) : alpha_level a -> 0.1 <= a /\ a <= 0.9.
Proof.
  intros (k & Hk & E).
  assert (Hc : (k = 0 \/ k = 1 \/ k = 2 \/ k = 3 \/ k = 4 \/ k = 5 \/ k = 6
                \/ k = 7 \/ k = 8)%nat) by lia.
  decompose [or] Hc; subst k; rewrite E; split; vm_compute; discriminate.
Qed.

Lemma alpha_level_step (a : Q) :
  alpha_level a -> Qgtb a (0.1 + alpha_tolerance) = true ->
  alpha_level (a - 0.1).
Proof.
  intros (k & Hk & E) Hg. rewrite (Qgtb_comp _ _ _ E) in Hg.
  assert (Hc : (k = 0 \/ k = 1 \/ k = 2 \/ k = 3 \/ k = 4 \/ k = 5 \/ k = 6
                \/ k = 7 \/ k = 8)%nat) by lia.
  decompose [or] Hc; subst k;
    try (exists 8%nat; vm_compute in Hg; discriminate Hg);
    match goal with
    | |- alpha_level (_ - _) =>
        match type of E with
        | _ == _ - inject_Z (Z.of_nat ?k) * _ =>
            exists (Datatypes.S k); split; [lia|]; rewrite E; reflexivity
        end
    end.
Qed.

Lemma update_alpha_level (m : MP) :
  alpha_level (alpha m) -> alpha_level (alpha (snd (update_alpha m))).
Proof.
  intro H. unfold update_alpha.
  destruct (eltb _ _); [exists 0%nat; split; [lia | reflexivity]|].
  destruct (column_flag m); [exists 0%nat; split; [lia | reflexivity]|].
  destruct (Qgtb _ _) eqn:E; [|exact H].
  now apply alpha_level_step.
Qed.

Lemma update_alpha_beta (m : MP) : beta (snd (update_alpha m)) = beta m.
Proof.
  unfold update_alpha.
  destruct (eltb _ _); [reflexivity|].
  destruct (column_flag m); [reflexivity|].
  destruct (Qgtb _ _); reflexivity.
Qed.

Lemma update_beta_alpha (m : MP) : alpha (snd (update_beta m)) = alpha m.
Proof.
  unfold update_beta.
  destruct (eltb _ _); [reflexivity|].
  destruct (_ <? _)%Z; reflexivity.
Qed.

Lemma update_beta_range (m : MP) :
  (2 <= beta m <= 20)%Z -> (2 <= beta (snd (update_beta m)) <= 20)%Z.
Proof.
  intro H. unfold update_beta.
  destruct (eltb _ _); [simpl; lia|].
  destruct (2 <? beta m)%Z eqn:E; [|exact H].
  apply Z.ltb_lt in E. simpl. lia.
Qed.

Lemma call_schedule (me : method) (m m' : MP) :
  call me m = Done m' ->
  alpha_level (alpha m) /\ (2 <= beta m <= 20)%Z ->
  alpha_level (alpha m') /\ (2 <= beta m' <= 20)%Z.
Proof.
  assert (Hs : same_schedule m m' ->
               alpha_level (alpha m) /\ (2 <= beta m <= 20)%Z ->
               alpha_level (alpha m') /\ (2 <= beta m' <= 20)%Z).
  { intros [-> ->]. tauto. }
  destruct me; simpl; intro H.
  - apply Hs. now apply relax_lp_schedule.
  - apply Hs. now apply (add_column_schedule coluna).
  - apply Hs. now apply (column_generation_schedule fuel).
  - apply Hs. now apply column_generation_2_schedule.
  - apply Hs. now apply solve_IP_schedule.
  - apply Hs. now apply (aggregate_fixing_schedule _ _ _ _ H).
  - apply Hs. now apply soft_fixing_type2_schedule.
  - apply Hs. now apply (aggregate_fixing_schedule _ _ _ _ H).
  - apply Hs. now apply (per_item_fixing_schedule _ _ _ _ H).
  - apply Hs. now apply soft_fixing_type5_schedule.
  - apply Hs. now apply soft_fixing_type6_schedule.
  - apply Hs. now apply (per_item_fixing_schedule _ _ _ _ H).
  - apply Hs. now apply remove_soft_fixing_schedule.
  - apply Hs. now apply remove_soft_fixing_type2_schedule.
  - apply Hs. now apply remove_soft_fixing_type5_schedule.
  - injection H as <-. intros [Ha Hb]. split.
    + now apply update_alpha_level.
    + now rewrite update_alpha_beta.
  - injection H as <-. intros [Ha Hb]. split.
    + now rewrite update_beta_alpha.
    + now apply update_beta_range.
  - injection H as <-. apply Hs. split; reflexivity.
  - apply Hs. now apply bounds_return_schedule.
Qed.

Lemma build_model_schedule (m m' : MP) :
  build_model m = Done m' -> same_schedule m m'.
Proof.
  unfold build_model. intro H.
  apply bind_Done in H as ([p m0] & Hi & H).
  apply initial_state in Hi as (M' & ->). frame H.
Qed.

Lemma reachable_schedule (m : MP) :
  reachable m -> alpha_level (alpha m) /\ (2 <= beta m <= 20)%Z.
Proof.
  induction 1 as [inst m H | me m m' _ IH H].
  - apply build_model_schedule in H as [-> ->]. split.
    + exists 0%nat. split; [lia | reflexivity].
    + simpl. lia.
  - now apply (call_schedule me m m').
Qed.

(** ** Counts and sums *)

Lemma is_count_0 : is_count 0.
Proof. exists 0%Z. split; [reflexivity | lia]. Qed.

Lemma is_count_plus (a b : Q) : is_count a -> is_count b -> is_count (a + b).
Proof.
  intros (p & Hp & Hp0) (q & Hq & Hq0). exists (p + q)%Z. split; [|lia].
  now rewrite inject_Z_plus, Hp, Hq.
Qed.

Lemma is_count_mult (a b : Q) : is_count a -> is_count b -> is_count (a * b).
Proof.
  intros (p & Hp & Hp0) (q & Hq & Hq0). exists (p * q)%Z. split; [|nia].
  now rewrite inject_Z_mult, Hp, Hq.
Qed.

Lemma is_count_comp (a b : Q) : a == b -> is_count a -> is_count b.
Proof. intros E (p & Hp & Hp0). exists p. split; [now rewrite <- E | exact Hp0]. Qed.

Lemma is_count_nonneg (a : Q) : is_count a -> 0 <= a.
Proof.
  intros (p & Hp & Hp0). rewrite Hp. change 0 with (inject_Z 0).
  now rewrite <- Zle_Qle.
Qed.

Lemma integral_In (xs : list Q) (v : Q) :
  integral xs = true -> In v xs -> v == inject_Z (Qfloor v).
Proof.
  unfold integral. rewrite forallb_forall. intros H Hin.
  now apply Qeq_bool_iff, H.
Qed.

Lemma nonnegative_In (xs : list Q) (v : Q) :
  nonnegative xs = true -> In v xs -> 0 <= v.
Proof.
  unfold nonnegative. rewrite forallb_forall. intros H Hin.
  now apply Qle_bool_iff, H.
Qed.

Lemma nonnegative_nth (xs : list Q) (j : nat) :
  nonnegative xs = true -> 0 <= nth j xs 0.
Proof.
  intro H. destruct (Nat.lt_ge_cases j (length xs)) as [Hj|Hj].
  - apply (nonnegative_In xs); [exact H | now apply nth_In].
  - rewrite nth_overflow by exact Hj. apply Qle_refl.
Qed.

Lemma integral_count (xs : list Q) (v : Q) :
  integral xs = true -> In v xs -> 0 <= v -> is_count v.
Proof.
  intros H Hin Hv. exists (Qfloor v). split; [now apply (integral_In xs)|].
  apply Qfloor_resp_le in Hv. exact Hv.
Qed.

Lemma integral_zero (xs : list Q) (v b : Q) :
  integral xs = true -> In v xs -> 0 <= v -> v < b -> b <= 1 -> v == 0.
Proof.
  intros H Hin Hv Hb Hb1.
  pose proof (integral_In xs v H Hin) as E.
  assert (Hz : (Qfloor v = 0)%Z).
  { assert (H0 : (0 <= Qfloor v)%Z) by (apply Qfloor_resp_le in Hv; exact Hv).
    assert (H1 : (Qfloor v < 1)%Z).
    { rewrite Zlt_Qlt. rewrite <- E. apply Qlt_le_trans with b; assumption. }
    lia. }
  now rewrite E, Hz.
Qed.

Lemma sum_list_snoc (l : list Q) (v : Q) : sum_list (l ++ [v]) = sum_list l + v.
Proof. unfold sum_list. now rewrite fold_left_app. Qed.

Lemma sum_list_ind (PQ : Q -> Prop) (l : list Q) :
  PQ 0 -> (forall a v, PQ a -> In v l -> PQ (a + v)) -> PQ (sum_list l).
Proof.
  induction l as [|v l IH] using rev_ind; intros H0 Hs; [exact H0|].
  rewrite sum_list_snoc. apply Hs.
  - apply IH; [exact H0|]. intros a u Ha Hu. apply Hs; [exact Ha|].
    apply in_or_app. now left.
  - apply in_or_app. right. now left.
Qed.

Lemma eval_expr_snoc (e : LinExpr) (a : Q) (j : nat) (xs : list Q) :
  eval_expr (e ++ [(a, j)]) xs = eval_expr e xs + a * nth j xs 0.
Proof. unfold eval_expr. now rewrite map_app, fold_left_app. Qed.

Lemma eval_expr_sum (e : LinExpr) (xs : list Q) :
  eval_expr e xs = sum_list (map (fun t => fst t * nth (snd t) xs 0) e).
Proof. reflexivity. Qed.

Lemma np_ceil_comp (a b : Q) : a == b -> np_ceil a = np_ceil b.
Proof. intro E. unfold np_ceil. now rewrite E. Qed.

Lemma np_ceil_scale_le (a r : Q) :
  0 <= a -> a <= 1 -> is_count r -> np_ceil (a * r) <= r.
Proof.
  intros Ha0 Ha1 Hr. pose proof (is_count_nonneg r Hr) as Hr0.
  destruct Hr as (p & Hp & Hp0).
  assert (Hle : a * r <= r).
  { rewrite <- (Qmult_1_l r) at 2. now apply Qmult_le_compat_r. }
  apply Qceiling_resp_le in Hle.
  rewrite (Qceiling_comp r (inject_Z p) Hp), Qceiling_Z in Hle.
  unfold np_ceil. apply Qle_trans with (inject_Z p).
  - now rewrite <- Zle_Qle.
  - rewrite Hp. apply Qle_refl.
Qed.

Lemma np_ceil_positive (q : Q) : 0 < q -> 1 <= np_ceil q.
Proof.
  intro Hq. unfold np_ceil.
  assert (H : (0 < Qceiling q)%Z).
  { rewrite Zlt_Qlt. apply Qlt_le_trans with q; [exact Hq | apply Qle_ceiling]. }
  change 1 with (inject_Z 1). rewrite <- Zle_Qle. lia.
Qed.

Lemma np_ceil_zero (a r : Q) : r == 0 -> np_ceil (a * r) == 0.
Proof.
  intro E. rewrite (np_ceil_comp (a * r) 0); [reflexivity|].
  rewrite E. apply Qmult_0_r.
Qed.

(** ** What the soft-fixing constraints say *)

Lemma selected_snoc (sel : Q -> bool) (xs : list nat) (xi : nat) (sol : list Q) :
  selected sel (xs ++ [xi]) sol
  = selected sel xs sol ++ (if sel (nth xi sol 0) then [xi] else []).
Proof.
  unfold selected. rewrite filter_app. simpl. now destruct (sel _).
Qed.

Lemma selected_In (sel : Q -> bool) (xs : list nat) (sol : list Q) (j : nat) :
  In j (selected sel xs sol) <-> In j xs /\ sel (nth j sol 0) = true.
Proof. unfold selected. apply filter_In. Qed.

Lemma X_of_Done (g : Model) (j : nat) (v : Q) :
  X_of g j = Done v ->
  v = nth j (sol_X g) 0 /\ (j < length (sol_X g))%nat.
Proof.
  unfold X_of. intro H. apply index_Done in H. split.
  - symmetry. now apply nth_error_nth.
  - apply nth_error_Some. congruence.
Qed.

Lemma unit_terms_snoc (js : list nat) (j : nat) :
  unit_terms (js ++ [j]) = unit_terms js ++ [(1, j)].
Proof. unfold unit_terms. now rewrite map_app. Qed.

Lemma eval_unit_terms (js : list nat) (xs : list Q) :
  eval_expr (unit_terms js) xs == sum_list (map (fun j => nth j xs 0) js).
Proof.
  induction js as [|j js IH] using rev_ind; [reflexivity|].
  rewrite unit_terms_snoc, eval_expr_snoc, map_app. cbn [map].
  rewrite sum_list_snoc, IH. now rewrite Qmult_1_l.
Qed.

Lemma Qsum_nonneg (a v : Q) : 0 <= a -> 0 <= v -> 0 <= a + v.
Proof. intros Ha Hv. exact (Qplus_le_compat 0 a 0 v Ha Hv). Qed.

(** The one constraint of [aggregate_fixing]: coefficient 1 on every selected
    variable, against the rounded-up share of the sum of their values. *)
Lemma aggregate_fixing_constraint (sel : Q -> bool) (factor : Q) (m m' : MP) :
  aggregate_fixing sel factor m = Done m' ->
  let sol := sol_X (set_cover m) in
  let js := selected sel (x m) sol in
  m' = set_set_cover
         (snd (addConstr (unit_terms js)
                 (np_ceil (factor * sum_list (map (fun j => nth j sol 0) js)))
                 Soft_Fixing (set_cover m))) m /\
  Forall (fun j => (j < length sol)%nat) (x m).
Proof.
  intros H sol js. unfold aggregate_fixing, for_range in H.
  apply bind_Done in H as ([fixed rs] & Hl & H).
  apply (for_from_inv
           (fun i acc =>
              acc = (unit_terms (selected sel (firstn i (x m)) sol),
                     sum_list (map (fun j => nth j sol 0)
                                   (selected sel (firstn i (x m)) sol))) /\
              Forall (fun j => (j < length sol)%nat) (firstn i (x m)))) in Hl.
  - simpl in Hl. rewrite firstn_all in Hl. destruct Hl as [E HF].
    injection E as -> ->. unfold addConstr in *. simpl in H.
    injection H as <-. split; [reflexivity | exact HF].
  - split; [reflexivity | constructor].
  - intros i [f r] t' _ [E HF] Hb. injection E as -> ->.
    apply bind_Done in Hb as (xi & Hxi & Hb).
    apply bind_Done in Hb as (v & Hv & Hb).
    apply X_of_Done in Hv as [-> Hlt]. fold sol in Hb.
    rewrite (firstn_S_index _ _ _ Hxi), selected_snoc. split.
    + destruct (sel (nth xi sol 0)); injection Hb as <-.
      * rewrite unit_terms_snoc, map_app. cbn [map].
        now rewrite sum_list_snoc.
      * now rewrite app_nil_r.
    + apply Forall_app. split; [exact HF | now constructor].
Qed.

Lemma selected_values_In (sel : Q -> bool) (xs : list nat) (sol : list Q) (v : Q) :
  Forall (fun j => (j < length sol)%nat) xs ->
  In v (map (fun j => nth j sol 0) (selected sel xs sol)) ->
  In v sol /\ sel v = true.
Proof.
  intros HF Hin. apply in_map_iff in Hin as (j & <- & Hj).
  apply selected_In in Hj as [Hj Hs]. split; [|exact Hs].
  apply nth_In. rewrite Forall_forall in HF. now apply HF.
Qed.

(** X1: the Type-1 constraint never cuts off the solution it is built
    from.  In a state of a run whose current solution is integral,
    [soft_fixing] adds one constraint: coefficient 1 on every variable whose
    value exceeds 0.5, against [ceil(alpha * s)] where [s] is the sum of those
    values; the current solution satisfies it. *)
Theorem soft_fixing_keeps_incumbent (m m' : MP) :
  reachable m ->
  integral (sol_X (set_cover m)) = true ->
  soft_fixing m = Done m' ->
  exists c,
    pending (set_cover m') = pending (set_cover m) ++ [c] /\
    c_lhs c = unit_terms (selected (fun v => Qgtb v 0.5) (x m)
                                   (sol_X (set_cover m))) /\
    c_rhs c == np_ceil (alpha m * eval_expr (c_lhs c) (sol_X (set_cover m))) /\
    c_name c = Soft_Fixing /\
    c_rhs c <= eval_expr (c_lhs c) (sol_X (set_cover m)).
Proof.
  intros Hr Hint H. unfold soft_fixing in H.
  apply aggregate_fixing_constraint in H as [-> HF]. cbv zeta in *.
  eexists. split; [reflexivity|]. cbn [c_lhs c_rhs c_name].
  split; [reflexivity|].
  set (sol := sol_X (set_cover m)) in *.
  set (js := selected _ (x m) sol).
  pose proof (eval_unit_terms js sol) as Ee.
  split; [|split; [reflexivity|]].
  - rewrite (np_ceil_comp _ _ (Qmult_comp _ _ (Qeq_refl (alpha m)) _ _ Ee)).
    reflexivity.
  - rewrite Ee.
    destruct (reachable_schedule m Hr) as [Ha _].
    apply alpha_level_range in Ha as [Ha0 Ha1].
    apply np_ceil_scale_le.
    + apply Qle_trans with 0.1; [discriminate | exact Ha0].
    + apply Qle_trans with 0.9; [exact Ha1 | discriminate].
    + apply sum_list_ind; [apply is_count_0|].
      intros a v Hcount Hin. apply is_count_plus; [exact Hcount|].
      apply selected_values_In in Hin as [Hin Hs]; [|exact HF].
      apply (integral_count sol v Hint Hin).
      apply Qgtb_gt in Hs. apply Qlt_le_weak.
      apply Qlt_trans with 0.5; [reflexivity | exact Hs].
Qed.

(** X2: built from an integral solution, the Type-3 constraint is vacuous.
    Every variable with value below 0.3 then has value 0, so the right-hand
    side is [ceil((1 - alpha) * 0) = 0] and every nonnegative assignment
    satisfies the constraint. *)
Theorem soft_fixing_type3_vacuous (m m' : MP) :
  integral (sol_X (set_cover m)) = true ->
  nonnegative (sol_X (set_cover m)) = true ->
  soft_fixing_type3 m = Done m' ->
  exists c,
    pending (set_cover m') = pending (set_cover m) ++ [c] /\
    c_lhs c = unit_terms (selected (fun v => Qltb v 0.3) (x m)
                                   (sol_X (set_cover m))) /\
    c_rhs c == 0 /\
    (forall xs, nonnegative xs = true -> c_rhs c <= eval_expr (c_lhs c) xs).
Proof.
  intros Hint Hnn H. unfold soft_fixing_type3 in H.
  apply aggregate_fixing_constraint in H as [-> HF]. cbv zeta in *.
  eexists. split; [reflexivity|]. cbn [c_lhs c_rhs].
  split; [reflexivity|].
  set (sol := sol_X (set_cover m)) in *.
  set (js := selected _ (x m) sol).
  assert (E0 : np_ceil ((1 - alpha m)
                        * sum_list (map (fun j => nth j sol 0) js)) == 0).
  { apply np_ceil_zero.
    apply (sum_list_ind (fun q => q == 0)); [reflexivity|].
    intros a v Ha Hin.
    apply selected_values_In in Hin as [Hin Hs]; [|exact HF].
    apply Qltb_lt in Hs.
    rewrite Ha, (integral_zero sol v 0.3 Hint Hin); try assumption.
    - reflexivity.
    - now apply (nonnegative_In sol).
    - discriminate. }
  split; [exact E0|].
  intros xs Hxs. rewrite E0, eval_unit_terms.
  apply (sum_list_ind (fun q => 0 <= q)); [apply Qle_refl|].
  intros a v Ha Hin. apply in_map_iff in Hin as (j & <- & _).
  apply Qsum_nonneg; [exact Ha | now apply nonnegative_nth].
Qed.

Lemma sum_list_Qeq {A} (F G : A -> Q) (js : list A) :
  (forall j, In j js -> F j == G j) ->
  sum_list (map F js) == sum_list (map G js).
Proof.
  induction js as [|j js IH] using rev_ind; intro H; [reflexivity|].
  rewrite !map_app. cbn [map]. rewrite !sum_list_snoc.
  rewrite IH, (H j).
  - reflexivity.
  - apply in_or_app. right. now left.
  - intros k Hk. apply H. apply in_or_app. now left.
Qed.

Lemma index_nth {A} (l : list A) (i : nat) (a dflt : A) :
  index l i = Done a -> a = nth i l dflt /\ (i < length l)%nat.
Proof.
  intro H. apply index_Done in H. split.
  - symmetry. now apply nth_error_nth.
  - apply nth_error_Some. congruence.
Qed.

Lemma count_nth (row : list Q) (j : nat) :
  integral row = true -> nonnegative row = true -> is_count (nth j row 0).
Proof.
  intros Hi Hn. destruct (Nat.lt_ge_cases j (length row)) as [Hj|Hj].
  - apply (integral_count row); [exact Hi | now apply nth_In |].
    now apply nonnegative_nth.
  - rewrite nth_overflow by exact Hj. apply is_count_0.
Qed.

(** The inner loop of [per_item_fixing] for item [i]. *)
Lemma item_loop (sel : Q -> bool) (m : MP) (i : nat) (fixed : LinExpr) (rs : Q) :
  for_range (length (x_IP m))
    (fun j '(fixed, rightside) =>
       v <- index (x_IP m) j ;;
       if sel v then
         row <- index (pattern m) i ;;
         a <- index row j ;;
         xj <- index (x m) j ;;
         Done (fixed ++ [(a, xj)], rightside + a * v)
       else Done (fixed, rightside))
    ([], 0) = Done (fixed, rs) ->
  fixed = item_terms sel m i /\ rs = item_rhs sel m i /\
  forall j, In j (selected_columns sel m) -> (j < length (x m))%nat.
Proof.
  unfold for_range. intro H.
  apply (for_from_inv
           (fun n acc =>
              let js := filter (fun j => sel (nth j (x_IP m) 0)) (seq 0 n) in
              acc = (map (fun j => (nth j (nth i (pattern m) []) 0,
                                    nth j (x m) 0%nat)) js,
                     sum_list (map (fun j => nth j (nth i (pattern m) []) 0
                                             * nth j (x_IP m) 0) js)) /\
              forall j, In j js -> (j < length (x m))%nat)) in H.
  - simpl in H. destruct H as [E Hb]. injection E as -> ->.
    repeat split. exact Hb.
  - split; [reflexivity | intros j []].
  - intros n [f r] t' _ [E Hbound] Hb. injection E as -> ->.
    cbv zeta. rewrite seq_S, filter_app. cbn [Nat.add filter].
    apply bind_Done in Hb as (v & Hv & Hb).
    apply (index_nth _ _ _ 0) in Hv as [-> _].
    destruct (sel (nth n (x_IP m) 0)).
    + apply bind_Done in Hb as (row & Hrow & Hb).
      apply bind_Done in Hb as (a & Ha & Hb).
      apply bind_Done in Hb as (xj & Hxj & Hb). injection Hb as <-.
      apply (index_nth _ _ _ []) in Hrow as [-> _].
      apply (index_nth _ _ _ 0) in Ha as [-> _].
      apply (index_nth _ _ _ 0%nat) in Hxj as [-> Hlt].
      rewrite !map_app. cbn [map]. rewrite sum_list_snoc. split; [reflexivity|].
      intros j Hj. apply in_app_or in Hj as [Hj|[<-|[]]]; [now apply Hbound|].
      exact Hlt.
    + injection Hb as <-. rewrite !app_nil_r. split; [reflexivity|exact Hbound].
Qed.

(** The [I] constraints of [per_item_fixing], in the order they are added. *)
Lemma per_item_fixing_constraints (sel : Q -> bool) (factor : Q) (m m' : MP) :
  per_item_fixing sel factor m = Done m' ->
  pending (set_cover m')
  = pending (set_cover m)
    ++ map (fun i => mkConstr (next_id (set_cover m) + i)
                              (item_terms sel m i)
                              (np_ceil (factor * item_rhs sel m i))
                              (Soft_fixing_ i))
           (seq 0 (I (ins m))) /\
  ((0 < I (ins m))%nat ->
   forall j, In j (selected_columns sel m) -> (j < length (x m))%nat).
Proof.
  unfold per_item_fixing, for_range. intro H.
  apply bind_Done in H as (g & Hg & H). injection H as <-. cbn [set_cover set_set_cover].
  apply (for_from_inv
           (fun n t =>
              pending t
              = pending (set_cover m)
                ++ map (fun i => mkConstr (next_id (set_cover m) + i)
                                          (item_terms sel m i)
                                          (np_ceil (factor * item_rhs sel m i))
                                          (Soft_fixing_ i))
                       (seq 0 n) /\
              next_id t = (next_id (set_cover m) + n)%nat /\
              ((0 < n)%nat ->
               forall j, In j (selected_columns sel m) ->
                         (j < length (x m))%nat))) in Hg.
  - simpl in Hg. tauto.
  - simpl. rewrite app_nil_r, Nat.add_0_r. repeat split. lia.
  - intros n t t' _ (Hp & Hn & _) Hb.
    apply bind_Done in Hb as ([fixed rs] & Hin & Hb). injection Hb as <-.
    apply item_loop in Hin as (-> & -> & Hbound).
    cbn [addConstr snd pending next_id].
    rewrite Hp, Hn, seq_S, map_app, <- app_assoc. cbn [Nat.add map].
    repeat split; [lia | intros _; exact Hbound].
Qed.

Lemma eval_item_terms (sel : Q -> bool) (m : MP) (i : nat) (xs : list Q) :
  eval_expr (item_terms sel m i) xs
  = sum_list (map (fun j => nth j (nth i (pattern m) []) 0
                            * nth (nth j (x m) 0%nat) xs 0)
                  (selected_columns sel m)).
Proof.
  unfold item_terms. rewrite eval_expr_sum, map_map. reflexivity.
Qed.

Lemma selected_columns_In (sel : Q -> bool) (m : MP) (j : nat) :
  In j (selected_columns sel m) ->
  In (nth j (x_IP m) 0) (x_IP m) /\ sel (nth j (x_IP m) 0) = true.
Proof.
  unfold selected_columns. intro H. apply filter_In in H as [H Hs].
  apply in_seq in H. split; [|exact Hs]. apply nth_In. lia.
Qed.

Lemma pattern_row_count (m : MP) (i j : nat) :
  Forall (fun row => integral row = true /\ nonnegative row = true)
         (pattern m) ->
  is_count (nth j (nth i (pattern m) []) 0).
Proof.
  intro H. destruct (Nat.lt_ge_cases i (length (pattern m))) as [Hi|Hi].
  - rewrite Forall_forall in H.
    destruct (H (nth i (pattern m) []) (nth_In _ _ Hi)) as [H1 H2].
    now apply count_nth.
  - rewrite (nth_overflow (pattern m)) by exact Hi.
    destruct j; apply is_count_0.
Qed.

(** X3: the Type-4 constraints never cut off the integer solution they are
    built from.  In a state of a run with an integral [x_IP] and a pattern
    matrix of natural numbers, [soft_fixing_type4] adds one constraint per
    item [i], with the terms [pattern[i][j] * x[j]] over the columns whose
    [x_IP] value exceeds 0.5, against [ceil(alpha * r_i)] where [r_i] is the
    same sum at [x_IP]; the vector [x_IP] satisfies each of them. *)
Theorem soft_fixing_type4_keeps_incumbent (m m' : MP) :
  reachable m ->
  integral (x_IP m) = true ->
  Forall (fun row => integral row = true /\ nonnegative row = true)
         (pattern m) ->
  soft_fixing_type4 m = Done m' ->
  exists added,
    pending (set_cover m') = pending (set_cover m) ++ added /\
    added = map (fun i => mkConstr (next_id (set_cover m) + i)
                            (item_terms (fun v => Qgtb v 0.5) m i)
                            (np_ceil (alpha m
                                      * item_rhs (fun v => Qgtb v 0.5) m i))
                            (Soft_fixing_ i))
                (seq 0 (I (ins m))) /\
    Forall (fun c => c_rhs c <= eval_expr (c_lhs c) (x_IP m)) added.
Proof.
  intros Hr Hint Hpat H. unfold soft_fixing_type4 in H.
  apply per_item_fixing_constraints in H as [Hp Hbound].
  eexists. split; [exact Hp|]. split; [reflexivity|].
  apply Forall_forall. intros c Hc.
  apply in_map_iff in Hc as (i & <- & Hi). apply in_seq in Hi.
  cbn [c_rhs c_lhs].
  assert (Ee : eval_expr (item_terms (fun v => Qgtb v 0.5) m i) (x_IP m)
               == item_rhs (fun v => Qgtb v 0.5) m i).
  { rewrite eval_item_terms. unfold item_rhs. apply sum_list_Qeq.
    intros j Hj. specialize (Hbound ltac:(lia) j Hj).
    destruct (reachable_consistent m Hr) as [_ _ _ _ _ _ Hx _ _ _].
    rewrite Hx in Hbound |- *. rewrite length_seq in Hbound.
    rewrite seq_nth by exact Hbound. reflexivity. }
  rewrite Ee.
  destruct (reachable_schedule m Hr) as [Ha _].
  apply alpha_level_range in Ha as [Ha0 Ha1].
  apply np_ceil_scale_le.
  - apply Qle_trans with 0.1; [discriminate | exact Ha0].
  - apply Qle_trans with 0.9; [exact Ha1 | discriminate].
  - unfold item_rhs. apply sum_list_ind; [apply is_count_0|].
    intros a v Hcount Hin. apply is_count_plus; [exact Hcount|].
    apply in_map_iff in Hin as (j & <- & Hj).
    apply selected_columns_In in Hj as [Hj Hs].
    apply is_count_mult; [now apply pattern_row_count|].
    apply (integral_count (x_IP m) _ Hint Hj).
    apply Qgtb_gt in Hs. apply Qlt_le_weak.
    apply Qlt_trans with 0.5; [reflexivity | exact Hs].
Qed.

(** X4: the Type-7 constraints are vacuous for an integral [x_IP].  Every
    entry of [x_IP] below 0.2 is then 0, so each of the [I] constraints has
    the right-hand side [ceil((1 - alpha) * 0) = 0]; with nonnegative pattern
    entries every nonnegative assignment satisfies all of them. *)
Theorem soft_fixing_type7_vacuous (m m' : MP) :
  integral (x_IP m) = true ->
  nonnegative (x_IP m) = true ->
  soft_fixing_type7 m = Done m' ->
  exists added,
    pending (set_cover m') = pending (set_cover m) ++ added /\
    length added = I (ins m) /\
    Forall (fun c => c_rhs c == 0) added /\
    (Forall (fun row => nonnegative row = true) (pattern m) ->
     forall xs, nonnegative xs = true ->
       Forall (fun c => c_rhs c <= eval_expr (c_lhs c) xs) added).
Proof.
  intros Hint Hnn H. unfold soft_fixing_type7 in H.
  apply per_item_fixing_constraints in H as [Hp _].
  eexists. split; [exact Hp|].
  split; [now rewrite length_map, length_seq|].
  assert (E0 : forall i,
             np_ceil ((1 - alpha m) * item_rhs (fun v => Qltb v 0.2) m i) == 0).
  { intro i. apply np_ceil_zero. unfold item_rhs.
    apply (sum_list_ind (fun q => q == 0)); [reflexivity|].
    intros a v Ha Hin. apply in_map_iff in Hin as (j & <- & Hj).
    apply selected_columns_In in Hj as [Hj Hs]. apply Qltb_lt in Hs.
    rewrite Ha, (integral_zero (x_IP m) _ 0.2 Hint Hj); try assumption.
    - rewrite Qmult_0_r. reflexivity.
    - now apply (nonnegative_In (x_IP m)).
    - discriminate. }
  split.
  - apply Forall_forall. intros c Hc.
    apply in_map_iff in Hc as (i & <- & _). apply E0.
  - intros Hpat xs Hxs. apply Forall_forall. intros c Hc.
    apply in_map_iff in Hc as (i & <- & _). cbn [c_rhs c_lhs].
    rewrite E0, eval_item_terms.
    apply (sum_list_ind (fun q => 0 <= q)); [apply Qle_refl|].
    intros a v Ha Hin. apply in_map_iff in Hin as (j & <- & _).
    apply Qsum_nonneg; [exact Ha|]. apply Qmult_le_0_compat.
    + destruct (Nat.lt_ge_cases i (length (pattern m))) as [Hi|Hi].
      * rewrite Forall_forall in Hpat. apply nonnegative_nth.
        apply Hpat. now apply nth_In.
      * rewrite (nth_overflow (pattern m)) by exact Hi.
        destruct j; apply Qle_refl.
    + now apply nonnegative_nth.
Qed.

Lemma combine_snoc {A B} (l : list A) (l' : list B) (a : A) (b : B) :
  length l = length l' ->
  combine (l ++ [a]) (l' ++ [b]) = combine l l' ++ [(a, b)].
Proof.
  revert l'. induction l as [|h l IH]; intros [|h' l'] H; try discriminate.
  - reflexivity.
  - simpl. f_equal. apply IH. simpl in H. lia.
Qed.

(** The constraints of [soft_fixing_type5], in the order they are added. *)
Lemma soft_fixing_type5_constraints (m m' : MP) :
  soft_fixing_type5 m = Done m' ->
  let js := selected_columns (fun v => Qgtb v 0.5) m in
  cont m' = length js /\
  pending (set_cover m')
  = pending (set_cover m)
    ++ map (fun kj => mkConstr (next_id (set_cover m) + fst kj)
                               [(1, nth (snd kj) (x m) 0%nat)]
                               (np_ceil (alpha m * nth (snd kj) (x_IP m) 0))
                               (soft_fixing_ (Datatypes.S (fst kj))))
           (combine (seq 0 (length js)) js) /\
  (forall j, In j js -> (j < length (x m))%nat).
Proof.
  intros H js. unfold soft_fixing_type5, for_range in H.
  apply bind_Done in H as ([k g] & Hg & H). injection H as <-.
  cbn [cont set_cont set_cover set_set_cover x_IP x alpha] in *.
  apply (for_from_inv
           (fun n kg =>
              let ls := filter (fun j => Qgtb (nth j (x_IP m) 0) 0.5)
                               (seq 0 n) in
              fst kg = length ls /\
              pending (snd kg)
              = pending (set_cover m)
                ++ map (fun kj =>
                          mkConstr (next_id (set_cover m) + fst kj)
                                   [(1, nth (snd kj) (x m) 0%nat)]
                                   (np_ceil (alpha m
                                             * nth (snd kj) (x_IP m) 0))
                                   (soft_fixing_ (Datatypes.S (fst kj))))
                       (combine (seq 0 (length ls)) ls) /\
              next_id (snd kg) = (next_id (set_cover m) + length ls)%nat /\
              forall j, In j ls -> (j < length (x m))%nat)) in Hg.
  - cbn [fst snd Nat.add] in Hg. destruct Hg as (Hk & Hp & _ & Hb).
    split; [exact Hk|]. split; [exact Hp | exact Hb].
  - cbn. rewrite app_nil_r, Nat.add_0_r. repeat split. intros j [].
  - intros n [k0 g0] [k1 g1] _ (Hk & Hp & Hn & Hb) Hstep.
    cbn [fst snd] in *. cbv zeta. rewrite seq_S, filter_app.
    cbn [Nat.add filter].
    apply bind_Done in Hstep as (v & Hv & Hstep).
    apply (index_nth _ _ _ 0) in Hv as [-> _].
    destruct (Qgtb (nth n (x_IP m) 0) 0.5).
    + apply bind_Done in Hstep as (xj & Hxj & Hstep).
      injection Hstep as <- <-.
      apply (index_nth _ _ _ 0%nat) in Hxj as [-> Hlt].
      cbn [addConstr snd pending next_id]. rewrite Hp, Hn, Hk.
      rewrite length_app. cbn [length]. rewrite Nat.add_1_r.
      rewrite seq_S, combine_snoc by now rewrite length_seq.
      rewrite map_app, <- app_assoc. cbn [map fst snd Nat.add].
      repeat split; [lia|].
      intros j Hj. apply in_app_or in Hj as [Hj|[<-|[]]];
        [now apply Hb | exact Hlt].
    + injection Hstep as <- <-. rewrite !app_nil_r. tauto.
Qed.

(** X5: Type 5 keeps every pattern of the integer solution in use.  In a
    state of a run with an integral [x_IP], [soft_fixing_type5] adds, for each
    column [j] with [x_IP[j] > 0.5] in increasing order, the bound
    [x[j] >= ceil(alpha * x_IP[j])], named [soft_fixing_1], [soft_fixing_2],
    ...; [cont] is their number, and every right-hand side lies between 1 and
    [x_IP[j]]. *)
Theorem soft_fixing_type5_bounds (m m' : MP) :
  reachable m ->
  integral (x_IP m) = true ->
  soft_fixing_type5 m = Done m' ->
  let js := selected_columns (fun v => Qgtb v 0.5) m in
  cont m' = length js /\
  pending (set_cover m')
  = pending (set_cover m)
    ++ map (fun kj => mkConstr (next_id (set_cover m) + fst kj)
                               [(1, snd kj)]
                               (np_ceil (alpha m * nth (snd kj) (x_IP m) 0))
                               (soft_fixing_ (Datatypes.S (fst kj))))
           (combine (seq 0 (length js)) js) /\
  Forall (fun j => 1 <= np_ceil (alpha m * nth j (x_IP m) 0) /\
                   np_ceil (alpha m * nth j (x_IP m) 0) <= nth j (x_IP m) 0)
         js.
Proof.
  intros Hr Hint H js.
  destruct (soft_fixing_type5_constraints m m' H) as (Hk & Hp & Hb).
  fold js in Hk, Hp, Hb.
  destruct (reachable_consistent m Hr) as [_ _ _ _ _ _ Hx _ _ _].
  destruct (reachable_schedule m Hr) as [Ha _].
  apply alpha_level_range in Ha as [Ha0 Ha1].
  split; [exact Hk|]. split.
  - rewrite Hp. f_equal. apply map_ext_in. intros [k j] Hin.
    apply in_combine_r in Hin. cbn [fst snd]. f_equal.
    specialize (Hb j Hin). rewrite Hx in Hb |- *.
    rewrite length_seq in Hb. now rewrite seq_nth.
  - apply Forall_forall. intros j Hj.
    apply selected_columns_In in Hj as [Hj Hs]. apply Qgtb_gt in Hs.
    assert (Hpos : 0 < nth j (x_IP m) 0)
      by (apply Qlt_trans with 0.5; [reflexivity | exact Hs]).
    split.
    + apply np_ceil_positive. apply Qmult_lt_0_compat; [|exact Hpos].
      apply Qlt_le_trans with 0.1; [reflexivity | exact Ha0].
    + apply np_ceil_scale_le.
      * apply Qle_trans with 0.1; [discriminate | exact Ha0].
      * apply Qle_trans with 0.9; [exact Ha1 | discriminate].
      * apply (integral_count (x_IP m) _ Hint Hj). now apply Qlt_le_weak.
Qed.

(** The constraints of [soft_fixing_type2], in the order they are added. *)
Lemma soft_fixing_type2_constraints (m m' : MP) :
  soft_fixing_type2 m = Done m' ->
  let js := selected (fun v => Qgtb v 0.5) (x m) (sol_X (set_cover m)) in
  pending (set_cover m')
  = pending (set_cover m)
    ++ map (fun i => mkConstr (next_id (set_cover m) + i)
                              (unit_terms js)
                              (np_ceil (alpha m * nth i (d (ins m)) 0))
                              (Soft_Fixing_piece_ i))
           (seq 0 (I (ins m))).
Proof.
  intros H js. unfold soft_fixing_type2, for_range in H.
  apply bind_Done in H as (g & Hg & H). injection H as <-.
  cbn [set_cover set_set_cover].
  apply (for_from_inv
           (fun n t =>
              pending t
              = pending (set_cover m)
                ++ map (fun i => mkConstr (next_id (set_cover m) + i)
                                          (unit_terms js)
                                          (np_ceil (alpha m
                                                    * nth i (d (ins m)) 0))
                                          (Soft_Fixing_piece_ i))
                       (seq 0 n) /\
              next_id t = (next_id (set_cover m) + n)%nat /\
              sol_X t = sol_X (set_cover m))) in Hg.
  - cbn [Nat.add] in Hg. tauto.
  - cbn. rewrite app_nil_r, Nat.add_0_r. repeat split.
  - intros n t t' _ (Hp & Hn & HX) Hb.
    apply bind_Done in Hb as (fixed & Hin & Hb).
    apply bind_Done in Hb as (di & Hdi & Hb). injection Hb as <-.
    apply (index_nth _ _ _ 0) in Hdi as [-> _].
    assert (Hf : fixed = unit_terms js).
    { apply (for_from_inv
               (fun k f => f = unit_terms
                                 (selected (fun v => Qgtb v 0.5)
                                           (firstn k (x m))
                                           (sol_X (set_cover m))))) in Hin.
      - simpl in Hin. now rewrite firstn_all in Hin.
      - reflexivity.
      - intros k f f' _ -> Hs.
        apply bind_Done in Hs as (xj & Hxj & Hs).
        apply bind_Done in Hs as (v & Hv & Hs).
        apply X_of_Done in Hv as [-> _]. rewrite HX in Hs.
        rewrite (firstn_S_index _ _ _ Hxj), selected_snoc.
        destruct (Qgtb _ 0.5); injection Hs as <-.
        + now rewrite unit_terms_snoc.
        + now rewrite app_nil_r. }
    subst fixed. cbn [addConstr snd pending next_id sol_X].
    rewrite Hp, Hn, seq_S, map_app, <- app_assoc. cbn [Nat.add map].
    repeat split; [lia | exact HX].
Qed.

(** X6: the [I] constraints of Type 2 share one left-hand side.
    [soft_fixing_type2] adds, for each item [i], the constraint
    [sum of x[j] over the variables whose value exceeds 0.5
     >= ceil(alpha * d_i)], named [Soft_Fixing_piece_i]; only the right-hand
    sides differ, so an assignment that satisfies the constraint of an item
    satisfies that of every item whose demand is not larger. *)
Theorem soft_fixing_type2_shared_lhs (m m' : MP) :
  soft_fixing_type2 m = Done m' ->
  exists added,
    pending (set_cover m') = pending (set_cover m) ++ added /\
    added = map (fun i => mkConstr (next_id (set_cover m) + i)
                            (unit_terms
                               (selected (fun v => Qgtb v 0.5) (x m)
                                         (sol_X (set_cover m))))
                            (np_ceil (alpha m * nth i (d (ins m)) 0))
                            (Soft_Fixing_piece_ i))
                (seq 0 (I (ins m))) /\
    (forall c c', In c added -> In c' added -> c_lhs c = c_lhs c') /\
    (forall i k xs,
       (i < I (ins m))%nat -> (k < I (ins m))%nat -> 0 <= alpha m ->
       nth k (d (ins m)) 0 <= nth i (d (ins m)) 0 ->
       c_rhs (nth i added (mkConstr 0 [] 0 unnamed))
       <= eval_expr (c_lhs (nth i added (mkConstr 0 [] 0 unnamed))) xs ->
       c_rhs (nth k added (mkConstr 0 [] 0 unnamed))
       <= eval_expr (c_lhs (nth k added (mkConstr 0 [] 0 unnamed))) xs).
Proof.
  intro H. pose proof (soft_fixing_type2_constraints m m' H) as Hp.
  cbv zeta in Hp. eexists. split; [exact Hp|]. split; [reflexivity|].
  set (mk := fun i => mkConstr _ _ _ _).
  assert (Hnth : forall i, (i < I (ins m))%nat ->
            nth i (map mk (seq 0 (I (ins m)))) (mkConstr 0 [] 0 unnamed)
            = mk i).
  { intros i Hi.
    rewrite (nth_indep _ _ (mk 0%nat)) by now rewrite length_map, length_seq.
    rewrite map_nth, seq_nth by exact Hi. reflexivity. }
  split.
  - intros c c' Hc Hc'.
    apply in_map_iff in Hc as (i & <- & _).
    apply in_map_iff in Hc' as (i' & <- & _). reflexivity.
  - intros i k xs Hi Hk Ha Hd. rewrite (Hnth i Hi), (Hnth k Hk).
    unfold mk. cbn [c_rhs c_lhs]. intro Hsat.
    eapply Qle_trans; [|exact Hsat]. unfold np_ceil.
    rewrite <- Zle_Qle. apply Qceiling_resp_le.
    rewrite !(Qmult_comm (alpha m)). now apply Qmult_le_compat_r.
Qed.

(** The inner loop of [soft_fixing_type6] for the variable at position [j],
    with handle [xj] and value [v]. *)
Lemma column_loop (m : MP) (j xj : nat) (v : Q) (sol : list Q)
  (f0 f : LinExpr) (r0 r : Q) :
  v = nth xj sol 0 ->
  for_range (I (ins m))
    (fun i '(fixed, rightside) =>
       row <- index (pattern m) i ;;
       a <- index row j ;;
       Done (fixed ++ [(a, xj)], rightside + a * v))
    (f0, r0) = Done (f, r) ->
  f = f0 ++ map (fun i => (nth j (nth i (pattern m) []) 0, xj))
                (seq 0 (I (ins m))) /\
  (eval_expr f0 sol = r0 -> eval_expr f sol = r).
Proof.
  intros Hv H. unfold for_range in H.
  apply (for_from_inv
           (fun n acc =>
              fst acc = f0 ++ map (fun i => (nth j (nth i (pattern m) []) 0, xj))
                                  (seq 0 n) /\
              (eval_expr f0 sol = r0 -> eval_expr (fst acc) sol = snd acc)))
    in H.
  - exact H.
  - cbn. rewrite app_nil_r. tauto.
  - intros n [f1 r1] t' _ [Hf He] Hb. cbn [fst snd] in *.
    apply bind_Done in Hb as (row & Hrow & Hb).
    apply bind_Done in Hb as (a & Ha & Hb). injection Hb as <-.
    apply (index_nth _ _ _ []) in Hrow as [-> _].
    apply (index_nth _ _ _ 0) in Ha as [-> _]. cbn [fst snd].
    split.
    + rewrite Hf, seq_S, map_app, <- app_assoc. reflexivity.
    + intro E. rewrite eval_expr_snoc, (He E), Hv. reflexivity.
Qed.

(** The one constraint of [soft_fixing_type6]. *)
Lemma soft_fixing_type6_constraint (m m' : MP) :
  soft_fixing_type6 m = Done m' ->
  let sol := sol_X (set_cover m) in
  let js := selected_positions (fun v => Qgtb v 0.3) m in
  let lhs := flat_map (column_terms m) js in
  pending (set_cover m')
  = pending (set_cover m)
    ++ [mkConstr (next_id (set_cover m)) lhs
                 (np_ceil (alpha m * eval_expr lhs sol)) unnamed] /\
  (forall j, In j js -> (nth j (x m) 0 < length sol)%nat).
Proof.
  intros H sol js lhs. unfold soft_fixing_type6, for_range in H.
  apply bind_Done in H as ([fixed rs] & Hl & H).
  apply (for_from_inv
           (fun n acc =>
              let ls := filter (fun j => Qgtb (nth (nth j (x m) 0%nat) sol 0)
                                              0.3)
                               (seq 0 n) in
              fst acc = flat_map (column_terms m) ls /\
              eval_expr (fst acc) sol = snd acc /\
              forall j, In j ls -> (nth j (x m) 0 < length sol)%nat)) in Hl.
  - cbn [fst snd Nat.add] in Hl. destruct Hl as (Hf & He & Hb).
    unfold addConstr in H. cbn in H. injection H as <-.
    cbn [set_cover set_set_cover pending].
    fold js in Hf, Hb. fold lhs in Hf. subst fixed. rewrite <- He.
    split; [reflexivity | exact Hb].
  - cbn. repeat split. intros j [].
  - intros n [f r] t' _ (Hf & He & Hb) Hstep. cbn [fst snd] in *.
    cbv zeta. rewrite seq_S, filter_app. cbn [Nat.add filter].
    apply bind_Done in Hstep as (xj & Hxj & Hstep).
    apply bind_Done in Hstep as (v & Hv & Hstep).
    apply (index_nth _ _ _ 0%nat) in Hxj as [-> _].
    apply X_of_Done in Hv as [Hv Hlt]. fold sol in Hv, Hlt. rewrite <- Hv.
    destruct (Qgtb v 0.3).
    + destruct t' as [f' r'].
      apply (column_loop m n _ v sol f f' r r' Hv) in Hstep as [Hf' He'].
      cbn [fst snd]. rewrite flat_map_app. cbn [flat_map].
      rewrite app_nil_r, <- Hf. split; [exact Hf'|]. split; [now apply He'|].
      intros j Hj. apply in_app_or in Hj as [Hj|[<-|[]]];
        [now apply Hb | exact Hlt].
    + injection Hstep as <-. cbn [fst snd]. rewrite app_nil_r. tauto.
Qed.

(** X7: the Type-6 constraint never cuts off the solution it is built from.
    In a state of a run with an integral current solution and a pattern
    matrix of natural numbers, [soft_fixing_type6] adds one unnamed
    constraint: for every variable whose value exceeds 0.3, one term
    [pattern[i][j] * x[j]] per item [i], against [ceil(alpha * r)] where [r]
    is the value of that expression at the current solution, which
    therefore satisfies the constraint. *)
Theorem soft_fixing_type6_keeps_incumbent (m m' : MP) :
  reachable m ->
  integral (sol_X (set_cover m)) = true ->
  Forall (fun row => integral row = true /\ nonnegative row = true)
         (pattern m) ->
  soft_fixing_type6 m = Done m' ->
  exists c,
    pending (set_cover m') = pending (set_cover m) ++ [c] /\
    c_lhs c = flat_map (column_terms m)
                       (selected_positions (fun v => Qgtb v 0.3) m) /\
    c_rhs c = np_ceil (alpha m * eval_expr (c_lhs c) (sol_X (set_cover m))) /\
    c_name c = unnamed /\
    c_rhs c <= eval_expr (c_lhs c) (sol_X (set_cover m)).
Proof.
  intros Hr Hint Hpat H.
  destruct (soft_fixing_type6_constraint m m' H) as [Hp Hb].
  cbv zeta in Hp, Hb. eexists. split; [exact Hp|]. cbn [c_lhs c_rhs c_name].
  repeat (split; [reflexivity|]).
  destruct (reachable_schedule m Hr) as [Ha _].
  apply alpha_level_range in Ha as [Ha0 Ha1].
  apply np_ceil_scale_le.
  - apply Qle_trans with 0.1; [discriminate | exact Ha0].
  - apply Qle_trans with 0.9; [exact Ha1 | discriminate].
  - rewrite eval_expr_sum. apply sum_list_ind; [apply is_count_0|].
    intros a v Hcount Hin. apply is_count_plus; [exact Hcount|].
    apply in_map_iff in Hin as ([q h] & <- & Ht). cbn [fst snd].
    apply in_flat_map in Ht as (j & Hj & Ht).
    apply in_map_iff in Ht as (i & E & _). injection E as <- <-.
    apply is_count_mult; [now apply pattern_row_count|].
    pose proof (Hb j Hj) as Hlt.
    apply filter_In in Hj as [_ Hs]. apply Qgtb_gt in Hs.
    apply (integral_count (sol_X (set_cover m)) _ Hint);
      [now apply nth_In|].
    apply Qlt_le_weak. apply Qlt_trans with 0.3; [reflexivity | exact Hs].
Qed.

(** ** The schedules of [alpha] and [beta] over a run *)


(** X9: [update_beta] decides in this order: an improved integer objective
    is recorded as [best_IP] and [beta] is reset to 20; otherwise [beta] is
    decremented by 1 while it exceeds 2; otherwise ['End'] is returned and
    nothing changes.  It never looks at [column_flag] and never touches
    [alpha].  In every state of a run [beta] is between 2 and 20. *)
Theorem update_beta_decision_order (m : MP) :
  (eltb (Z_IP m) (best_IP m) = true ->
   update_beta m = (Val 20%Z, set_beta 20%Z (set_best_IP (Z_IP m) m))) /\
  (eltb (Z_IP m) (best_IP m) = false -> (2 < beta m)%Z ->
   update_beta m = (Val (beta m - 1)%Z, set_beta (beta m - 1)%Z m)) /\
  (eltb (Z_IP m) (best_IP m) = false -> (beta m <= 2)%Z ->
   update_beta m = (End, m)) /\
  column_flag (snd (update_beta m)) = column_flag m /\
  alpha (snd (update_beta m)) = alpha m /\
  (reachable m -> (2 <= beta m <= 20)%Z) /\
  (reachable m -> (2 <= beta (snd (update_beta m)) <= 20)%Z).
Proof.
  unfold update_beta.
  split; [intros ->; reflexivity|].
  split; [intros -> H; apply Z.ltb_lt in H; now rewrite H|].
  split; [intros -> H; apply Z.ltb_ge in H; now rewrite H|].
  split; [destruct (eltb _ _); [reflexivity|];
          destruct (_ <? _)%Z; reflexivity|].
  split; [destruct (eltb _ _); [reflexivity|];
          destruct (_ <? _)%Z; reflexivity|].
  split; intro Hr; destruct (reachable_schedule m Hr) as [_ Hb].
  - exact Hb.
  - exact (update_beta_range m Hb).
Qed.

(** ** Calls that cannot raise *)

Lemma solve_relaxation_Done (m : MP) :
  consistent m -> solve_relaxation m = Done (lp_state m).
Proof.
  intro Hc. destruct Hc as [_ _ _ _ _ _ Hx _ _ _].
  unfold solve_relaxation, relax_lp.
  rewrite set_all_vtypes_Done by exact Hx. reflexivity.
Qed.

Lemma lp_state_model (m : MP) :
  set_cover (lp_state m) = relaxed_model (set_cover m) /\
  cons (lp_state m) = cons m /\ ins (lp_state m) = ins m.
Proof.
  unfold lp_state. cbv zeta. destruct (eltb _ _); repeat split.
Qed.

Lemma find_handle (F : Constr -> Q) (cs : list Constr) (h : nat) :
  In h (ids cs) ->
  exists p, find (fun p : nat * Q => Nat.eqb (fst p) h)
                 (map (fun c => (c_id c, F c)) cs) = Some p.
Proof.
  induction cs as [|c cs IH]; intro H; [destruct H|].
  simpl. destruct (Nat.eqb_spec (c_id c) h) as [E|E]; [eauto|].
  apply IH. destruct H as [H|H]; [contradiction | exact H].
Qed.

Lemma Pi_of_optimize (g : Model) (h : nat) :
  In h (ids (constrs (optimize g))) ->
  exists v, Pi_of (optimize g) h = Done v.
Proof.
  intro H. unfold Pi_of, optimize in *. cbn [sol_Pi constrs set_solution] in *.
  destruct (find_handle
              (fun c => solve_Pi (vars (update g)) (constrs (update g)) (c_id c))
              _ h H) as (p & ->).
  eauto.
Qed.

Lemma dual_prices_Done (m : MP) :
  (forall h, In h (cons m) -> exists v, Pi_of (set_cover m) h = Done v) ->
  exists pi, dual_prices m = Done pi /\ length pi = length (cons m).
Proof.
  intro H. unfold dual_prices, for_range.
  destruct (for_from_ok
              (fun i (pi : list Q) => length pi = i)
              (fun i pi =>
                 h <- index (cons m) i ;;
                 v <- Pi_of (set_cover m) h ;;
                 Done (pi ++ [v]))
              (length (cons m)) 0 []) as (pi & Hrun & Hlen).
  - reflexivity.
  - intros i t Hi Ht.
    rewrite (index_lt (cons m) i 0%nat) by lia. cbn [bind].
    destruct (H (nth i (cons m) 0%nat)) as (v & ->); [apply nth_In; lia|].
    cbn [bind]. eexists. split; [reflexivity|].
    rewrite length_app. simpl. lia.
  - exists pi. split; [exact Hrun | exact Hlen].
Qed.

Lemma add_column_Done (c : list Q) (m : MP) :
  consistent m -> (1 <= I (ins m))%nat -> length c = I (ins m) ->
  exists m', add_column c m = Done m'.
Proof.
  intros Hc HI Hlen.
  destruct Hc as [HP Hcons Hrows Hcols Htot Hge Hx Hobj _ _].
  unfold add_column. cbn [cons set_column_flag].
  rewrite Hlen, Hcons, Nat.eqb_refl. cbn [negb].
  cbn [addVar pattern set_set_cover set_x set_column_flag].
  unfold for_range.
  pose proof (extend_loop (pattern m) [] c []) as Hloop.
  simpl in Hloop. rewrite <- Hlen, Hloop by congruence. cbn [bind].
  cbn [pattern set_columns_added set_pattern].
  destruct (pattern m) as [|r rows] eqn:Ep; [simpl in Hrows; lia|].
  destruct c as [|c0 c]; [simpl in Hlen; lia|].
  cbn. eauto.
Qed.

Lemma demands_present_committed (m m' : MP) :
  demands_present m -> cons m' = cons m ->
  committed_from (set_cover m) (set_cover m') ->
  demands_present m' /\ incl (cons m') (ids (constrs (set_cover m'))).
Proof.
  unfold demands_present. intros H Hc (Hi & Hp & _).
  rewrite Hc, Hp, app_nil_r, Hi. tauto.
Qed.

(** One turn of the loop of column generation up to the answer of the
    pricing problem. *)
Lemma pricing_Done (m : MP) :
  consistent m -> demands_present m ->
  exists pi,
    solve_relaxation m = Done (lp_state m) /\
    consistent (lp_state m) /\ demands_present (lp_state m) /\
    committed_from (set_cover m) (set_cover (lp_state m)) /\
    length (sol_X (set_cover (lp_state m))) = length (x (lp_state m)) /\
    dual_prices (lp_state m) = Done pi /\
    knapsack (lp_state m) pi =
    (let y := map (solve_Y pi (w (ins m)) (W (ins m))) (seq 0 (I (ins m))) in
     if Qgtb (dot pi y) (1 + knapsack_tolerance) then Done (Val y)
     else Done End).
Proof.
  intros Hc Hd.
  pose proof (solve_relaxation_Done m Hc) as Hs.
  pose proof (solve_relaxation_consistent m _ Hs Hc) as Hc1.
  destruct (solve_relaxation_model m _ Hs (proj2 (consistent_ok m Hc)))
    as (Hcm & _ & Hlen).
  destruct (lp_state_model m) as (Hg & Hcons & Hins).
  destruct (demands_present_committed m _ Hd Hcons Hcm) as [Hd1 Hin].
  destruct (dual_prices_Done (lp_state m)) as (pi & Hpi & Hl).
  { intros h Hh. rewrite Hg. apply Pi_of_optimize.
    unfold relaxed_model in Hg. rewrite <- Hg. now apply Hin. }
  exists pi. repeat (split; [assumption|]).
  split.
  { rewrite Hlen. destruct Hc1 as [_ _ _ _ _ _ Hx _ _ _].
    rewrite Hx. now rewrite length_seq. }
  split; [exact Hpi|].
  rewrite knapsack_unfold, Hins; [reflexivity|].
  rewrite Hl. now destruct Hc1.
Qed.


(** ** Calls that cannot run out of fuel *)

Lemma bind_no_fuel {A B} (c : outcome A) (k : A -> outcome B) :
  c <> OutOfFuel -> (forall a, k a <> OutOfFuel) -> bind c k <> OutOfFuel.
Proof. intros Hc Hk. destruct c; simpl; [apply Hk | discriminate | now contradiction Hc]. Qed.

Lemma index_no_fuel {A} (l : list A) (i : nat) : index l i <> OutOfFuel.
Proof. unfold index. destruct (nth_error l i); discriminate. Qed.

Lemma assign_no_fuel {A} (l : list A) (i : nat) (v : A) :
  assign l i v <> OutOfFuel.
Proof.
  revert i. induction l as [|a l IH]; intros [|i]; simpl; try discriminate.
  apply bind_no_fuel; [apply IH | discriminate].
Qed.

Lemma for_from_no_fuel {S} (body : nat -> S -> outcome S) (n start : nat) (s : S) :
  (forall i t, body i t <> OutOfFuel) -> for_from start n body s <> OutOfFuel.
Proof.
  intro Hb. revert start s. induction n as [|n IH]; intros start s; simpl;
    [discriminate|].
  apply bind_no_fuel; [apply Hb | intro a; apply IH].
Qed.

Ltac no_fuel :=
  repeat first
    [ progress cbv beta zeta
    | discriminate
    | simple apply index_no_fuel
    | simple apply assign_no_fuel
    | simple apply bind_no_fuel; [|intro]
    | simple apply for_from_no_fuel; intros
    | match goal with
      | |- (let '(_, _) := ?p in _) <> _ => destruct p
      | |- (if ?c then _ else _) <> _ => destruct c
      | |- (match ?x with _ => _ end) <> _ => destruct x
      end ].

Lemma single_fill_no_fuel inst i : single_fill inst i <> OutOfFuel.
Proof. unfold single_fill. no_fuel. Qed.

Lemma initial_no_fuel m : initial m <> OutOfFuel.
Proof.
  unfold initial, for_range.
  repeat first [simple apply single_fill_no_fuel | progress no_fuel].
Qed.

Lemma build_model_no_fuel m : build_model m <> OutOfFuel.
Proof.
  unfold build_model, for_range.
  repeat first [simple apply initial_no_fuel | progress no_fuel].
Qed.

(** ** When [build_model] returns *)

Lemma initial_nonzero (m : MP) :
  (forall i, (i < I (ins m))%nat -> ~ nth i (w (ins m)) 0 == 0) ->
  initial m =
  Done (map (fun i => repeat 0 i ++ fill (ins m) i
                        :: repeat 0 (I (ins m) - i - 1))
            (seq 0 (I (ins m))),
        set_M (map (fill (ins m)) (seq 0 (I (ins m)))) m).
Proof.
  intro Hnz. unfold initial, for_range.
  rewrite (for_from_append _
             (fun i => repeat 0 i ++ fill (ins m) i
                         :: repeat 0 (I (ins m) - i - 1))).
  - simpl. rewrite (for_from_append _ (fill (ins m))).
    + reflexivity.
    + intros i a Hi. rewrite single_fill_Done by (try apply Hnz; lia).
      reflexivity.
  - intros i a Hi. rewrite single_fill_Done by (try apply Hnz; lia).
    simpl. rewrite assign_repeat by lia. reflexivity.
Qed.

Lemma build_model_Done (inst : Instance) :
  (forall i, (i < I inst)%nat -> ~ nth i (w inst) 0 == 0) ->
  (I inst <= length (d inst))%nat ->
  exists m, build_model (MP_init inst) = Done m.
Proof.
  intros Hw Hd. unfold build_model.
  rewrite initial_nonzero by exact Hw. cbn [bind].
  cbn [ins MP_init set_M set_P set_pattern P pattern].
  unfold for_range.
  match goal with
  | |- context [for_from 0 ?n ?body ([], empty_model)] =>
      destruct (for_from_ok
                  (fun i (s : list nat * Model) =>
                     fst s = seq 0 i /\ length (vars (snd s)) = i)
                  body n 0 ([], empty_model))
        as ([xs g1] & Hrun & Hxs & _)
  end.
  - split; reflexivity.
  - intros i [xs0 g0] _ [Hs Hl]. cbn [fst snd] in Hs, Hl. subst xs0.
    eexists. split; [reflexivity|]. cbn [fst snd vars].
    rewrite Hl, seq_S, length_app. simpl. split; [reflexivity | lia].
  - rewrite Hrun. cbn [bind]. cbn [fst Nat.add] in Hxs. subst xs.
    match goal with
    | |- context [for_from 0 ?n ?body (@nil (Q * nat))] =>
        destruct (for_from_ok (fun (i : nat) (o : list (Q * nat)) => True)
                              body n 0 []) as (obj & Hobj & _)
    end.
    + exact Logic.I.
    + intros i o Hi _.
      rewrite (index_lt (seq 0 (I inst)) i 0%nat) by (rewrite length_seq; lia).
      cbn [bind]. eauto.
    + rewrite Hobj. cbn [bind].
      rewrite length_map, length_seq.
      match goal with
      | |- context [for_from 0 ?n ?body (@nil nat, ?g)] =>
          destruct (for_from_ok
                      (fun (i : nat) (s : list nat * Model) => True)
                      body n 0 ([], g)) as ([cs g2] & Hcs & _)
      end.
      * exact Logic.I.
      * intros i [cs0 g0] Hi _.
        match goal with
        | |- context [for_from 0 ?n ?body (@nil (Q * nat))] =>
            destruct (for_from_ok (fun (j : nat) (o : list (Q * nat)) => True)
                                  body n 0 []) as (restr & Hrestr & _)
        end.
        -- exact Logic.I.
        -- intros j o Hj _.
           set (row := fun i => repeat 0 i ++ fill inst i
                                  :: repeat 0 (I inst - i - 1)).
           rewrite (index_lt _ i (row 0%nat))
             by (rewrite length_map, length_seq; lia).
           cbn [bind].
           rewrite (index_lt _ j 0).
           2:{ rewrite map_nth, seq_nth by lia. unfold row.
               rewrite length_app, repeat_length. simpl.
               rewrite repeat_length. lia. }
           cbn [bind].
           rewrite (index_lt (seq 0 (I inst)) j 0%nat)
             by (rewrite length_seq; lia).
           cbn [bind]. eauto.
        -- rewrite Hrestr. cbn [bind].
           rewrite (index_lt (d inst) i 0) by lia. cbn [bind].
           eexists. split; [reflexivity | exact Logic.I].
      * rewrite Hcs. cbn [bind]. eauto.
Qed.

Lemma initial_widths (m : MP) r :
  initial m = Done r ->
  forall i, (i < I (ins m))%nat -> ~ nth i (w (ins m)) 0 == 0.
Proof.
  unfold initial, for_range. intro H.
  apply bind_Done in H as (p & Hp & _).
  refine (for_from_inv
            (fun n (_ : list (list Q)) =>
               forall i, (i < n)%nat -> ~ nth i (w (ins m)) 0 == 0)
            _ _ 0%nat [] p _ _ Hp).
  - intros i Hi. lia.
  - intros n t t' _ Hinv Hb i Hi.
    apply bind_Done in Hb as (v & Hv & _).
    destruct (Nat.eq_dec i n) as [->|Hne]; [|apply Hinv; lia].
    unfold single_fill in Hv.
    apply bind_Done in Hv as (wi & Hwi & Hv).
    apply (index_nth _ _ _ 0) in Hwi as [-> _].
    destruct (Qeq_bool (nth n (w (ins m)) 0) 0) eqn:E; [discriminate|].
    intro E'. apply Qeq_bool_iff in E'. congruence.
Qed.

Lemma build_model_demands (inst : Instance) m :
  build_model (MP_init inst) = Done m -> (I inst <= length (d inst))%nat.
Proof.
  unfold build_model. intro H.
  apply bind_Done in H as ([p m0] & Hi & H).
  apply initial_state in Hi as (M' & ->).
  cbn [ins MP_init set_M set_P set_pattern] in H.
  apply bind_Done in H as ([xs g1] & _ & H).
  apply bind_Done in H as (obj & _ & H).
  apply bind_Done in H as ([cs g2] & Hcs & _).
  unfold for_range in Hcs.
  refine (for_from_inv
            (fun n (_ : list nat * Model) => (n <= length (d inst))%nat)
            _ _ 0%nat _ _ _ _ Hcs).
  - lia.
  - intros n [cs0 g0] t' _ Hinv Hb.
    apply bind_Done in Hb as (restr & _ & Hb).
    apply bind_Done in Hb as (di & Hdi & _).
    apply (index_nth _ _ _ 0) in Hdi as [_ Hlt]. lia.
Qed.

(** X10: [build_model] returns exactly when no width is zero and there is a
    demand for every item; otherwise it raises (a division by zero in
    [initial], or an index error at [ins.d[i]]).  Negative widths and widths
    above the capacity are accepted. *)
Theorem build_model_returns_iff (inst : Instance) :
  ((exists m, build_model (MP_init inst) = Done m) <->
   (forall i, (i < I inst)%nat -> ~ nth i (w inst) 0 == 0) /\
   (I inst <= length (d inst))%nat) /\
  build_model (MP_init inst) <> OutOfFuel.
Proof.
  split; [split|apply build_model_no_fuel].
  - intros (m & H). split; [|now apply (build_model_demands inst m)].
    unfold build_model in H. apply bind_Done in H as (r & Hr & _).
    exact (initial_widths _ r Hr).
  - intros [Hw Hd]. now apply build_model_Done.
Qed.

(** ** Reading an instance *)

Lemma parse_rows_result (rows : list (list Q)) :
  parse_rows rows =
  if forallb (fun r => 2 <=? length r)%nat rows
  then Done (map (fun r => (nth 0 r 0, nth 1 r 0)) rows)
  else Raised.
Proof.
  induction rows as [|r rows IH]; [reflexivity|].
  cbn [parse_rows forallb map]. rewrite IH.
  destruct r as [|a [|b r]]; try reflexivity.
  cbn. destruct (forallb _ rows); reflexivity.
Qed.

(** X11: what [Instance.__init__] makes of the numbers of a file.  The
    first number of the first line is the capacity; every later line gives
    a size and a demand, and numbers after the second are ignored.  An empty
    file, an empty first line, or a later line with fewer than two numbers
    (a blank line, say) raises an index error.  A file with only the
    capacity line is accepted and gives an instance without items. *)
Theorem Instance_init_result (data : list (list Q)) :
  match data with
  | (cap :: _) :: rows =>
      if forallb (fun r => 2 <=? length r)%nat rows
      then Instance_init data
           = Done {| W := cap;
                     w := map (fun r => nth 0 r 0) rows;
                     d := map (fun r => nth 1 r 0) rows |}
      else Instance_init data = Raised
  | _ => Instance_init data = Raised
  end.
Proof.
  destruct data as [|[|cap first] rows]; try reflexivity.
  unfold Instance_init. cbn [index nth_error bind tl].
  rewrite parse_rows_result.
  destruct (forallb _ rows); [|reflexivity].
  cbn [bind]. now rewrite !map_map.
Qed.

(** X12: an instance without items makes the driver fail.  [build_model]
    returns a model without variables and an empty pattern matrix, and the
    script then raises an index error at [len(model.pattern[0])], whatever
    the selector; this is what happens to a file that holds only the
    capacity line. *)
Theorem instance_without_items_fails (fuel : nat) (inst : Instance)
  (sel : soft_type) :
  I inst = 0%nat ->
  (exists m, build_model (MP_init inst) = Done m /\ pattern m = [] /\
             vars (set_cover m) = [] /\
             constrs (set_cover m) ++ pending (set_cover m) = []) /\
  baseline fuel inst = Raised /\
  main fuel inst sel = Raised.
Proof.
  intro H. destruct inst as [W0 w0 d0]. unfold I in H. cbn [w] in H.
  destruct w0; [|discriminate].
  split; [eexists; split; [reflexivity|]; repeat split|].
  split; reflexivity.
Qed.

(** ** What a column generation run leaves behind *)

Lemma dual_prices_ext (m m' : MP) :
  cons m' = cons m -> set_cover m' = set_cover m ->
  dual_prices m' = dual_prices m.
Proof. intros Hc Hg. unfold dual_prices. now rewrite Hc, Hg. Qed.

Lemma knapsack_ext (m m' : MP) (pi : list Q) :
  ins m' = ins m -> knapsack m' pi = knapsack m pi.
Proof. intro Hi. unfold knapsack. now rewrite Hi. Qed.

Lemma retype_all_vtype (vt : vtype) (vs : list Var) :
  Forall (fun v => v_vtype v = vt) (retype_all vt vs).
Proof.
  unfold retype_all. apply Forall_forall. intros v Hin.
  apply in_map_iff in Hin as (v0 & <- & _). reflexivity.
Qed.

Lemma lp_state_frame (m : MP) :
  vars (set_cover (lp_state m))
  = retype_all CONTINUOUS (vars (set_cover m)) /\
  x_IP (lp_state m) = x_IP m /\ x (lp_state m) = x m /\
  total_column (lp_state m) = total_column m /\
  columns_added (lp_state m) = columns_added m /\
  column_flag (lp_state m) = column_flag m /\
  pattern (lp_state m) = pattern m.
Proof.
  unfold lp_state. cbv zeta. destruct (eltb _ _); repeat split.
Qed.

Lemma add_column_counts (c : list Q) (m m' : MP) :
  add_column c m = Done m' ->
  columns_added m' = Datatypes.S (columns_added m) /\ x_IP m' = x_IP m.
Proof. unfold add_column. intro H. frame H. Qed.

Lemma round_solution_counts (m m' : MP) :
  round_solution m = Done m' ->
  columns_added m' = columns_added m /\ x_IP m' = x_IP m /\
  column_flag m' = column_flag m.
Proof. unfold round_solution. intro H. frame H. Qed.

(** Everything a returning run of [column_generation] is known to leave
    behind, by induction on the turns of its loop. *)
Lemma column_generation_run (fuel : nat) (m m' : MP) :
  consistent m -> (1 <= I (ins m))%nat -> demands_present m ->
  column_generation fuel m = Done m' ->
  (exists pi, dual_prices m' = Done pi /\ knapsack m' pi = Done End) /\
  (total_column m <= total_column m')%nat /\
  (total_column m' + columns_added m
   = total_column m + columns_added m')%nat /\
  (total_column m' - total_column m < fuel)%nat /\
  column_flag m'
  = (column_flag m || negb (Nat.eqb (total_column m') (total_column m))) /\
  Forall (fun v => v_vtype v = CONTINUOUS) (vars (set_cover m')) /\
  x_rel m' = map positive_part (sol_X (set_cover m')) /\
  length (sol_X (set_cover m')) = length (x m') /\
  x_IP m' = x_IP m /\
  demands_present m' /\ pending (set_cover m') = [].
Proof.
  revert m. induction fuel as [|fuel IH]; intros m Hc HI Hd H; [discriminate|].
  destruct (pricing_Done m Hc Hd)
    as (pi & Hs & Hc1 & Hd1 & Hcm & Hlen & Hpi & Hk).
  destruct (lp_state_model m) as (Hg & Hcons & Hins).
  destruct (lp_state_frame m) as (Hv & HxIP & Hx & Ht & Hca & Hcf & _).
  cbn [column_generation] in H. rewrite Hs in H. cbn [bind] in H.
  rewrite Hpi in H. cbn [bind] in H. rewrite Hk in H. cbv zeta in H.
  destruct (Qgtb _ _) eqn:Eg; cbn [bind] in H.
  - apply bind_Done in H as (m2 & H2 & H).
    destruct (add_column_consistent _ _ _ H2 Hc1)
      as (Hc2 & _ & _ & Ht2 & Hcm2 & _).
    pose proof (add_column_frame _ _ _ H2) as (_ & Hi2 & _ & Hcons2 & _ & Hf2).
    pose proof (add_column_counts _ _ _ H2) as (Hca2 & HxIP2).
    destruct (IH m2 Hc2) with (3 := H)
      as (Hend & Hle & Hsum & Hfuel & Hflag & Hty & Hxr & Hl & HIP & Hdp & Hp);
      [now rewrite Hi2, Hins
      | now apply (demands_present_committed (lp_state m) m2 Hd1 Hcons2 Hcm2)
      |].
    rewrite Ht2, Ht in Hle, Hsum, Hfuel, Hflag. rewrite Hca2, Hca in Hsum.
    split; [exact Hend|]. split; [lia|]. split; [lia|]. split; [lia|].
    split.
    { rewrite Hflag, Hf2.
      destruct (Nat.eqb_spec (total_column m') (total_column m)); [lia|].
      now rewrite orb_true_r. }
    repeat (split; [assumption|]).
    split; [congruence|]. split; assumption.
  - apply bind_Done in H as (m2 & H2 & H). injection H as <-.
    destruct Hc1 as [_ _ _ _ _ _ Hx1 _ _ _].
    rewrite round_solution_Done in H2
      by (rewrite Hlen, Hx1, length_seq; reflexivity).
    injection H2 as <-.
    cbn [set_sol_rel set_rounded set_x_rel total_column columns_added
         column_flag set_cover x_rel x x_IP].
    split.
    { exists pi. split.
      - rewrite <- Hpi. now apply dual_prices_ext.
      - rewrite (knapsack_ext (lp_state m)) by reflexivity.
        rewrite Hk. cbv zeta. now rewrite Eg. }
    rewrite Ht, Hca, Hcf, Nat.eqb_refl, orb_false_r.
    split; [lia|]. split; [lia|]. split; [lia|]. split; [reflexivity|].
    split; [rewrite Hv; apply retype_all_vtype|].
    split; [reflexivity|]. split; [exact Hlen|]. split; [exact HxIP|].
    split; [exact Hd1 | apply Hcm].
Qed.

(** X13: what a returning run of [column_generation] leaves behind, from
    any state of a run that still holds its demand constraints (with at
    least one item): the pricing problem for the final dual prices returned
    ['End'], so no column prices out; [total_column] and [columns_added]
    grew by the same number of columns, which is less than the number of
    turns; [column_flag] is set exactly when it was set before or a column
    was added; every variable is continuous; [x_rel] holds the positive part
    of the final relaxed solution; and [x_IP] is untouched. *)
Theorem column_generation_postcondition (fuel : nat) (m m' : MP) :
  reachable m -> (1 <= I (ins m))%nat -> demands_present m ->
  column_generation fuel m = Done m' ->
  (exists pi, dual_prices m' = Done pi /\ knapsack m' pi = Done End) /\
  (total_column m <= total_column m')%nat /\
  (total_column m' + columns_added m
   = total_column m + columns_added m')%nat /\
  (total_column m' - total_column m < fuel)%nat /\
  column_flag m'
  = (column_flag m || negb (Nat.eqb (total_column m') (total_column m))) /\
  Forall (fun v => v_vtype v = CONTINUOUS) (vars (set_cover m')) /\
  x_rel m' = map positive_part (sol_X (set_cover m')) /\
  x_IP m' = x_IP m.
Proof.
  intros Hr HI Hd H.
  destruct (column_generation_run fuel m m' (reachable_consistent m Hr)
                                  HI Hd H)
    as (H1 & H2 & H3 & H4 & H5 & H6 & H7 & _ & H9 & _).
  repeat (split; [assumption|]). exact H9.
Qed.

(** ** The soft-fixing methods return *)









(** ** A run of the driver does not raise *)















(** ** Where a call does raise *)

Lemma Pi_of_no_fuel (g : Model) (h : nat) : Pi_of g h <> OutOfFuel.
Proof. unfold Pi_of. destruct (find _ _); discriminate. Qed.

Lemma dual_prices_no_fuel (m : MP) : dual_prices m <> OutOfFuel.
Proof.
  unfold dual_prices, for_range.
  repeat first [simple apply Pi_of_no_fuel | progress no_fuel].
Qed.

Lemma aggregate_fixing_no_fuel (sel : Q -> bool) (factor : Q) (m : MP) :
  aggregate_fixing sel factor m <> OutOfFuel.
Proof.
  unfold aggregate_fixing, for_range, X_of. no_fuel.
Qed.

Lemma dual_prices_handles (m : MP) (pi : list Q) :
  dual_prices m = Done pi ->
  forall h, In h (cons m) -> exists v, Pi_of (set_cover m) h = Done v.
Proof.
  unfold dual_prices, for_range. intros H h Hh.
  apply In_nth with (d := 0%nat) in Hh as (i & Hi & <-).
  revert i Hi.
  refine (for_from_inv
            (fun n (_ : list Q) =>
               forall i, (i < n)%nat ->
                 exists v, Pi_of (set_cover m) (nth i (cons m) 0%nat) = Done v)
            _ _ 0%nat _ _ _ _ H).
  - intros i Hi. lia.
  - intros n t t' _ Hinv Hb i Hi.
    destruct (Nat.eq_dec i n) as [->|Hne]; [|apply Hinv; lia].
    apply bind_Done in Hb as (h & Hh & Hb).
    apply bind_Done in Hb as (v & Hv & _).
    apply (index_nth _ _ _ 0%nat) in Hh as [-> _]. eauto.
Qed.

Lemma Pi_of_optimize_Done (g : Model) (h : nat) (v : Q) :
  Pi_of (optimize g) h = Done v -> In h (ids (constrs (optimize g))).
Proof.
  unfold Pi_of, optimize. cbn [sol_Pi constrs set_solution].
  destruct (find _ _) as [p|] eqn:E; [|discriminate]. intros _.
  apply find_some in E as [Hin Heq]. apply Nat.eqb_eq in Heq.
  apply in_map_iff in Hin as (c & <- & Hc). cbn [fst] in Heq.
  rewrite <- Heq. unfold ids. now apply in_map.
Qed.

(** X15: a removal that is not paired with an apply breaks the run.  In a
    state of a run whose committed constraints are exactly the demand
    constraints, [remove_soft_fixing] does not fail: it takes out the last
    demand constraint.  The handle list [cons] still names it, so the next
    [column_generation] raises when it reads the dual price of that
    constraint. *)
Theorem unpaired_removal_breaks_pricing (fuel : nat) (m : MP) :
  reachable m -> (1 <= I (ins m))%nat ->
  pending (set_cover m) = [] ->
  ids (constrs (set_cover m)) = cons m ->
  exists m' c,
    remove_soft_fixing m = Done m' /\
    removed (set_cover m') = removed (set_cover m) ++ [c] /\
    c_id c = last (cons m) 0%nat /\
    length (constrs (set_cover m')) = (I (ins m) - 1)%nat /\
    column_generation (Datatypes.S fuel) m' = Raised.
Proof.
  intros Hr HI Hp Hids. pose proof (reachable_consistent m Hr) as Hc.
  pose proof Hc as [_ Hcons _ _ _ _ _ _ [Hnd _] Hrm].
  rewrite Hp, app_nil_r in Hnd.
  assert (Hne : constrs (set_cover m) <> []).
  { intro E. rewrite E in Hids. simpl in Hids. rewrite <- Hids in Hcons.
    simpl in Hcons. lia. }
  destruct (exists_last Hne) as (cs & c & Ecs). rewrite Ecs in Hnd, Hids.
  pose proof (remove_last_Done (set_cover m) cs c Ecs Hp Hrm Hnd) as Hrl.
  set (g' := {| vars := vars (set_cover m); constrs := cs; pending := [];
                removing := []; next_id := next_id (set_cover m);
                removed := removed (set_cover m) ++ [c];
                sol_X := sol_X (set_cover m);
                sol_Pi := sol_Pi (set_cover m) |}) in Hrl.
  assert (Hrem : remove_soft_fixing m = Done (set_set_cover g' m)).
  { unfold remove_soft_fixing. now rewrite Hrl. }
  exists (set_set_cover g' m), c.
  split; [exact Hrem|]. split; [reflexivity|].
  rewrite ids_app in Hids. cbn [ids map] in Hids.
  split; [rewrite <- Hids; now rewrite last_last|].
  split.
  { pose proof (f_equal (@length nat) Hids) as Hl.
    rewrite length_app in Hl. unfold ids in Hl. rewrite length_map in Hl.
    simpl in Hl. cbn. lia. }
  assert (Hc' : consistent (set_set_cover g' m)).
  { apply (call_consistent call_remove_soft_fixing m); assumption. }
  cbn [column_generation].
  rewrite (solve_relaxation_Done _ Hc'). cbn [bind].
  destruct (lp_state_model (set_set_cover g' m)) as (Hg & Hcons' & _).
  destruct (dual_prices (lp_state (set_set_cover g' m))) as [pi| |] eqn:Epi.
  - exfalso.
    destruct (dual_prices_handles _ pi Epi (c_id c)) as (v & Hv).
    { rewrite Hcons'. cbn [cons set_set_cover]. rewrite <- Hids.
      apply in_or_app. right. now left. }
    rewrite Hg in Hv. unfold relaxed_model in Hv.
    apply Pi_of_optimize_Done in Hv.
    destruct (solve_relaxation_model _ _ (solve_relaxation_Done _ Hc')
                (proj2 (consistent_ok _ Hc'))) as ((Hi & _) & _).
    rewrite Hg in Hi. unfold relaxed_model in Hi. rewrite Hi in Hv.
    cbn [set_cover set_set_cover constrs pending g'] in Hv.
    rewrite app_nil_r in Hv.
    unfold ids in Hnd. rewrite map_app in Hnd. cbn [map] in Hnd.
    apply NoDup_remove_2 in Hnd. rewrite app_nil_r in Hnd. contradiction.
  - reflexivity.
  - now destruct (dual_prices_no_fuel _ Epi).
Qed.

Lemma add_column_solution (c : list Q) (m m' : MP) :
  add_column c m = Done m' ->
  sol_X (set_cover m') = sol_X (set_cover m) /\
  x m' = x m ++ [length (vars (set_cover m))].
Proof.
  unfold add_column. intro H.
  destruct (negb _); [discriminate|]. cbn [addVar] in H.
  apply bind_Done in H as (pat & _ & H).
  apply bind_Done in H as (row0 & _ & H). injection H as <-.
  split; reflexivity.
Qed.

Lemma round_solution_found (m m' : MP) :
  round_solution m = Done m' -> column_found m' = column_found m.
Proof. unfold round_solution. intro H. frame H. Qed.

Lemma lp_state_found (m : MP) : column_found (lp_state m) = column_found m.
Proof. unfold lp_state. cbv zeta. now destruct (eltb _ _). Qed.

(** After [column_generation_2] has found a column, the new variable has no
    value in the current solution. *)
Lemma column_found_stale (m1 m2 : MP) :
  consistent m1 -> column_generation_2 m1 = Done m2 ->
  column_found m2 = true ->
  In (length (sol_X (set_cover m2))) (x m2).
Proof.
  intros Hc H Hf. unfold column_generation_2 in H.
  assert (Hc0 : consistent (set_column_found false m1)).
  { apply (consistent_same m1 _ Hc); [|reflexivity].
    unfold same_data. repeat split. }
  rewrite (solve_relaxation_Done _ Hc0) in H. cbn [bind] in H.
  apply bind_Done in H as (pi & _ & H).
  apply bind_Done in H as (coluna & _ & H).
  destruct (solve_relaxation_model _ _ (solve_relaxation_Done _ Hc0)
              (proj2 (consistent_ok _ Hc0))) as (_ & _ & Hlen).
  destruct coluna as [c|].
  - apply add_column_solution in H as [HX Hx].
    cbn [set_cover set_column_found x] in HX, Hx.
    rewrite HX, Hx, Hlen. apply in_or_app. right. now left.
  - apply round_solution_found in H.
    rewrite lp_state_found in H. cbn in H. congruence.
Qed.

Lemma soft_fixing_type3_stale (m : MP) :
  In (length (sol_X (set_cover m))) (x m) -> soft_fixing_type3 m = Raised.
Proof.
  intro Hin. unfold soft_fixing_type3.
  destruct (aggregate_fixing _ _ m) as [m'| |] eqn:E; [|reflexivity|].
  - apply aggregate_fixing_constraint in E as [_ HF]. cbv zeta in HF.
    rewrite Forall_forall in HF. specialize (HF _ Hin). lia.
  - now destruct (aggregate_fixing_no_fuel _ _ _ E).
Qed.

(** X16: with selector 3 the driver fails as soon as the one-step column
    generation finds a column.  [column_generation_2] adds the column and
    sets [column_found], the [while] loop removes the Type-3 constraint and
    calls [soft_fixing_type3] again, and that call reads [x[i].X] of the
    variable just added, which has no value before the next [optimize]: it
    raises.  So the branch of selector 3 returns only when the first
    [column_generation_2] finds no column. *)
Theorem selector3_retry_raises (fuel : nat) (m m1 m2 : MP) :
  reachable m ->
  soft_fixing_type3 m = Done m1 ->
  column_generation_2 m1 = Done m2 ->
  column_found m2 = true ->
  (exists m3, remove_soft_fixing m2 = Done m3 /\
              soft_fixing_type3 m3 = Raised) /\
  retry_type3 (Datatypes.S fuel) m2 = Raised /\
  dispatch (Datatypes.S fuel) sel3 m = Raised.
Proof.
  intros Hr H1 H2 Hf.
  assert (R1 : reachable m1)
    by now apply (reach_call call_soft_fixing_type3 m).
  pose proof (reachable_consistent m1 R1) as Hc1.
  pose proof (column_found_stale m1 m2 Hc1 H2 Hf) as Hstale.
  destruct (column_generation_2_consistent m1 m2 H2 Hc1)
    as (_ & (Hids & _) & _).
  destruct (aggregate_fixing_appended _ _ _ _ H1) as (c1 & _ & _ & Hp1 & _).
  assert (Hrem : exists m3, remove_soft_fixing m2 = Done m3 /\
                            soft_fixing_type3 m3 = Raised).
  { unfold remove_soft_fixing, remove_last.
    destruct (rev (constrs (set_cover m2))) as [|c t] eqn:Er.
    - exfalso. apply (f_equal (@rev Constr)) in Er.
      rewrite rev_involutive in Er. simpl in Er. rewrite Er, Hp1 in Hids.
      rewrite !ids_app in Hids. simpl in Hids.
      destruct (ids (constrs (set_cover m1))); destruct (ids (pending (set_cover m)));
        discriminate.
    - cbn [bind]. eexists. split; [reflexivity|].
      apply soft_fixing_type3_stale. exact Hstale. }
  split; [exact Hrem|].
  destruct Hrem as (m3 & H3 & H4).
  assert (Hretry : retry_type3 (Datatypes.S fuel) m2 = Raised).
  { cbn [retry_type3]. rewrite Hf, H3. cbn [bind]. now rewrite H4. }
  split; [exact Hretry|].
  cbn [dispatch]. rewrite H1. cbn [bind]. rewrite H2. cbn [bind].
  now rewrite Hretry.
Qed.

(** ** The initial patterns and the model built from them *)

Lemma combine_seq {A B} (l : list A) (f : nat -> B) (dflt : A) (s : nat) :
  combine l (map f (seq s (length l)))
  = map (fun i => (nth (i - s) l dflt, f i)) (seq s (length l)).
Proof.
  revert s. induction l as [|a l IH]; intro s; [reflexivity|].
  cbn [length seq map combine]. rewrite Nat.sub_diag. cbn [nth]. f_equal.
  rewrite IH. apply map_ext_in. intros i Hi. apply in_seq in Hi.
  replace (i - s)%nat with (Datatypes.S (i - Datatypes.S s)) by lia.
  reflexivity.
Qed.

Lemma sum_indicator (c : Q) (j n : nat) :
  sum_list (map (fun i => if Nat.eqb i j then c else 0) (seq 0 n))
  == if Nat.ltb j n then c else 0.
Proof.
  induction n as [|n IH]; [reflexivity|].
  rewrite seq_S, map_app. cbn [map Nat.add]. rewrite sum_list_snoc, IH.
  destruct (Nat.eqb_spec n j) as [->|Hne].
  - rewrite Nat.ltb_irrefl.
    replace (j <? Datatypes.S j)%nat with true
      by (symmetry; apply Nat.ltb_lt; lia).
    apply Qplus_0_l.
  - destruct (Nat.ltb_spec j n) as [Hlt|Hge].
    + replace (j <? Datatypes.S n)%nat with true
        by (symmetry; apply Nat.ltb_lt; lia).
      apply Qplus_0_r.
    + replace (j <? Datatypes.S n)%nat with false
        by (symmetry; apply Nat.ltb_ge; lia).
      apply Qplus_0_r.
Qed.




Lemma build_model_shape (inst : Instance) (m : MP) :
  build_model (MP_init inst) = Done m ->
  pattern m = initial_rows inst /\
  M m = map (fill inst) (seq 0 (I inst)) /\
  P m = I inst /\ x m = seq 0 (I inst) /\ cons m = seq 0 (I inst) /\
  length (vars (set_cover m)) = I inst /\
  Forall (fun v => v_vtype v = INTEGER /\ v_lb v = 0 /\ v_obj v == 1)
         (vars (set_cover m)) /\
  constrs (set_cover m) = [] /\
  pending (set_cover m) = map (demand_row inst) (seq 0 (I inst)) /\
  sol_X (set_cover m) = [].
Proof.
  intro H.
  assert (Hw : forall i, (i < I inst)%nat -> ~ nth i (w inst) 0 == 0).
  { unfold build_model in H. apply bind_Done in H as (r & Hr & _).
    exact (initial_widths _ r Hr). }
  unfold build_model in H. rewrite initial_nonzero in H by exact Hw.
  cbn [bind ins MP_init set_M set_P set_pattern P pattern] in H.
  fold (initial_rows inst) in H.
  assert (Hlen : length (initial_rows inst) = I inst)
    by (unfold initial_rows; now rewrite length_map, length_seq).
  rewrite Hlen in H.
  apply bind_Done in H as ([xs g1] & Hx & H).
  apply bind_Done in H as (obj & Hobj & H).
  apply bind_Done in H as ([cs g2] & Hcs & H). injection H as <-.
  cbn [pattern M P x cons set_cover set_cons set_x set_set_cover set_P
       set_pattern set_M].
  unfold for_range in *.
  apply (for_from_inv
           (fun i s => fst s = seq 0 i /\
                       vars (snd s) = repeat (mkVar INTEGER 0 0) i /\
                       constrs (snd s) = [] /\ pending (snd s) = [] /\
                       next_id (snd s) = 0%nat /\ sol_X (snd s) = []))
    in Hx; [| cbn; tauto |].
  2:{ intros i [xs0 g0] t' _ (Hs & Hv & Hc & Hp & Hn & HX) Hb.
      cbn [fst snd] in *. unfold addVar in Hb. injection Hb as <-.
      cbn [fst snd vars constrs pending next_id sol_X].
      rewrite Hv, Hc, Hp, Hs, repeat_length, seq_S. cbn [map Nat.add].
      repeat split; try assumption.
      now rewrite <- repeat_cons. }
  cbn [fst snd Nat.add] in Hx.
  destruct Hx as (-> & Hv1 & Hc1 & Hp1 & Hn1 & HX1).
  apply (for_from_inv
           (fun i o => o = map (fun k => (1, k)) (seq 0 i))) in Hobj;
    [| reflexivity |].
  2:{ intros i t t' _ -> Hb. apply bind_Done in Hb as (xi & Hxi & Hb).
      injection Hb as <-. apply index_seq in Hxi as ->.
      now rewrite seq_S, map_app. }
  cbn [Nat.add] in Hobj. subst obj.
  set (g0 := setObjective _ g1) in Hcs.
  apply (for_from_inv
           (fun i s => fst s = seq 0 i /\
                       pending (snd s) = map (demand_row inst) (seq 0 i) /\
                       next_id (snd s) = i /\ vars (snd s) = vars g0 /\
                       constrs (snd s) = [] /\ sol_X (snd s) = [])) in Hcs.
  2:{ subst g0. cbn. rewrite Hc1, Hp1, Hn1, HX1. tauto. }
  2:{ intros i [cs0 g] t' Hi (Hs & Hp & Hn & Hv & Hc & HX) Hb.
      cbn [fst snd] in *.
      apply bind_Done in Hb as (restr & Hrestr & Hb).
      apply bind_Done in Hb as (di & Hdi & Hb). injection Hb as <-.
      apply (index_nth _ _ _ 0) in Hdi as [-> _].
      assert (Er : restr = c_lhs (demand_row inst i)).
      { apply (for_from_inv
                 (fun j r =>
                    r = map (fun j => (nth j (nth i (initial_rows inst) []) 0,
                                       j)) (seq 0 j))) in Hrestr.
        - exact Hrestr.
        - reflexivity.
        - intros j r r' _ -> Hb.
          apply bind_Done in Hb as (row & Hrow & Hb).
          apply bind_Done in Hb as (a & Ha & Hb).
          apply bind_Done in Hb as (xj & Hxj & Hb). injection Hb as <-.
          apply (index_nth _ _ _ []) in Hrow as [-> _].
          apply (index_nth _ _ _ 0) in Ha as [-> _].
          apply index_seq in Hxj as ->.
          now rewrite seq_S, map_app. }
      subst restr. cbn [fst snd addConstr pending next_id vars constrs sol_X].
      rewrite Hs, Hp, Hn, !seq_S, map_app. cbn [Nat.add map].
      repeat split; assumption. }
  cbn [fst snd Nat.add] in Hcs.
  destruct Hcs as (-> & Hp2 & Hn2 & Hv2 & Hc2 & HX2).
  repeat (split; [reflexivity|]).
  assert (Hlv : length (vars g0) = I inst).
  { subst g0. unfold setObjective. cbn [vars set_vars].
    rewrite length_map, length_combine, length_seq, Hv1, repeat_length.
    apply Nat.min_id. }
  split; [now rewrite Hv2|]. split; [|tauto].
  rewrite Hv2. apply Forall_forall. intros v Hv.
  assert (Hu : unit_costs g0).
  { subst g0. replace (I inst) with (length (vars g1))
      by now rewrite Hv1, repeat_length.
    apply setObjective_unit_costs. }
  unfold unit_costs in Hu. rewrite Forall_forall in Hu.
  split; [|split; [|now apply Hu]].
  - subst g0. unfold setObjective in Hv. cbn [vars set_vars] in Hv.
    apply in_map_iff in Hv as ([j v0] & <- & Hin).
    apply in_combine_r in Hin. rewrite Hv1 in Hin.
    apply repeat_spec in Hin. now subst v0.
  - subst g0. unfold setObjective in Hv. cbn [vars set_vars] in Hv.
    apply in_map_iff in Hv as ([j v0] & <- & Hin).
    apply in_combine_r in Hin. rewrite Hv1 in Hin.
    apply repeat_spec in Hin. now subst v0.
Qed.

Lemma initial_rows_entry (inst : Instance) (i j : nat) :
  (i < I inst)%nat -> (j < I inst)%nat ->
  nth j (nth i (initial_rows inst) []) 0
  = if Nat.eqb j i then fill inst i else 0.
Proof.
  intros Hi Hj. unfold initial_rows.
  set (row := fun i => repeat 0 i ++ fill inst i :: repeat 0 (I inst - i - 1)).
  rewrite (nth_indep _ [] (row 0%nat)) by now rewrite length_map, length_seq.
  rewrite map_nth, seq_nth by exact Hi. now apply unit_row_entry.
Qed.

Lemma demand_row_eval (inst : Instance) (i : nat) (xs : list Q) :
  (i < I inst)%nat ->
  eval_expr (c_lhs (demand_row inst i)) xs == fill inst i * nth i xs 0.
Proof.
  intro Hi. unfold demand_row. cbn [c_lhs].
  rewrite eval_expr_sum, map_map. cbn [fst snd].
  rewrite (sum_list_Qeq _
             (fun j => if Nat.eqb j i then fill inst i * nth i xs 0 else 0)).
  - rewrite sum_indicator.
    replace (i <? I inst)%nat with true by (symmetry; now apply Nat.ltb_lt).
    reflexivity.
  - intros j Hj. apply in_seq in Hj.
    rewrite initial_rows_entry by lia.
    destruct (Nat.eqb_spec j i) as [->|]; [reflexivity | apply Qmult_0_l].
Qed.


Lemma fill_zero (inst : Instance) (i : nat) :
  0 <= W inst -> 0 < nth i (w inst) 0 ->
  W inst < nth i (w inst) 0 \/ W inst < 1 ->
  fill inst i == 0.
Proof.
  intros HW Hw Hsmall. unfold fill.
  set (q := Qmin (W inst / nth i (w inst) 0) (W inst)).
  assert (H0 : 0 <= q).
  { unfold q. apply Q.min_glb; [|exact HW].
    apply Qle_shift_div_l; [exact Hw|]. now rewrite Qmult_0_l. }
  assert (H1 : q < 1).
  { destruct Hsmall as [Hs|Hs].
    - apply Qle_lt_trans with (W inst / nth i (w inst) 0);
        [apply Q.le_min_l|].
      apply Qlt_shift_div_r; [exact Hw|]. now rewrite Qmult_1_l.
    - apply Qle_lt_trans with (W inst); [apply Q.le_min_r | exact Hs]. }
  assert (Hz : (Qfloor q = 0)%Z).
  { assert (Ha : (0 <= Qfloor q)%Z)
      by (apply Qfloor_resp_le in H0; exact H0).
    assert (Hb : (Qfloor q < 1)%Z).
    { rewrite Zlt_Qlt. apply Qle_lt_trans with q; [apply Qfloor_le | exact H1]. }
    lia. }
  now rewrite Hz.
Qed.

(** X19: an item that does not fit is not rejected: the model is built
    infeasible.  When an item is wider than the capacity, or the capacity is
    below 1, its initial pattern packs 0 pieces, so its demand constraint
    reads [0 >= d_i]: no assignment of the variables of the built model
    satisfies it when the demand is positive. *)
Theorem oversized_item_is_infeasible (inst : Instance) (m : MP) (i : nat) :
  build_model (MP_init inst) = Done m ->
  (i < I inst)%nat ->
  0 <= W inst -> 0 < nth i (w inst) 0 ->
  W inst < nth i (w inst) 0 \/ W inst < 1 ->
  0 < nth i (d inst) 0 ->
  fill inst i == 0 /\
  nth_error (pending (set_cover m)) i = Some (demand_row inst i) /\
  forall xs, ~ c_rhs (demand_row inst i)
               <= eval_expr (c_lhs (demand_row inst i)) xs.
Proof.
  intros H Hi HW Hw Hsmall Hd.
  pose proof (fill_zero inst i HW Hw Hsmall) as Hf.
  destruct (build_model_shape inst m H)
    as (_ & _ & _ & _ & _ & _ & _ & _ & Hp & _).
  split; [exact Hf|]. split.
  - rewrite Hp. rewrite nth_error_map, nth_error_seq.
    replace (i <? I inst)%nat with true by (symmetry; now apply Nat.ltb_lt).
    reflexivity.
  - intros xs Hsat. rewrite demand_row_eval, Hf, Qmult_0_l in Hsat
      by exact Hi.
    cbn [c_rhs demand_row] in Hsat. exact (Qlt_not_le _ _ Hd Hsat).
Qed.

(** ** What the reports show *)

Lemma fold_left_Qplus_comp (l : list Q) (a b : Q) :
  a == b -> fold_left Qplus l a == fold_left Qplus l b.
Proof.
  revert a b. induction l as [|v l IH]; intros a b E; [exact E|].
  simpl. apply IH. now rewrite E.
Qed.

Lemma dot_unit (objs xs : list Q) (acc : Q) :
  Forall (fun o => o == 1) objs -> length objs = length xs ->
  fold_left Qplus (map (fun p => fst p * snd p) (combine objs xs)) acc
  == fold_left Qplus xs acc.
Proof.
  revert xs acc. induction objs as [|o objs IH];
    intros [|v xs] acc Hu Hl; try discriminate; [reflexivity|].
  inversion Hu as [|? ? Ho Hu']; subst. simpl.
  rewrite IH by (try assumption; simpl in Hl; lia).
  apply fold_left_Qplus_comp. now rewrite Ho, Qmult_1_l.
Qed.

Lemma objective_is_sum (g : Model) :
  unit_costs g -> length (sol_X g) = length (vars g) ->
  objective_value g == sum_list (sol_X g).
Proof.
  intros Hu Hl. unfold objective_value, dot, sum_list. apply dot_unit.
  - now apply (Forall_map v_obj (fun q => q == 1)).
  - now rewrite length_map.
Qed.

Lemma positive_part_ge (v : Q) : v <= positive_part v.
Proof.
  unfold positive_part. destruct (Qgtb v 0) eqn:E; [apply Qle_refl|].
  now apply Qgtb_le.
Qed.

Lemma positive_part_nonneg (v : Q) : 0 <= v -> positive_part v == v.
Proof.
  intro Hv. unfold positive_part. destruct (Qgtb v 0) eqn:E; [reflexivity|].
  apply Qgtb_le in E. now apply Qle_antisym.
Qed.

Lemma sum_positive_part_ge (xs : list Q) :
  sum_list xs <= sum_list (map positive_part xs).
Proof.
  induction xs as [|v xs IH] using rev_ind; [apply Qle_refl|].
  rewrite map_app. cbn [map]. rewrite !sum_list_snoc.
  apply Qplus_le_compat; [exact IH | apply positive_part_ge].
Qed.

Lemma sum_positive_part (xs : list Q) :
  nonnegative xs = true -> sum_list (map positive_part xs) == sum_list xs.
Proof.
  intro Hn. rewrite <- (map_id xs) at 2. apply sum_list_Qeq.
  intros v Hv. apply positive_part_nonneg. now apply (nonnegative_In xs).
Qed.

Lemma column_generation_objective (fuel : nat) (m m' : MP) :
  column_generation fuel m = Done m' ->
  sol_rel m' = objective_value (set_cover m') /\
  lb m' = Fin (objective_value (set_cover m')).
Proof.
  revert m. induction fuel as [|fuel IH]; intros m H; [discriminate|].
  cbn [column_generation] in H.
  apply bind_Done in H as (m1 & H1 & H).
  apply bind_Done in H as (pi & _ & H).
  apply bind_Done in H as (coluna & _ & H).
  destruct coluna as [c|].
  - apply bind_Done in H as (m2 & _ & H). now apply IH in H.
  - apply bind_Done in H as (m2 & H2 & H). injection H as <-.
    apply solve_relaxation_bounds in H1 as (_ & _ & Hlb & _).
    apply round_solution_frame in H2 as (_ & _ & _ & Hg & Hl).
    cbn [sol_rel lb set_cover set_sol_rel]. split; [reflexivity|].
    now rewrite Hl, Hg.
Qed.

(** X20: the two sums the reports show are the objectives.  At the end of a
    column generation run the value written as "Relaxation Solution",
    [sum(x_rel)], is at least the objective of the final relaxation, and
    equal to it when the optimiser's values are nonnegative; after an integer
    solve the value written as "Integer Solution", [sum(x_IP)], relates in
    the same way to the integer objective [Z_IP].  The integer solve leaves
    [x_rel], [rounded], [best_lb] and the column counters of the report as
    the column generation left them. *)
Theorem report_sums_are_objectives (k : nat) :
  (forall fuel m m',
     reachable m -> (1 <= I (ins m))%nat -> demands_present m ->
     column_generation fuel m = Done m' ->
     lb m' = Fin (sol_rel m') /\
     sol_rel m' <= r_relaxation (report_lines k m') /\
     fst (print_solution m') = r_relaxation (report_lines k m') /\
     (nonnegative (sol_X (set_cover m')) = true ->
      r_relaxation (report_lines k m') == sol_rel m')) /\
  (forall m m' z,
     reachable m -> solve_IP m = Done m' -> Z_IP m' = Fin z ->
     z <= r_integer (report_lines k m') /\
     (nonnegative (sol_X (set_cover m')) = true ->
      r_integer (report_lines k m') == z) /\
     r_relaxation (report_lines k m') = r_relaxation (report_lines k m) /\
     r_rounding (report_lines k m') = r_rounding (report_lines k m) /\
     r_best_lb (report_lines k m') = r_best_lb (report_lines k m) /\
     r_added (report_lines k m') = r_added (report_lines k m) /\
     r_total (report_lines k m') = r_total (report_lines k m)).
Proof.
  split.
  - intros fuel m m' Hr HI Hd H.
    pose proof (reachable_consistent m Hr) as Hc.
    destruct (column_generation_objective fuel m m' H) as [Hs Hlb].
    destruct (column_generation_run fuel m m' Hc HI Hd H)
      as (_ & _ & _ & _ & _ & _ & Hxr & Hlen & _).
    destruct (column_generation_consistent fuel m m' H Hc)
      as ([_ _ _ _ _ _ Hx Hobj _ _] & _).
    assert (Eo : objective_value (set_cover m')
                 == sum_list (sol_X (set_cover m'))).
    { apply objective_is_sum; [exact Hobj|].
      rewrite Hlen, Hx. now rewrite length_seq. }
    cbn [report_lines r_relaxation print_solution fst].
    rewrite Hxr, Hs. split; [now rewrite Hlb|].
    split; [rewrite Eo; apply sum_positive_part_ge|].
    split; [reflexivity|].
    intro Hn. now rewrite Eo, sum_positive_part.
  - intros m m' z Hr H HZ.
    pose proof (reachable_consistent m Hr) as Hc.
    rewrite (solve_IP_Done m Hc) in H. injection H as <-.
    destruct (ip_state_consistent m Hc) as [_ _ _ _ _ _ Hx Hobj _ _].
    destruct (integer_model_facts (set_cover m)) as (Hlen & _).
    assert (Eo : objective_value (set_cover (ip_state m))
                 == sum_list (sol_X (set_cover (ip_state m)))).
    { apply objective_is_sum; [exact Hobj|].
      change (x (ip_state m)) with (x m) in Hx.
      change (set_cover (ip_state m)) with (integer_model (set_cover m)).
      rewrite Hlen.
      unfold integer_model, optimize.
      cbn [vars set_solution update set_vars]. unfold retype_all.
      now rewrite length_map. }
    change (Z_IP (ip_state m))
      with (Fin (objective_value (set_cover (ip_state m)))) in HZ.
    injection HZ as <-.
    cbn [report_lines r_integer r_relaxation r_rounding r_best_lb r_added
         r_total].
    change (x_IP (ip_state m))
      with (map positive_part (sol_X (set_cover (ip_state m)))).
    split; [rewrite Eo; apply sum_positive_part_ge|].
    split; [intro Hn; now rewrite Eo, sum_positive_part|].
    repeat split.
Qed.

(** ** The one-step column generation *)




(** ** The model mirrors the pattern matrix *)

Lemma kept_refl (g : Model) : kept g g.
Proof. split; [lia|]. intros c Hc. now left. Qed.

Lemma kept_trans (g1 g2 g3 : Model) : kept g1 g2 -> kept g2 g3 -> kept g1 g3.
Proof.
  intros [Hn1 H1] [Hn2 H2]. split; [lia|].
  intros c Hc. destruct (H2 c Hc) as [Hin|Hid]; [|right; lia].
  now apply H1.
Qed.

Lemma kept_retyped (g g' : Model) : retyped g g' -> kept g g'.
Proof.
  intros (_ & Hc & Hp & _ & Hn & _). split; [lia|].
  intros c Hin. left. unfold all_constrs in *. now rewrite <- Hc, <- Hp.
Qed.

Lemma kept_update (g : Model) : kept g (update g).
Proof.
  split; [simpl; lia|]. intros c Hin. left.
  unfold all_constrs, update in Hin. cbn [constrs pending] in Hin.
  rewrite app_nil_r in Hin. now apply filter_In in Hin as [Hin _].
Qed.

Lemma kept_optimize (g : Model) : kept g (optimize g).
Proof. exact (kept_update g). Qed.

Lemma kept_appended (g g' : Model) (added : list Constr) :
  appended g g' added -> kept g g'.
Proof.
  intros (_ & Hc & Hp & _ & _ & _ & _ & Hids & Hn). split; [lia|].
  intros c Hin. unfold all_constrs in *. rewrite Hc, Hp, app_assoc in Hin.
  apply in_app_or in Hin as [Hin|Hin]; [now left | right].
  assert (Hid : In (c_id c) (ids added)) by now apply in_map.
  rewrite Hids in Hid. apply in_seq in Hid. lia.
Qed.

Lemma kept_remove_last (g g' : Model) : remove_last g = Done g' -> kept g g'.
Proof.
  unfold remove_last. intro H.
  destruct (rev (constrs g)) as [|c t]; [discriminate|]. injection H as <-.
  apply (kept_trans g (remove c g)); [|apply kept_update].
  split; [simpl; lia|]. intros c0 Hin. now left.
Qed.

Lemma kept_remove_loop (n : nat) (g g' : Model) :
  for_range n (fun _ t => remove_last t) g = Done g' -> kept g g'.
Proof.
  unfold for_range. intro H.
  refine (for_from_inv (fun _ t => kept g t) _ _ 0%nat _ _ _ _ H).
  - apply kept_refl.
  - intros i t t' _ Ht Hb. apply (kept_trans g t t' Ht).
    now apply kept_remove_last.
Qed.

Lemma relax_lp_kept (m m' : MP) :
  relax_lp m = Done m' -> kept (set_cover m) (set_cover m').
Proof.
  intro H. apply relax_lp_model in H as (g & Hg & -> & _).
  apply (kept_trans _ g); [now apply kept_retyped | apply kept_update].
Qed.

Lemma solve_relaxation_kept (m m' : MP) :
  solve_relaxation m = Done m' -> kept (set_cover m) (set_cover m').
Proof.
  unfold solve_relaxation. intro H.
  apply bind_Done in H as (m1 & H1 & H). cbv zeta in H. injection H as <-.
  apply relax_lp_kept in H1.
  apply (kept_trans _ (set_cover m1) _ H1).
  destruct (eltb (best_lb m1) _); apply kept_optimize.
Qed.

Lemma solve_IP_kept (m m' : MP) :
  solve_IP m = Done m' -> kept (set_cover m) (set_cover m').
Proof.
  unfold solve_IP. intro H.
  apply bind_Done in H as (g & Hg & H).
  apply bind_Done in H as (xip & _ & H). injection H as <-.
  apply set_all_vtypes_retyped in Hg. simpl in Hg.
  cbn [set_cover set_x_IP set_set_cover set_Z_IP].
  apply (kept_trans _ g); [now apply kept_retyped|].
  apply (kept_trans _ (update g)); [apply kept_update | apply kept_optimize].
Qed.

Lemma bounds_return_kept (m m' : MP) :
  bounds_return m = Done m' -> kept (set_cover m) (set_cover m').
Proof.
  unfold bounds_return. intro H.
  apply bind_Done in H as (m1 & H1 & H).
  apply relax_lp_kept in H1. apply solve_IP_kept in H.
  cbn [set_cover set_last_rel set_set_cover] in H.
  apply (kept_trans _ (set_cover m1) _ H1).
  apply (kept_trans _ (optimize (set_cover m1))); [apply kept_optimize|].
  exact H.
Qed.

Lemma mirrors_kept (m m' : MP) :
  mirrors m -> same_data m m' -> kept (set_cover m) (set_cover m') ->
  mirrors m'.
Proof.
  intros (Hcons & Hn & Hrow) (Hi & _ & Hc & Hp & _ & Hx) [Hn' Hk].
  unfold mirrors. rewrite Hi, Hc. split; [exact Hcons|]. split; [lia|].
  intros c Hin Hid.
  assert (E : demand_constr m' (c_id c) = demand_constr m (c_id c))
    by (unfold demand_constr; now rewrite Hi, Hp, Hx).
  rewrite E. destruct (Hk c Hin) as [Hold|Hnew]; [|lia].
  now apply Hrow.
Qed.

Lemma filter_combine_notin {A} (l : list A) (hs : list nat) (k : nat) :
  ~ In k hs ->
  filter (fun t : A * nat => Nat.eqb (snd t) k) (combine l hs) = [].
Proof.
  revert hs. induction l as [|a l IH]; intros [|h hs] Hk; try reflexivity.
  simpl. destruct (Nat.eqb_spec h k) as [E|E].
  - exfalso. apply Hk. now left.
  - apply IH. intro Hin. apply Hk. now right.
Qed.

Lemma filter_combine_seq (c : list Q) (s i : nat) :
  (i < length c)%nat ->
  filter (fun t : Q * nat => Nat.eqb (snd t) (s + i))
         (combine c (seq s (length c)))
  = [(nth i c 0, (s + i)%nat)].
Proof.
  revert s i. induction c as [|a c IH]; intros s i Hi; [simpl in Hi; lia|].
  simpl. destruct i as [|i].
  - rewrite Nat.add_0_r, Nat.eqb_refl. f_equal.
    apply filter_combine_notin. intro Hin. apply in_seq in Hin. lia.
  - destruct (Nat.eqb_spec s (s + Datatypes.S i)) as [E|E]; [lia|].
    replace (s + Datatypes.S i)%nat with (Datatypes.S s + i)%nat by lia.
    apply IH. simpl in Hi. lia.
Qed.

(** What [addVar] with the column of [add_column] does to one constraint. *)
Lemma add_to_constr_column (coluna : list Q) (j : nat) (c : Constr) :
  add_to_constr (combine coluna (seq 0 (length coluna))) j c
  = with_column (length coluna) coluna j c.
Proof.
  unfold add_to_constr, with_column. f_equal.
  destruct (Nat.ltb_spec (c_id c) (length coluna)) as [Hlt|Hge].
  - pose proof (filter_combine_seq coluna 0 (c_id c) Hlt) as E.
    cbn [Nat.add] in E. rewrite E. reflexivity.
  - rewrite filter_combine_notin; [reflexivity|].
    intro Hin. apply in_seq in Hin. lia.
Qed.

Lemma add_column_model (c : list Q) (m m' : MP) :
  add_column c m = Done m' ->
  set_cover m'
  = update (snd (addVar CONTINUOUS 0 1 (combine c (cons m)) (set_cover m))).
Proof.
  unfold add_column. intro H.
  destruct (negb _); [discriminate|]. cbn [addVar] in H.
  apply bind_Done in H as (pat & _ & H).
  apply bind_Done in H as (row0 & _ & H). injection H as <-.
  reflexivity.
Qed.

(** The constraints after [add_column], in a state of a run. *)
Lemma add_column_constrs (c : list Q) (m m' : MP) :
  consistent m -> cons m = seq 0 (I (ins m)) ->
  add_column c m = Done m' ->
  all_constrs (set_cover m')
  = map (with_column (I (ins m)) c (total_column m))
        (all_constrs (set_cover m)).
Proof.
  intros Hc Hcons H.
  destruct (add_column_consistent c m m' H Hc) as (_ & Hlen & _).
  pose proof (consistent_ok m Hc) as [_ Hrm].
  destruct Hc as [_ _ _ _ Htot _ Hx _ _ _].
  rewrite (add_column_model c m m' H), Hcons, <- Hlen.
  rewrite update_commits by exact Hrm.
  unfold all_constrs. cbn [constrs pending addVar snd].
  rewrite app_nil_r, <- map_app.
  assert (Ej : length (vars (set_cover m)) = total_column m)
    by (rewrite Htot, Hx; now rewrite length_seq).
  rewrite Ej. apply map_ext. intro c0. apply add_to_constr_column.
Qed.

Lemma extend_rows_nth (pat : list (list Q)) (c : list Q) (i : nat) :
  length pat = length c -> (i < length c)%nat ->
  nth i (extend_rows pat c) [] = nth i pat [] ++ [nth i c 0].
Proof.
  intros Hlen Hi. unfold extend_rows.
  rewrite (nth_indep _ [] ((fun rc : list Q * Q => fst rc ++ [snd rc])
                             ([], 0)))
    by (rewrite length_map, length_combine; lia).
  rewrite (map_nth (fun rc : list Q * Q => fst rc ++ [snd rc])).
  rewrite combine_nth by exact Hlen. reflexivity.
Qed.

Lemma add_column_mirrors (c : list Q) (m m' : MP) :
  consistent m -> mirrors m -> add_column c m = Done m' -> mirrors m'.
Proof.
  intros Hc (Hcons & Hn & Hrow) H.
  pose proof (add_column_constrs c m m' Hc Hcons H) as Hall.
  destruct (add_column_consistent c m m' H Hc) as (_ & Hlen & Hpat & _).
  pose proof (add_column_frame _ _ _ H) as (_ & Hi & _ & Hcs & _).
  pose proof (add_column_solution _ _ _ H) as (_ & Hx).
  pose proof (add_column_model c m m' H) as Hg.
  destruct Hc as [_ _ Hrows Hcols Htot _ Hxs _ _ _].
  assert (Ej : length (vars (set_cover m)) = total_column m)
    by (rewrite Htot, Hxs; now rewrite length_seq).
  unfold mirrors. rewrite Hi, Hcs. split; [exact Hcons|].
  split; [rewrite Hg; simpl; exact Hn|].
  intros c1 Hin Hid. rewrite Hall in Hin.
  apply in_map_iff in Hin as (c0 & <- & Hin0).
  cbn [with_column c_id] in Hid |- *.
  rewrite (Hrow c0 Hin0 Hid) at 1.
  unfold with_column, demand_constr. cbn [c_id c_lhs c_rhs c_name].
  apply Nat.ltb_lt in Hid as Hb. rewrite Hb.
  rewrite Hi, Hpat, Hx, Ej.
  rewrite extend_rows_nth by lia.
  rewrite combine_snoc; [reflexivity|].
  rewrite Forall_forall in Hcols. rewrite (Hcols (nth (c_id c0) (pattern m) [])).
  - exact Htot.
  - apply nth_In. lia.
Qed.

Lemma round_solution_mirrors (m m' : MP) :
  mirrors m -> round_solution m = Done m' -> mirrors m'.
Proof.
  intros Hm H. apply round_solution_frame in H as (Hd & _ & _ & Hg & _).
  apply (mirrors_kept m m' Hm Hd). rewrite Hg. apply kept_refl.
Qed.

Lemma solve_relaxation_mirrors (m m' : MP) :
  mirrors m -> solve_relaxation m = Done m' -> mirrors m'.
Proof.
  intros Hm H. apply (mirrors_kept m m' Hm).
  - now apply solve_relaxation_bounds in H as (_ & _ & _ & Hd & _).
  - now apply solve_relaxation_kept.
Qed.

Lemma mirrors_same (m m' : MP) :
  mirrors m -> same_data m m' -> set_cover m' = set_cover m -> mirrors m'.
Proof.
  intros Hm Hd Hg. apply (mirrors_kept m m' Hm Hd). rewrite Hg.
  apply kept_refl.
Qed.

Lemma column_generation_mirrors (fuel : nat) (m m' : MP) :
  consistent m -> mirrors m -> column_generation fuel m = Done m' ->
  mirrors m'.
Proof.
  revert m. induction fuel as [|fuel IH]; intros m Hc Hm H; [discriminate|].
  cbn [column_generation] in H.
  apply bind_Done in H as (m1 & H1 & H).
  apply bind_Done in H as (pi & _ & H).
  apply bind_Done in H as (coluna & _ & H).
  pose proof (solve_relaxation_consistent m m1 H1 Hc) as Hc1.
  pose proof (solve_relaxation_mirrors m m1 Hm H1) as Hm1.
  destruct coluna as [c|].
  - apply bind_Done in H as (m2 & H2 & H).
    destruct (add_column_consistent c m1 m2 H2 Hc1) as (Hc2 & _).
    apply (IH m2 Hc2); [|exact H].
    now apply (add_column_mirrors c m1 m2).
  - apply bind_Done in H as (m2 & H2 & H). injection H as <-.
    apply (mirrors_same m2); [|unfold same_data; repeat split|reflexivity].
    now apply (round_solution_mirrors m1 m2).
Qed.

Lemma column_generation_2_mirrors (m m' : MP) :
  consistent m -> mirrors m -> column_generation_2 m = Done m' -> mirrors m'.
Proof.
  unfold column_generation_2. intros Hc Hm H.
  apply bind_Done in H as (m1 & H1 & H).
  apply bind_Done in H as (pi & _ & H).
  apply bind_Done in H as (coluna & _ & H).
  assert (Hc0 : consistent (set_column_found false m)).
  { apply (consistent_same m _ Hc); [|reflexivity].
    unfold same_data. repeat split. }
  assert (Hm0 : mirrors (set_column_found false m)).
  { apply (mirrors_same m _ Hm); [|reflexivity].
    unfold same_data. repeat split. }
  pose proof (solve_relaxation_consistent _ m1 H1 Hc0) as Hc1.
  pose proof (solve_relaxation_mirrors _ m1 Hm0 H1) as Hm1.
  destruct coluna as [c|].
  - apply (add_column_mirrors c (set_column_found true m1) m'); [| |exact H].
    + apply (consistent_same m1 _ Hc1); [|reflexivity].
      unfold same_data. repeat split.
    + apply (mirrors_same m1 _ Hm1); [|reflexivity].
      unfold same_data. repeat split.
  - now apply (round_solution_mirrors m1 m').
Qed.

Lemma appended_mirrors (m m' : MP) (added : list Constr) :
  mirrors m -> same_data m m' ->
  appended (set_cover m) (set_cover m') added -> mirrors m'.
Proof.
  intros Hm Hd Ha. apply (mirrors_kept m m' Hm Hd).
  now apply (kept_appended _ _ added).
Qed.

Lemma call_mirrors (me : method) (m m' : MP) :
  call me m = Done m' -> consistent m -> mirrors m -> mirrors m'.
Proof.
  destruct me; simpl; intros H Hc Hm.
  - apply (mirrors_kept m m' Hm); [now apply relax_lp_frame in H|].
    now apply relax_lp_kept.
  - now apply (add_column_mirrors coluna m m').
  - now apply (column_generation_mirrors fuel m m').
  - now apply (column_generation_2_mirrors m m').
  - apply (mirrors_kept m m' Hm); [now apply solve_IP_frame in H|].
    now apply solve_IP_kept.
  - destruct (aggregate_fixing_appended _ _ _ _ H) as (c & Ha).
    apply aggregate_fixing_frame in H as (Hd & _).
    now apply (appended_mirrors m m' [c]).
  - destruct (soft_fixing_type2_appended _ _ H) as (a & Ha & _).
    apply soft_fixing_type2_frame in H as (Hd & _).
    now apply (appended_mirrors m m' a).
  - destruct (aggregate_fixing_appended _ _ _ _ H) as (c & Ha).
    apply aggregate_fixing_frame in H as (Hd & _).
    now apply (appended_mirrors m m' [c]).
  - destruct (per_item_fixing_appended _ _ _ _ H) as (a & Ha & _).
    apply per_item_fixing_frame in H as (Hd & _).
    now apply (appended_mirrors m m' a).
  - destruct (soft_fixing_type5_appended _ _ H) as (a & Ha & _).
    apply soft_fixing_type5_frame in H as (Hd & _).
    now apply (appended_mirrors m m' a).
  - destruct (soft_fixing_type6_appended _ _ H) as (c & Ha).
    apply soft_fixing_type6_frame in H as (Hd & _).
    now apply (appended_mirrors m m' [c]).
  - destruct (per_item_fixing_appended _ _ _ _ H) as (a & Ha & _).
    apply per_item_fixing_frame in H as (Hd & _).
    now apply (appended_mirrors m m' a).
  - pose proof (remove_soft_fixing_frame m m' H) as (Hd & _).
    apply (mirrors_kept m m' Hm Hd).
    unfold remove_soft_fixing in H. apply bind_Done in H as (g & Hg & H).
    injection H as <-. now apply kept_remove_last.
  - pose proof (remove_soft_fixing_type2_frame m m' H) as (Hd & _).
    apply (mirrors_kept m m' Hm Hd).
    unfold remove_soft_fixing_type2 in H.
    apply bind_Done in H as (g & Hg & H). injection H as <-.
    now apply (kept_remove_loop (I (ins m))).
  - pose proof (remove_soft_fixing_type5_frame m m' H) as (Hd & _).
    apply (mirrors_kept m m' Hm Hd).
    unfold remove_soft_fixing_type5 in H.
    apply bind_Done in H as (g & Hg & H). injection H as <-.
    now apply (kept_remove_loop (cont m)).
  - injection H as <-. destruct (update_alpha_same m) as [Hd Hg].
    now apply (mirrors_same m).
  - injection H as <-. destruct (update_beta_same m) as [Hd Hg].
    now apply (mirrors_same m).
  - injection H as <-. apply (mirrors_same m _ Hm); [|reflexivity].
    unfold same_data. repeat split.
  - apply (mirrors_kept m m' Hm); [now apply bounds_return_frame in H|].
    now apply bounds_return_kept.
Qed.

Lemma combine_seq_id {A} (l : list A) (dflt : A) :
  combine l (seq 0 (length l))
  = map (fun j => (nth j l dflt, j)) (seq 0 (length l)).
Proof.
  rewrite <- (map_id (seq 0 (length l))) at 1.
  rewrite (combine_seq l (fun j => j) dflt 0). apply map_ext.
  intro j. now rewrite Nat.sub_0_r.
Qed.

Lemma build_model_mirrors (inst : Instance) (m : MP) :
  build_model (MP_init inst) = Done m -> mirrors m.
Proof.
  intro H.
  destruct (build_model_consistent inst m H)
    as (Hc & Hins & _ & Hids & Hcons & Htot).
  destruct (build_model_shape inst m H)
    as (Hpat & _ & _ & Hx & _ & _ & _ & Hcs & Hpe & _).
  pose proof Hc as [_ _ Hrows Hcols _ _ _ _ [_ Hlt] _].
  unfold mirrors, all_constrs. rewrite Hins, Hcs, Hpe. cbn [app].
  split; [exact Hcons|]. split.
  - destruct (I inst) as [|n] eqn:En; [lia|].
    rewrite Hcs in Hlt. cbn [app] in Hlt. rewrite Hids in Hlt.
    try rewrite En in Hlt.
    rewrite Forall_forall in Hlt.
    assert (Hn : (n < next_id (set_cover m))%nat)
      by (apply Hlt, in_seq; lia).
    lia.
  - intros c Hin Hid. apply in_map_iff in Hin as (i & <- & Hi).
    apply in_seq in Hi. cbn [demand_row c_id].
    unfold demand_row, demand_constr. rewrite Hins, Hx. f_equal.
    assert (Hl : length (nth i (pattern m) []) = I inst).
    { rewrite Forall_forall in Hcols.
      rewrite (Hcols (nth i (pattern m) [])), Htot; [reflexivity|].
      apply nth_In. rewrite Hrows, Hins. lia. }
    rewrite <- Hpat. rewrite <- Hl.
    symmetry. apply combine_seq_id.
Qed.

Lemma reachable_mirrors (m : MP) : reachable m -> mirrors m.
Proof.
  induction 1 as [inst m H | me m m' Hr IH H].
  - now apply (build_model_mirrors inst).
  - apply (call_mirrors me m m' H); [|exact IH].
    now apply reachable_consistent.
Qed.

Lemma eval_combine_offset (row pre rest : list Q) (acc : Q) :
  fold_left Qplus
    (map (fun t : Q * nat => fst t * nth (snd t) (pre ++ rest) 0)
         (combine row (seq (length pre) (length rest)))) acc
  = fold_left Qplus (map (fun p => fst p * snd p) (combine row rest)) acc.
Proof.
  revert row pre acc. induction rest as [|v rest IH]; intros row pre acc.
  - destruct row; reflexivity.
  - destruct row as [|a row]; [reflexivity|].
    simpl. rewrite nth_middle.
    specialize (IH row (pre ++ [v]) (acc + a * v)).
    rewrite <- app_assoc, length_app in IH. simpl in IH.
    rewrite Nat.add_1_r in IH. exact IH.
Qed.

Lemma eval_combine_seq (row xs : list Q) :
  eval_expr (combine row (seq 0 (length xs))) xs = dot row xs.
Proof. exact (eval_combine_offset row [] xs 0). Qed.

(** X22: the model mirrors the pattern matrix.  In every state of a run the
    handles in [cons] are [0 .. I-1], and every constraint of the model,
    committed or pending, under the handle [i] of an item is
    [sum_j pattern[i][j] * x[j] >= d[i]] named [Demand_i], with one term per
    column in column order: its left-hand side evaluates to the product of
    row [i] of [pattern] with the values of the variables.  Constraints with
    other handles are the soft-fixing constraints. *)
Theorem model_mirrors_pattern (m : MP) (c : Constr) :
  reachable m ->
  In c (constrs (set_cover m) ++ pending (set_cover m)) ->
  (c_id c < I (ins m))%nat ->
  In (c_id c) (cons m) /\
  c_lhs c = combine (nth (c_id c) (pattern m) []) (x m) /\
  c_rhs c = nth (c_id c) (d (ins m)) 0 /\
  c_name c = Demand_ (c_id c) /\
  forall xs, length xs = total_column m ->
             eval_expr (c_lhs c) xs = dot (nth (c_id c) (pattern m) []) xs.
Proof.
  intros Hr Hin Hid.
  destruct (reachable_mirrors m Hr) as (Hcons & _ & Hrow).
  destruct (reachable_consistent m Hr) as [_ _ _ _ Htot _ Hx _ _ _].
  specialize (Hrow c Hin Hid).
  split; [rewrite Hcons; apply in_seq; lia|].
  pose proof (f_equal c_lhs Hrow) as E1.
  pose proof (f_equal c_rhs Hrow) as E2.
  pose proof (f_equal c_name Hrow) as E3.
  cbn [demand_constr c_lhs c_rhs c_name] in E1, E2, E3.
  repeat (split; [assumption|]).
  intros xs Hl. rewrite E1, Hx.
  replace (length (vars (set_cover m))) with (length xs)
    by (rewrite Hl, Htot, Hx, length_seq; reflexivity).
  apply eval_combine_seq.
Qed.

(** X23: what [add_column] does, in a state of a run with at least one
    item that still holds its demand constraints.  It raises when the column does not have one entry per item (the
    call [col.addTerms] needs as many coefficients as constraints);
    otherwise it returns, the new variable gets the next index, each row of
    [pattern] gets its entry of the column, and the new variable enters the
    constraint of item [i] with coefficient [coluna[i]] and no other
    constraint: the soft-fixing constraints in the model are left as they
    are, so a column priced out under soft fixing has coefficient 0 in
    them. *)
Theorem add_column_enters_demands_only (coluna : list Q) (m : MP) :
  reachable m -> (1 <= I (ins m))%nat -> demands_present m ->
  (length coluna <> I (ins m) -> add_column coluna m = Raised) /\
  (length coluna = I (ins m) ->
   exists m',
     add_column coluna m = Done m' /\
     x m' = x m ++ [total_column m] /\
     total_column m' = Datatypes.S (total_column m) /\
     (forall i, (i < I (ins m))%nat ->
        nth i (pattern m') [] = nth i (pattern m) [] ++ [nth i coluna 0]) /\
     constrs (set_cover m') ++ pending (set_cover m')
     = map (with_column (I (ins m)) coluna (total_column m))
           (constrs (set_cover m) ++ pending (set_cover m)) /\
     (forall c, In c (constrs (set_cover m) ++ pending (set_cover m)) ->
        (I (ins m) <= c_id c)%nat ->
        with_column (I (ins m)) coluna (total_column m) c = c)).
Proof.
  intros Hr HI _.
  pose proof (reachable_consistent m Hr) as Hc.
  destruct (reachable_mirrors m Hr) as (Hcons & _).
  split.
  - intro Hne. unfold add_column. cbn [cons set_column_flag].
    destruct Hc as [_ Hl _ _ _ _ _ _ _ _]. rewrite Hl.
    destruct (Nat.eqb_spec (length coluna) (I (ins m))); [contradiction|].
    reflexivity.
  - intro Hlen.
    destruct (add_column_Done coluna m Hc HI Hlen) as (m' & H).
    exists m'. split; [exact H|].
    destruct (add_column_consistent coluna m m' H Hc)
      as (_ & _ & Hpat & Ht & _).
    pose proof (add_column_solution _ _ _ H) as (_ & Hx).
    pose proof (add_column_constrs coluna m m' Hc Hcons H) as Hall.
    pose proof Hc as [_ _ Hrows _ Htot _ Hxs _ _ _].
    split.
    { rewrite Hx. do 2 f_equal. rewrite Htot, Hxs. now rewrite length_seq. }
    split; [exact Ht|]. split.
    { intros i Hi. rewrite Hpat. apply extend_rows_nth; lia. }
    split; [exact Hall|].
    intros [h lhs rhs nm] _ Hge. unfold with_column. cbn [c_id c_lhs c_rhs
                                                          c_name] in *.
    destruct (Nat.ltb_spec h (I (ins m))) as [Hlt|_]; [lia|].
    now rewrite app_nil_r.
Qed.

(** ** The pricing problem and the number of prices *)

Lemma for_from_ext {S} (body body' : nat -> S -> outcome S)
  (n start : nat) (s : S) :
  (forall i t, (start <= i < start + n)%nat -> body i t = body' i t) ->
  for_from start n body s = for_from start n body' s.
Proof.
  revert start s. induction n as [|n IH]; intros start s Hb; [reflexivity|].
  simpl. rewrite Hb by lia. destruct (body' start s); try reflexivity.
  simpl. apply IH. intros i t Hi. apply Hb. lia.
Qed.

Lemma for_from_raises {S} (body : nat -> S -> outcome S)
  (n start k : nat) (s : S) :
  (start <= k < start + n)%nat -> (forall t, body k t = Raised) ->
  (forall i t, body i t <> OutOfFuel) ->
  for_from start n body s = Raised.
Proof.
  revert start s. induction n as [|n IH]; intros start s Hk Hr Hf; [lia|].
  simpl. destruct (Nat.eq_dec start k) as [->|Hne]; [now rewrite Hr|].
  destruct (body start s) as [t| |] eqn:E; simpl.
  - apply IH; [lia | exact Hr | exact Hf].
  - reflexivity.
  - now destruct (Hf start s).
Qed.

(** Reading the first [n] entries of a list one by one raises when the list
    is shorter. *)
Lemma collect_prefix {A} (l : list A) (n : nat) :
  for_range n (fun i a => v <- index l i ;; Done (a ++ [v])) []
  = if (n <=? length l)%nat then Done (firstn n l) else Raised.
Proof.
  destruct (Nat.leb_spec n (length l)) as [Hle|Hgt].
  - rewrite <- (collect_list (firstn n l)).
    rewrite length_firstn, Nat.min_l by exact Hle.
    unfold for_range. apply for_from_ext. intros i t Hi.
    unfold index. rewrite nth_error_firstn.
    destruct (Nat.ltb_spec i n); [reflexivity | lia].
  - unfold for_range. apply (for_from_raises _ n 0 (length l)); [lia| |].
    + intro t. unfold index.
      now rewrite (proj2 (nth_error_None l (length l)) (Nat.le_refl _)).
    + intros i t. unfold index. destruct (nth_error l i); discriminate.
Qed.

Lemma knapsack_prices (m : MP) (pi : list Q) :
  knapsack m pi =
  if (I (ins m) <=? length pi)%nat then
    let obj := firstn (I (ins m)) pi in
    let y := map (solve_Y obj (w (ins m)) (W (ins m))) (seq 0 (I (ins m))) in
    if Qgtb (dot obj y) (1 + knapsack_tolerance) then Done (Val y)
    else Done End
  else Raised.
Proof.
  unfold knapsack. rewrite collect_prefix.
  destruct (I (ins m) <=? length pi)%nat; [|reflexivity]. cbn [bind].
  change (for_range (I (ins m))
            (fun i r => wi <- index (w (ins m)) i ;; Done (r ++ [wi])) [])
    with (for_range (length (w (ins m)))
            (fun i r => wi <- index (w (ins m)) i ;; Done (r ++ [wi])) []).
  rewrite collect_list. cbn [bind]. cbv zeta.
  set (y := map _ _).
  replace (I (ins m)) with (length y)
    by (unfold y; now rewrite length_map, length_seq).
  rewrite collect_list. reflexivity.
Qed.

(** X24: [knapsack] and the number of prices.  With fewer prices than items
    the call raises (the loop that builds the objective reads [pi[i]] for
    every item); with at least as many it returns, reads only the first [I]
    prices, and a returned column has one entry per item and a value above
    [1 + 1e-4] under those prices.  For an instance without items it
    returns ['End']. *)
Theorem knapsack_price_count (m : MP) (pi : list Q) :
  ((length pi < I (ins m))%nat -> knapsack m pi = Raised) /\
  ((I (ins m) <= length pi)%nat ->
   knapsack m pi = knapsack m (firstn (I (ins m)) pi) /\
   (knapsack m pi = Done End \/
    exists c, knapsack m pi = Done (Val c) /\
              length c = I (ins m) /\
              1 + 1e-4 < dot (firstn (I (ins m)) pi) c)) /\
  (I (ins m) = 0%nat -> knapsack m pi = Done End).
Proof.
  split; [|split].
  - intro Hlt. rewrite knapsack_prices.
    destruct (Nat.leb_spec (I (ins m)) (length pi)); [lia | reflexivity].
  - intro Hle. split.
    + rewrite (knapsack_prices m pi), (knapsack_prices m (firstn _ pi)).
      rewrite length_firstn, Nat.min_l by exact Hle.
      rewrite Nat.leb_refl, (proj2 (Nat.leb_le _ _) Hle).
      now rewrite firstn_firstn, Nat.min_id.
    + rewrite knapsack_prices, (proj2 (Nat.leb_le _ _) Hle). cbv zeta.
      destruct (Qgtb _ _) eqn:E; [right | now left].
      eexists. split; [reflexivity|].
      split; [now rewrite length_map, length_seq|].
      apply Qgtb_gt in E.
      assert (Htol : 1 + knapsack_tolerance == 1 + 1e-4) by reflexivity.
      now rewrite <- Htol.
  - intro H0. rewrite knapsack_prices, H0. reflexivity.
Qed.

End WithSolver.

(** * Concrete runs

    The closed statements below evaluate the model on the two instances
    above. *)

(** The answers of the two-item solver are optima of the problems the
    baseline stage asks it: the first relaxation and its pricing problem, and
    the last relaxation, its pricing problem and the integer problem. *)
Lemma two_item_solver_exact :
  let m0 := returned (build_model (MP_init two_item_instance)) in
  let m1 := returned (solve_relaxation two_item_X two_item_Pi m0) in
  let mb := returned (baseline two_item_X two_item_Pi two_item_Y 5
                               two_item_instance) in
  dual_prices m1 = Done [1; 0.5] /\
  lp_certificate (set_cover m1) = true /\
  knapsack_certificate two_item_instance [1; 0.5] [1; 1] = true /\
  lp_certificate (set_cover mb) = true /\
  integral (sol_X (set_cover mb)) = true /\
  knapsack_certificate two_item_instance [0.5; 0.5] [1; 1] = true.
Proof. vm_compute. repeat split. Qed.

(** The same for the model with the Type-5 constraint of the first outer
    iteration. *)
Lemma two_item_solver_exact_type5 :
  let mb := returned (baseline two_item_X two_item_Pi two_item_Y 5
                               two_item_instance) in
  let m2 := returned (column_generation two_item_X two_item_Pi two_item_Y 5
                        (returned (apply_type Type5 mb))) in
  length (constrs (set_cover m2)) = 3%nat /\
  lp_certificate (set_cover m2) = true.
Proof. vm_compute. repeat split. Qed.

(** The answers of the one-item solver are optima as well: the relaxation
    has [x = 5] with dual price 1/2, the best pattern packs 2 pieces and is
    worth exactly 1, and the relaxed optimum is integral. *)
Lemma one_item_solver_exact :
  let mb := returned (baseline one_item_X one_item_Pi one_item_Y 5
                               one_item_instance) in
  column_flag mb = false /\
  lp_certificate (set_cover mb) = true /\
  integral (sol_X (set_cover mb)) = true /\
  knapsack_certificate one_item_instance [0.5] [2] = true.
Proof. vm_compute. repeat split. Qed.

Lemma two_item_baseline_reachable :
  reachable two_item_X two_item_Pi two_item_Y
    (returned (baseline two_item_X two_item_Pi two_item_Y 5 two_item_instance)).
Proof.
  apply (baseline_state two_item_X two_item_Pi two_item_Y 5 two_item_instance).
  vm_compute. reflexivity.
Qed.

Lemma two_item_built_reachable :
  reachable two_item_X two_item_Pi two_item_Y
    (returned (build_model (MP_init two_item_instance))).
Proof.
  apply (reach_build two_item_X two_item_Pi two_item_Y two_item_instance).
  vm_compute. reflexivity.
Qed.

(** C1 at the two-item instance: Type 5 applied after the baseline stage,
    exhaustive column generation, then the removal. *)
Lemma C1_witness :
  let m := returned (baseline two_item_X two_item_Pi two_item_Y 5
                              two_item_instance) in
  let m1 := returned (apply_type Type5 m) in
  let m2 := returned (run_cg two_item_X two_item_Pi two_item_Y
                             (exhaustive 5) m1) in
  exists m3 added,
    remove_type Type5 m2 = Done m3 /\
    pending (set_cover m1) = added /\
    length added = removal_count Type5 m1 /\
    ids (constrs (set_cover m2)) = ids (constrs (set_cover m)) ++ ids added /\
    length (constrs (set_cover m3)) = length (constrs (set_cover m)) /\
    ids (constrs (set_cover m3)) = ids (constrs (set_cover m)) /\
    ids (removed (set_cover m3))
    = ids (removed (set_cover m)) ++ rev (ids added).
Proof.
  intros m m1 m2.
  apply (proj1 (C1_soft_fixing_add_remove two_item_X two_item_Pi two_item_Y)
               Type5 (exhaustive 5) m m1 m2).
  - exact two_item_baseline_reachable.
  - vm_compute. reflexivity.
  - vm_compute. reflexivity.
  - vm_compute. reflexivity.
Defined.

(** C2 at a fresh object whose integer objective is 5: the first case. *)
Lemma C2_witness :
  let m := set_Z_IP (Fin 5) (MP_init one_item_instance) in
  eltb (Z_IP m) (best_IP m) = true /\
  update_alpha m = (Val 0.9, set_alpha 0.9 (set_best_IP (Z_IP m) m)).
Proof.
  intro m. split; [reflexivity|].
  apply (proj1 (C2_update_alpha_decision_order
                  one_item_X one_item_Pi one_item_Y m)).
  reflexivity.
Defined.


(** C4 at the first pricing problem of the two-item instance. *)
Lemma C4_witness :
  let m := returned (build_model (MP_init two_item_instance)) in
  length [1; 0.5] = I (ins m) /\
  1 + 1e-4 < dot [1; 0.5] [1; 1] /\
  knapsack two_item_Y m [1; 0.5] = Done (Val [1; 1]).
Proof.
  intro m. split; [vm_compute; reflexivity|].
  split; [vm_compute; reflexivity|].
  apply (proj1 (C4_knapsack_threshold two_item_Y m [1; 0.5] eq_refl)).
  vm_compute. reflexivity.
Defined.



(** C6 in a state of the two-item run. *)
Lemma C6_witness :
  let m := returned (build_model (MP_init two_item_instance)) in
  exists m',
    solve_IP two_item_X two_item_Pi m = Done m' /\
    x_IP m' = map positive_part (sol_X (set_cover m')) /\
    Z_IP m' = Fin (objective_value (set_cover m')) /\
    best_IP m' = best_IP m.
Proof.
  intro m.
  apply (proj1 (C6_solve_IP_leaves_best_IP two_item_X two_item_Pi two_item_Y) m).
  exact two_item_built_reachable.
Defined.

(** C6 fails as stated: the baseline integer solve of the two-item instance
    finds the objective 10, which improves on the infinite [best_IP], and
    [best_IP] is still infinite when the baseline stage ends. *)
Lemma C6_counterexample :
  exists m,
    baseline two_item_X two_item_Pi two_item_Y 5 two_item_instance = Done m /\
    Z_IP m = Fin 10 /\
    eltb (Z_IP m) (best_IP m) = true /\
    best_IP m = PosInf.
Proof.
  eexists. split; [vm_compute; reflexivity|].
  split; [reflexivity|]. split; reflexivity.
Qed.

(** C7 from the end of the baseline stage of the two-item instance, where
    [column_flag] is set: eleven iterations. *)
Lemma C7_witness :
  let m := returned (baseline two_item_X two_item_Pi two_item_Y 5
                              two_item_instance) in
  exists m',
    outer_loop two_item_X two_item_Pi two_item_Y (11 + 0) sel0 0 m
    = Done (((if column_flag m then 11 else 10) + 0)%nat, m') /\
    best_IP m'
    = Fin (objective_value
             (integer_model two_item_X two_item_Pi (set_cover m))) /\
    alpha m' == 0.1 /\ column_flag m' = false /\
    total_column m' = total_column m.
Proof.
  intro m.
  apply (proj2 (C7_selector0_iterations two_item_X two_item_Pi two_item_Y)
               m 0%nat 0%nat).
  - exact two_item_baseline_reachable.
  - vm_compute. reflexivity.
  - vm_compute. discriminate.
Defined.

(** C7 fails as stated: with selector 0 the outer loop of the two-item
    instance, whose baseline column generation found a column and set
    [column_flag], ends after 11 iterations, and the loop of the one-item
    instance (Scenario A, no column found) ends after 10. *)
Lemma C7_counterexample :
  (exists m,
     baseline two_item_X two_item_Pi two_item_Y 5 two_item_instance = Done m /\
     column_flag m = true) /\
  (exists m',
     main two_item_X two_item_Pi two_item_Y 20 two_item_instance sel0
     = Done (11%nat, m')) /\
  (exists m',
     main one_item_X one_item_Pi one_item_Y 20 one_item_instance sel0
     = Done (10%nat, m')).
Proof.
  split; [|split]; eexists.
  - split; [vm_compute; reflexivity | reflexivity].
  - vm_compute. reflexivity.
  - vm_compute. reflexivity.
Qed.



(** C9 at the first pricing problem of the two-item instance and at a state
    whose [alpha] has reached 0.1. *)
Lemma C9_witness :
  let m := set_alpha 0.1 (set_best_IP (Fin 5) (set_Z_IP (Fin 5)
             (returned (build_model (MP_init two_item_instance))))) in
  knapsack two_item_Y m [1; 0.5] = Done (Val [1; 1]) /\
  update_alpha m = (End, m).
Proof.
  intro m.
  destruct (C9_two_tolerances two_item_Y m [1; 0.5]) as (_ & _ & Hk & Ha).
  split.
  - apply (Hk eq_refl). vm_compute. reflexivity.
  - apply (Ha eq_refl eq_refl). vm_compute. discriminate.
Defined.

(** C9 fails as stated: with [alpha = 0.1005], which exceeds [0.1 + 1e-4],
    nothing improved and no column found, [update_alpha] returns ['End']
    instead of decrementing; the two tolerances differ. *)
Lemma C9_counterexample :
  let m := set_alpha 0.1005 (set_best_IP (Fin 5) (set_Z_IP (Fin 5)
             (MP_init one_item_instance))) in
  eltb (Z_IP m) (best_IP m) = false /\ column_flag m = false /\
  0.1 + 1e-4 < alpha m /\
  update_alpha m = (End, m) /\
  ~ alpha_tolerance == knapsack_tolerance.
Proof.
  intro m. split; [reflexivity|]. split; [reflexivity|].
  split; [vm_compute; reflexivity|]. split; [reflexivity|].
  vm_compute. discriminate.
Qed.

(** C10 at the built model of the two-item instance, adding the column
    [(1, 1)]. *)
Lemma C10_witness :
  let m := returned (build_model (MP_init two_item_instance)) in
  let m' := returned (add_column [1; 1] m) in
  P m' = P m /\ length [1; 1] = P m /\
  pattern m' = extend_rows (pattern m) [1; 1] /\
  total_column m' = Datatypes.S (total_column m) /\
  (P m' < total_column m')%nat.
Proof.
  intros m m'.
  apply (proj1 (proj2 (proj2 (C10_P_is_the_item_count
                                two_item_X two_item_Pi two_item_Y)))
               m [1; 1] m').
  - exact two_item_built_reachable.
  - vm_compute. reflexivity.
Defined.

(** * The soft-fixing constraints on the two-item instance

    Each statement applies one of the theorems on the constraints to the
    state the baseline stage of the two-item instance ends in, where the
    current solution and [x_IP] are both [(0, 0, 10)]. *)

Lemma soft_fixing_keeps_incumbent_witness :
  let m := returned (baseline two_item_X two_item_Pi two_item_Y 5
                              two_item_instance) in
  let m' := returned (soft_fixing m) in
  exists c,
    pending (set_cover m') = pending (set_cover m) ++ [c] /\
    c_lhs c = unit_terms (selected (fun v => Qgtb v 0.5) (x m)
                                   (sol_X (set_cover m))) /\
    c_rhs c == np_ceil (alpha m * eval_expr (c_lhs c) (sol_X (set_cover m))) /\
    c_name c = Soft_Fixing /\
    c_rhs c <= eval_expr (c_lhs c) (sol_X (set_cover m)).
Proof.
  intros m m'.
  apply (soft_fixing_keeps_incumbent two_item_X two_item_Pi two_item_Y m m').
  - exact two_item_baseline_reachable.
  - vm_compute. reflexivity.
  - vm_compute. reflexivity.
Defined.

Lemma soft_fixing_type3_vacuous_witness :
  let m := returned (baseline two_item_X two_item_Pi two_item_Y 5
                              two_item_instance) in
  let m' := returned (soft_fixing_type3 m) in
  exists c,
    pending (set_cover m') = pending (set_cover m) ++ [c] /\
    c_lhs c = unit_terms (selected (fun v => Qltb v 0.3) (x m)
                                   (sol_X (set_cover m))) /\
    c_rhs c == 0 /\
    (forall xs, nonnegative xs = true -> c_rhs c <= eval_expr (c_lhs c) xs).
Proof.
  intros m m'. apply (soft_fixing_type3_vacuous m m').
  - vm_compute. reflexivity.
  - vm_compute. reflexivity.
  - vm_compute. reflexivity.
Defined.

Lemma soft_fixing_type4_keeps_incumbent_witness :
  let m := returned (baseline two_item_X two_item_Pi two_item_Y 5
                              two_item_instance) in
  let m' := returned (soft_fixing_type4 m) in
  exists added,
    pending (set_cover m') = pending (set_cover m) ++ added /\
    added = map (fun i => mkConstr (next_id (set_cover m) + i)
                            (item_terms (fun v => Qgtb v 0.5) m i)
                            (np_ceil (alpha m
                                      * item_rhs (fun v => Qgtb v 0.5) m i))
                            (Soft_fixing_ i))
                (seq 0 (I (ins m))) /\
    Forall (fun c => c_rhs c <= eval_expr (c_lhs c) (x_IP m)) added.
Proof.
  intros m m'.
  apply (soft_fixing_type4_keeps_incumbent
           two_item_X two_item_Pi two_item_Y m m').
  - exact two_item_baseline_reachable.
  - vm_compute. reflexivity.
  - vm_compute. repeat constructor.
  - vm_compute. reflexivity.
Defined.

Lemma soft_fixing_type7_vacuous_witness :
  let m := returned (baseline two_item_X two_item_Pi two_item_Y 5
                              two_item_instance) in
  let m' := returned (soft_fixing_type7 m) in
  exists added,
    pending (set_cover m') = pending (set_cover m) ++ added /\
    length added = I (ins m) /\
    Forall (fun c => c_rhs c == 0) added /\
    (Forall (fun row => nonnegative row = true) (pattern m) ->
     forall xs, nonnegative xs = true ->
       Forall (fun c => c_rhs c <= eval_expr (c_lhs c) xs) added).
Proof.
  intros m m'. apply (soft_fixing_type7_vacuous m m').
  - vm_compute. reflexivity.
  - vm_compute. reflexivity.
  - vm_compute. reflexivity.
Defined.

Lemma soft_fixing_type5_bounds_witness :
  let m := returned (baseline two_item_X two_item_Pi two_item_Y 5
                              two_item_instance) in
  let m' := returned (soft_fixing_type5 m) in
  let js := selected_columns (fun v => Qgtb v 0.5) m in
  cont m' = length js /\
  pending (set_cover m')
  = pending (set_cover m)
    ++ map (fun kj => mkConstr (next_id (set_cover m) + fst kj)
                               [(1, snd kj)]
                               (np_ceil (alpha m * nth (snd kj) (x_IP m) 0))
                               (soft_fixing_ (Datatypes.S (fst kj))))
           (combine (seq 0 (length js)) js) /\
  Forall (fun j => 1 <= np_ceil (alpha m * nth j (x_IP m) 0) /\
                   np_ceil (alpha m * nth j (x_IP m) 0) <= nth j (x_IP m) 0)
         js.
Proof.
  intros m m'.
  apply (soft_fixing_type5_bounds two_item_X two_item_Pi two_item_Y m m').
  - exact two_item_baseline_reachable.
  - vm_compute. reflexivity.
  - vm_compute. reflexivity.
Defined.

Lemma soft_fixing_type2_shared_lhs_witness :
  let m := returned (baseline two_item_X two_item_Pi two_item_Y 5
                              two_item_instance) in
  let m' := returned (soft_fixing_type2 m) in
  exists added,
    pending (set_cover m') = pending (set_cover m) ++ added /\
    added = map (fun i => mkConstr (next_id (set_cover m) + i)
                            (unit_terms
                               (selected (fun v => Qgtb v 0.5) (x m)
                                         (sol_X (set_cover m))))
                            (np_ceil (alpha m * nth i (d (ins m)) 0))
                            (Soft_Fixing_piece_ i))
                (seq 0 (I (ins m))) /\
    (forall c c', In c added -> In c' added -> c_lhs c = c_lhs c').
Proof.
  intros m m'.
  destruct (soft_fixing_type2_shared_lhs m m') as (added & H1 & H2 & H3 & _).
  - vm_compute. reflexivity.
  - exists added. split; [exact H1|]. split; [exact H2 | exact H3].
Defined.

Lemma soft_fixing_type6_keeps_incumbent_witness :
  let m := returned (baseline two_item_X two_item_Pi two_item_Y 5
                              two_item_instance) in
  let m' := returned (soft_fixing_type6 m) in
  exists c,
    pending (set_cover m') = pending (set_cover m) ++ [c] /\
    c_lhs c = flat_map (column_terms m)
                       (selected_positions (fun v => Qgtb v 0.3) m) /\
    c_rhs c = np_ceil (alpha m * eval_expr (c_lhs c) (sol_X (set_cover m))) /\
    c_name c = unnamed /\
    c_rhs c <= eval_expr (c_lhs c) (sol_X (set_cover m)).
Proof.
  intros m m'.
  apply (soft_fixing_type6_keeps_incumbent
           two_item_X two_item_Pi two_item_Y m m').
  - exact two_item_baseline_reachable.
  - vm_compute. reflexivity.
  - vm_compute. repeat constructor.
  - vm_compute. reflexivity.
Defined.

(** * Runs that fail and runs that cannot *)

(** The instance read from a file that holds only the capacity line. *)
Lemma instance_without_items_fails_witness :
  let inst := {| W := 10; w := []; d := [] |} in
  Instance_init [[10]] = Done inst /\
  I inst = 0%nat /\
  baseline two_item_X two_item_Pi two_item_Y 5 inst = Raised /\
  main two_item_X two_item_Pi two_item_Y 5 inst sel1 = Raised.
Proof.
  intro inst. split; [reflexivity|]. split; [reflexivity|].
  apply (instance_without_items_fails two_item_X two_item_Pi two_item_Y
                                      5 inst sel1).
  reflexivity.
Defined.

(** The baseline column generation of the two-item instance. *)
Lemma column_generation_postcondition_witness :
  let m := returned (build_model (MP_init two_item_instance)) in
  let m' := returned (column_generation two_item_X two_item_Pi two_item_Y 5 m) in
  (exists pi, dual_prices m' = Done pi /\
              knapsack two_item_Y m' pi = Done End) /\
  (total_column m <= total_column m')%nat /\
  (total_column m' + columns_added m
   = total_column m + columns_added m')%nat /\
  (total_column m' - total_column m < 5)%nat /\
  column_flag m'
  = (column_flag m || negb (Nat.eqb (total_column m') (total_column m))) /\
  Forall (fun v => v_vtype v = CONTINUOUS) (vars (set_cover m')) /\
  x_rel m' = map positive_part (sol_X (set_cover m')) /\
  x_IP m' = x_IP m.
Proof.
  intros m m'.
  apply (column_generation_postcondition
           two_item_X two_item_Pi two_item_Y 5 m m').
  - exact two_item_built_reachable.
  - vm_compute. lia.
  - unfold demands_present. vm_compute. intros a H. exact H.
  - vm_compute. reflexivity.
Defined.


(** Removing a constraint right after the baseline stage of the two-item
    instance, where no soft-fixing constraint is in the model. *)
Lemma unpaired_removal_breaks_pricing_witness :
  let m := returned (baseline two_item_X two_item_Pi two_item_Y 5
                              two_item_instance) in
  exists m' c,
    remove_soft_fixing m = Done m' /\
    removed (set_cover m') = removed (set_cover m) ++ [c] /\
    c_id c = last (cons m) 0%nat /\
    length (constrs (set_cover m')) = (I (ins m) - 1)%nat /\
    column_generation two_item_X two_item_Pi two_item_Y 4 m' = Raised.
Proof.
  intro m.
  apply (unpaired_removal_breaks_pricing
           two_item_X two_item_Pi two_item_Y 3 m).
  - exact two_item_baseline_reachable.
  - vm_compute. lia.
  - vm_compute. reflexivity.
  - vm_compute. reflexivity.
Defined.

Lemma two_item_first_ip_reachable :
  reachable two_item_X two_item_Pi two_item_Y
    (returned (solve_IP two_item_X two_item_Pi
                 (returned (build_model (MP_init two_item_instance))))).
Proof.
  apply (reach_call two_item_X two_item_Pi two_item_Y call_solve_IP
                    (returned (build_model (MP_init two_item_instance)))).
  - exact two_item_built_reachable.
  - vm_compute. reflexivity.
Qed.

(** Selector 3 on the two-item instance, from the state in which the model
    has its two initial columns and an integer solution: the one-step column
    generation finds the pattern [(1, 1)], and the retry fails. *)
Lemma selector3_retry_raises_witness :
  let m := returned (solve_IP two_item_X two_item_Pi
                       (returned (build_model (MP_init two_item_instance)))) in
  let m1 := returned (soft_fixing_type3 m) in
  let m2 := returned (column_generation_2 two_item_X two_item_Pi two_item_Y
                                          m1) in
  column_found m2 = true /\
  (exists m3, remove_soft_fixing m2 = Done m3 /\
              soft_fixing_type3 m3 = Raised) /\
  retry_type3 two_item_X two_item_Pi two_item_Y 1 m2 = Raised /\
  dispatch two_item_X two_item_Pi two_item_Y 1 sel3 m = Raised.
Proof.
  intros m m1 m2. split; [vm_compute; reflexivity|].
  apply (selector3_retry_raises two_item_X two_item_Pi two_item_Y 0 m m1 m2).
  - exact two_item_first_ip_reachable.
  - vm_compute. reflexivity.
  - vm_compute. reflexivity.
  - vm_compute. reflexivity.
Defined.

(** * The initial model of two small instances *)




(** An instance whose first item, of width 12, does not fit the roll of
    capacity 10. *)
Lemma oversized_item_is_infeasible_witness :
  let inst := {| W := 10; w := [12; 4]; d := [3; 5] |} in
  let m := returned (build_model (MP_init inst)) in
  fill inst 0 == 0 /\
  nth_error (pending (set_cover m)) 0 = Some (demand_row inst 0) /\
  forall xs, ~ c_rhs (demand_row inst 0)
               <= eval_expr (c_lhs (demand_row inst 0)) xs.
Proof.
  intros inst m. apply (oversized_item_is_infeasible inst m 0%nat).
  - vm_compute. reflexivity.
  - vm_compute. lia.
  - discriminate.
  - reflexivity.
  - left. reflexivity.
  - reflexivity.
Defined.

(** * Reports, pricing and the constraint matrix on the two-item instance *)

(** [update_beta] at a fresh object whose integer objective is 5. *)
Lemma update_beta_decision_order_witness :
  let m := set_Z_IP (Fin 5) (MP_init one_item_instance) in
  eltb (Z_IP m) (best_IP m) = true /\
  update_beta m = (Val 20%Z, set_beta 20%Z (set_best_IP (Z_IP m) m)).
Proof.
  intro m. split; [reflexivity|].
  apply (proj1 (update_beta_decision_order
                  one_item_X one_item_Pi one_item_Y m)).
  reflexivity.
Defined.

(** The report after the baseline column generation. *)
Lemma report_sums_are_objectives_witness :
  let m := returned (build_model (MP_init two_item_instance)) in
  let m' := returned (column_generation two_item_X two_item_Pi two_item_Y
                                        5 m) in
  nonnegative (sol_X (set_cover m')) = true /\
  lb m' = Fin (sol_rel m') /\
  r_relaxation (report_lines 0 m') == sol_rel m'.
Proof.
  intros m m'. split; [vm_compute; reflexivity|].
  destruct (proj1 (report_sums_are_objectives
                     two_item_X two_item_Pi two_item_Y 0) 5%nat m m')
    as (H1 & _ & _ & H2).
  - exact two_item_built_reachable.
  - vm_compute. lia.
  - unfold demands_present. vm_compute. intros a H. exact H.
  - vm_compute. reflexivity.
  - split; [exact H1|]. apply H2. vm_compute. reflexivity.
Defined.


(** The first demand constraint after the baseline stage. *)
Lemma model_mirrors_pattern_witness :
  let m := returned (baseline two_item_X two_item_Pi two_item_Y 5
                              two_item_instance) in
  let c := nth 0 (constrs (set_cover m)) (mkConstr 0 [] 0 unnamed) in
  In (c_id c) (cons m) /\
  c_lhs c = combine (nth (c_id c) (pattern m) []) (x m) /\
  c_rhs c = nth (c_id c) (d (ins m)) 0 /\
  c_name c = Demand_ (c_id c).
Proof.
  intros m c.
  destruct (model_mirrors_pattern two_item_X two_item_Pi two_item_Y m c)
    as (H1 & H2 & H3 & H4 & _).
  - exact two_item_baseline_reachable.
  - vm_compute. left. reflexivity.
  - vm_compute. lia.
  - split; [exact H1|]. split; [exact H2|]. split; [exact H3 | exact H4].
Defined.

(** The column [(1, 1)] added to the initial model. *)
Lemma add_column_enters_demands_only_witness :
  let m := returned (build_model (MP_init two_item_instance)) in
  exists m',
    add_column [1; 1] m = Done m' /\
    x m' = x m ++ [total_column m] /\
    total_column m' = Datatypes.S (total_column m).
Proof.
  intro m.
  destruct (add_column_enters_demands_only
              two_item_X two_item_Pi two_item_Y [1; 1] m) as [_ H].
  - exact two_item_built_reachable.
  - vm_compute. lia.
  - unfold demands_present. vm_compute. intros a H. exact H.
  - destruct H as (m' & H1 & H2 & H3 & _); [vm_compute; reflexivity|].
    exists m'. split; [exact H1|]. split; [exact H2 | exact H3].
Defined.

(** The first pricing problem with one price too many. *)
Lemma knapsack_price_count_witness :
  let m := returned (build_model (MP_init two_item_instance)) in
  let pi := [1; 0.5; 7] in
  (I (ins m) <= length pi)%nat /\
  knapsack two_item_Y m pi = knapsack two_item_Y m (firstn (I (ins m)) pi).
Proof.
  intros m pi.
  assert (H : (I (ins m) <= length pi)%nat) by (vm_compute; lia).
  split; [exact H|].
  exact (proj1 (proj1 (proj2 (knapsack_price_count two_item_Y m pi)) H)).
Defined.
